(** * OpenRCT2 title sequences: the legacy script reader and writer and the
      save-list mutations of [src/openrct2/title/TitleSequence.cpp]

    The development embeds the functions of [TitleSequence.cpp] as Rocq
    functions and proves properties of the line tokenizer
    ([LegacyScriptGetLine]), the command decoder ([LegacyScriptRead]), the
    command encoder ([LegacyScriptWrite]), the operations that change the
    list of saves ([TitleSequenceAddPark], [TitleSequenceRenamePark],
    [TitleSequenceRemovePark], [TitleSequenceGetParkHandle]) and the
    loading and saving of a sequence ([LoadTitleSequence], [GetSaves],
    [ReadScriptFile], [TitleSequenceSave]).

    Conventions of the embedding:
    - a [char] is an [ascii]; text is a [list ascii]; a C string is the part
      of a text before its first NUL ([c_str]);
    - [uint8_t] and [uint16_t] fields are [Z] with the masks and wrap-arounds
      of the source written out; [size_t] positions are [nat];
    - the [char parts[3 * 128]] buffer of the reader is a memory
      [nat -> ascii]; its content before the first call is arbitrary;
    - the outcome of every call into the file system or the zip archive is
      read from a [Backend] record; what loading finds there is read from a
      [Platform.t] record. *)

From Stdlib Require Import ZArith Ascii String Lia Bool.
From stdpp Require Import base list strings.

Local Open Scope Z_scope.

(** ** Characters and C strings *)

Definition NUL : ascii := "000"%char.
Definition LF : ascii := "010"%char.
Definition CR : ascii := "013"%char.

(** A string literal of the source, as a text. *)
Definition str (s : string) : list ascii := list_ascii_of_string s.

(** [c_str s]: the C string that starts at the beginning of [s]
    ([std::string::c_str], or a [char] array read as a string). *)
Fixpoint c_str (s : list ascii) : list ascii :=
  match s with
  | [] => []
  | c :: s' => if (c =? NUL)%char then [] else c :: c_str s'
  end.

Definition code (c : ascii) : Z := Z.of_nat (nat_of_ascii c).

(** [tolower] of the C locale. *)
Definition tolower (c : ascii) : ascii :=
  if (65 <=? code c) && (code c <=? 90)
  then ascii_of_nat (nat_of_ascii c + 32) else c.

(** [isspace] and [isdigit] of the C locale. *)
Definition isspace (c : ascii) : bool :=
  (code c =? 32) || ((9 <=? code c) && (code c <=? 13)).

Definition isdigit (c : ascii) : bool :=
  (48 <=? code c) && (code c <=? 57).

(** [_stricmp a b]: the sign-carrying difference at the first position where
    the lower-cased C strings [a] and [b] differ, 0 when there is none. *)
Fixpoint _stricmp (a b : list ascii) : Z :=
  match a, b with
  | [], [] => 0
  | [], d :: _ => - code (tolower d)
  | c :: _, [] => code (tolower c)
  | c :: a', d :: b' =>
      if (tolower c =? tolower d)%char then _stricmp a' b'
      else code (tolower c) - code (tolower d)
  end.

(** [_strnicmp a b n]: [_stricmp] on at most [n] characters. *)
Definition _strnicmp (a b : list ascii) (n : nat) : Z :=
  _stricmp (take n a) (take n b).

(** Modelled from the spec: [String::Equals(a, b, true)] of
    [core/String.cpp], which is not part of the sources; the spec has the
    argument compared case-insensitively against an entry, an exact match of
    the whole text. *)
Fixpoint String_Equals_ignoreCase (a b : list ascii) : bool :=
  match a, b with
  | [], [] => true
  | c :: a', d :: b' =>
      (tolower c =? tolower d)%char && String_Equals_ignoreCase a' b'
  | _, _ => false
  end.

(** The numbers of the C library. [atoi] is not part of the sources; it is
    embedded as glibc has it on a platform with a 64-bit [long] and a 32-bit
    [int]: [atoi(s)] is [(int) strtol(s, NULL, 10)].

    [atoi_digits acc s]: the leading digits of [s], read after the value
    [acc]. *)
Fixpoint atoi_digits (acc : Z) (s : list ascii) : Z :=
  match s with
  | [] => acc
  | c :: s' =>
      if isdigit c then atoi_digits (10 * acc + (code c - 48)) s' else acc
  end.

Fixpoint skip_spaces (s : list ascii) : list ascii :=
  match s with
  | [] => []
  | c :: s' => if isspace c then skip_spaces s' else s
  end.

(** The number that a text shows, of any size: leading white space, an
    optional sign, then the leading digits; 0 when there is no digit. *)
Definition strtol_value (s : list ascii) : Z :=
  match skip_spaces s with
  | c :: s' =>
      if (c =? "-")%char then - atoi_digits 0 s'
      else if (c =? "+")%char then atoi_digits 0 s'
      else atoi_digits 0 (c :: s')
  | [] => 0
  end.

Definition LONG_MAX : Z := 2 ^ 63 - 1.
Definition LONG_MIN : Z := - 2 ^ 63.

(** [strtol(s, NULL, 10)]: a number beyond the range of [long] gives the
    bound of the range on its side. *)
Definition strtol (s : list ascii) : Z :=
  Z.max LONG_MIN (Z.min LONG_MAX (strtol_value s)).

(** [(int) v] for a [long] [v]: the low 32 bits, read as a signed number. *)
Definition int_of_long (v : Z) : Z := (v + 2 ^ 31) mod 2 ^ 32 - 2 ^ 31.

(** [atoi(s)]. For a number that does not fit an [int] C leaves the result
    undefined and C libraries differ; the result here is the one of the
    library named above: the low 32 bits of a number within [long], and of
    the bound of [long] for a number beyond it. *)
Definition atoi (s : list ascii) : Z := int_of_long (strtol s).

(** The text of [%u]: the decimal digits of a non-negative number, most
    significant first. *)
Definition digit (d : Z) : ascii := ascii_of_nat (Z.to_nat (48 + d)).

Fixpoint utoa_aux (fuel : nat) (n : Z) (acc : list ascii) : list ascii :=
  match fuel with
  | O => acc
  | S fuel' =>
      let acc' := digit (n mod 10) :: acc in
      if n / 10 =? 0 then acc' else utoa_aux fuel' (n / 10) acc'
  end.

Definition utoa (n : Z) : list ascii :=
  utoa_aux (S (Z.to_nat (Z.log2 n))) n [].

(** Modelled from the spec: [String::Format(buffer, size, ...)] of
    [core/String.cpp], which is not part of the sources, as the formatted
    text cut to the [size - 1] characters that fit the buffer. *)
Definition String_Format (size : nat) (text : list ascii) : list ascii :=
  take (size - 1) text.

(** Modelled from the spec: [safe_strcpy(destination, source, size)] of
    [util/Util.cpp], which is not part of the sources; the spec has a
    bounded-length copy that cuts a longer input and never writes past the
    capacity of the destination. The result is the new content of the
    destination. *)
Definition safe_strcpy (destination source : list ascii) (size : nat)
  : list ascii :=
  match size with
  | O => destination
  | S n => take n (c_str source)
  end.

(** ** The [parts] buffer *)

Definition buffer : Type := nat -> ascii.

(** [parts[i] = c]. *)
Definition store (m : buffer) (i : nat) (c : ascii) : buffer :=
  fun j => if Nat.eqb i j then c else m j.

(** The C string that starts at [&m[off]], reading at most [n] bytes. *)
Fixpoint mem_c_str (m : buffer) (off n : nat) : list ascii :=
  match n with
  | O => []
  | S n' =>
      if (m off =? NUL)%char then [] else m off :: mem_c_str m (S off) n'
  end.

(** The three fields of [char parts[3 * 128]], each read as a C string up to
    the end of the buffer. *)
Definition PARTS_SIZE : nat := 3 * 128.

Definition field (m : buffer) (k : nat) : list ascii :=
  mem_c_str m (k * 128) (PARTS_SIZE - k * 128).

(** ** The line tokenizer *)

(** The [for (; part < 3;)] loop of [LegacyScriptGetLine]; every iteration
    reads one byte of [stream] ([TryRead]), so the loop is a recursion on the
    bytes that are left. An exhausted stream reads as [EOF]. The result is the
    buffer and the bytes left in the stream. *)
Fixpoint LegacyScriptGetLine_loop (stream : list ascii) (parts : buffer)
    (part cindex : nat) (whitespace comment load sprite : bool)
    {struct stream} : buffer * list ascii :=
  if (part <? 3)%nat then
    match stream with
    | [] => (store parts (part * 128 + cindex) NUL, [])
    | c :: stream' =>
        if (c =? LF)%char || (c =? CR)%char then
          (store parts (part * 128 + cindex) NUL, stream')
        else if (c =? "#")%char then
          LegacyScriptGetLine_loop stream'
            (store parts (part * 128 + cindex) NUL)
            part cindex whitespace true load sprite
        else if (c =? " ")%char && negb comment && negb load
                && (negb sprite || negb (part =? 2)%nat) then
          if negb whitespace then
            let is_load :=
              (part =? 0)%nat
              && (((cindex =? 4)%nat
                   && (_strnicmp (field parts 0) (str "LOAD") 4 =? 0))
                  || ((cindex =? 6)%nat
                      && (_strnicmp (field parts 0) (str "LOADSC") 6 =? 0))) in
            let is_sprite :=
              negb is_load && (part =? 0)%nat && (cindex =? 6)%nat
              && (_strnicmp (field parts 0) (str "FOLLOW") 6 =? 0) in
            LegacyScriptGetLine_loop stream'
              (store parts (part * 128 + cindex) NUL)
              (S part) 0 whitespace comment
              (load || is_load) (sprite || is_sprite)
          else
            LegacyScriptGetLine_loop stream' parts
              part cindex whitespace comment load sprite
        else if negb comment then
          if (cindex <? 127)%nat then
            LegacyScriptGetLine_loop stream'
              (store parts (part * 128 + cindex) c)
              part (S cindex) false comment load sprite
          else
            LegacyScriptGetLine_loop stream'
              (store parts (part * 128 + cindex) NUL)
              (S part) 0 false comment load sprite
        else
          LegacyScriptGetLine_loop stream' parts
            part cindex whitespace comment load sprite
    end
  else (parts, stream).

(** [LegacyScriptGetLine(stream, parts)]: the three fields start empty, then
    the loop runs from [part = 0], [cindex = 0], [whitespace = 1]. *)
Definition LegacyScriptGetLine (stream : list ascii) (parts : buffer)
  : buffer * list ascii :=
  let parts0 := store (store (store parts (0 * 128) NUL) (1 * 128) NUL)
                  (2 * 128) NUL in
  LegacyScriptGetLine_loop stream parts0 0 0 true false false false.

(** ** Commands and sequences *)

Module TitleScript.
(** Modelled from the spec: [enum class TitleScript] of [TitleSequence.h],
    which is not part of the sources; the values are the ones that
    [TitleSequence.cpp] names. *)
Inductive t : Set :=
| Undefined | Wait | Location | Rotate | Zoom | Follow | Restart
| Load | End | Speed | Loop | EndLoop | LoadSc.

Definition eqb (a b : t) : bool :=
  match a, b with
  | Undefined, Undefined | Wait, Wait | Location, Location
  | Rotate, Rotate | Zoom, Zoom | Follow, Follow | Restart, Restart
  | Load, Load | End, End | Speed, Speed | Loop, Loop
  | EndLoop, EndLoop | LoadSc, LoadSc => true
  | _, _ => false
  end.
End TitleScript.

(** Modelled from the spec: [struct TitleCommand] of [TitleSequence.h], which
    is not part of the sources. The fields are the ones [TitleSequence.cpp]
    reads and writes; the spec has the numeric ones as narrow unsigned
    integers, of 8 bits except the sprite index and the milliseconds, of 16.
    [Type_] is the field [Type]. *)
Record TitleCommand : Type := mkTitleCommand {
  Type_ : TitleScript.t;
  SaveIndex : Z;
  X : Z;
  Y : Z;
  Rotations : Z;
  Zoom : Z;
  Speed : Z;
  SpriteIndex : Z;
  SpriteName : list ascii;
  Milliseconds : Z;
  Scenario : list ascii
}.

(** [TitleCommand command = {}]. *)
Definition TitleCommand_zero : TitleCommand :=
  mkTitleCommand TitleScript.Undefined 0 0 0 0 0 0 0 [] 0 [].

Definition set_Type (c : TitleCommand) (v : TitleScript.t) : TitleCommand :=
  mkTitleCommand v (SaveIndex c) (X c) (Y c) (Rotations c) (Zoom c) (Speed c)
    (SpriteIndex c) (SpriteName c) (Milliseconds c) (Scenario c).
Definition set_SaveIndex (c : TitleCommand) (v : Z) : TitleCommand :=
  mkTitleCommand (Type_ c) v (X c) (Y c) (Rotations c) (Zoom c) (Speed c)
    (SpriteIndex c) (SpriteName c) (Milliseconds c) (Scenario c).
Definition set_X (c : TitleCommand) (v : Z) : TitleCommand :=
  mkTitleCommand (Type_ c) (SaveIndex c) v (Y c) (Rotations c) (Zoom c)
    (Speed c) (SpriteIndex c) (SpriteName c) (Milliseconds c) (Scenario c).
Definition set_Y (c : TitleCommand) (v : Z) : TitleCommand :=
  mkTitleCommand (Type_ c) (SaveIndex c) (X c) v (Rotations c) (Zoom c)
    (Speed c) (SpriteIndex c) (SpriteName c) (Milliseconds c) (Scenario c).
Definition set_Rotations (c : TitleCommand) (v : Z) : TitleCommand :=
  mkTitleCommand (Type_ c) (SaveIndex c) (X c) (Y c) v (Zoom c) (Speed c)
    (SpriteIndex c) (SpriteName c) (Milliseconds c) (Scenario c).
Definition set_Zoom (c : TitleCommand) (v : Z) : TitleCommand :=
  mkTitleCommand (Type_ c) (SaveIndex c) (X c) (Y c) (Rotations c) v (Speed c)
    (SpriteIndex c) (SpriteName c) (Milliseconds c) (Scenario c).
Definition set_Speed (c : TitleCommand) (v : Z) : TitleCommand :=
  mkTitleCommand (Type_ c) (SaveIndex c) (X c) (Y c) (Rotations c) (Zoom c) v
    (SpriteIndex c) (SpriteName c) (Milliseconds c) (Scenario c).
Definition set_SpriteIndex (c : TitleCommand) (v : Z) : TitleCommand :=
  mkTitleCommand (Type_ c) (SaveIndex c) (X c) (Y c) (Rotations c) (Zoom c)
    (Speed c) v (SpriteName c) (Milliseconds c) (Scenario c).
Definition set_SpriteName (c : TitleCommand) (v : list ascii) : TitleCommand :=
  mkTitleCommand (Type_ c) (SaveIndex c) (X c) (Y c) (Rotations c) (Zoom c)
    (Speed c) (SpriteIndex c) v (Milliseconds c) (Scenario c).
Definition set_Milliseconds (c : TitleCommand) (v : Z) : TitleCommand :=
  mkTitleCommand (Type_ c) (SaveIndex c) (X c) (Y c) (Rotations c) (Zoom c)
    (Speed c) (SpriteIndex c) (SpriteName c) v (Scenario c).
Definition set_Scenario (c : TitleCommand) (v : list ascii) : TitleCommand :=
  mkTitleCommand (Type_ c) (SaveIndex c) (X c) (Y c) (Rotations c) (Zoom c)
    (Speed c) (SpriteIndex c) (SpriteName c) (Milliseconds c) v.

(** The commands that the reader makes, by their fields. *)
Definition Load_command (SaveIndex : Z) : TitleCommand :=
  set_SaveIndex (set_Type TitleCommand_zero TitleScript.Load) SaveIndex.
Definition End_command : TitleCommand :=
  set_Type TitleCommand_zero TitleScript.End.
Definition Speed_command (Speed : Z) : TitleCommand :=
  set_Speed (set_Type TitleCommand_zero TitleScript.Speed) Speed.
Definition Location_command (X Y : Z) : TitleCommand :=
  set_Y (set_X (set_Type TitleCommand_zero TitleScript.Location) X) Y.
Definition Rotate_command (Rotations : Z) : TitleCommand :=
  set_Rotations (set_Type TitleCommand_zero TitleScript.Rotate) Rotations.
Definition LoadSc_command (Scenario : list ascii) : TitleCommand :=
  set_Scenario (set_Type TitleCommand_zero TitleScript.LoadSc) Scenario.
Definition Zoom_command (Zoom : Z) : TitleCommand :=
  set_Zoom (set_Type TitleCommand_zero TitleScript.Zoom) Zoom.
Definition Follow_command (SpriteIndex : Z) (SpriteName : list ascii)
  : TitleCommand :=
  set_SpriteName
    (set_SpriteIndex (set_Type TitleCommand_zero TitleScript.Follow)
       SpriteIndex) SpriteName.
Definition Wait_command (Milliseconds : Z) : TitleCommand :=
  set_Milliseconds (set_Type TitleCommand_zero TitleScript.Wait) Milliseconds.
Definition Restart_command : TitleCommand :=
  set_Type TitleCommand_zero TitleScript.Restart.

(** Modelled from the spec: [SAVE_INDEX_INVALID] of [TitleSequence.h], which
    is not part of the sources; the spec has a reserved sentinel, the maximum
    representable value, and the reader stores a save index as a [uint8_t]. *)
Definition SAVE_INDEX_INVALID : Z := 255.

(** Modelled from the spec: [struct TitleSequence] of [TitleSequence.h], which
    is not part of the sources: a name, a storage location, the commands, the
    names of the saves and the flag of the backend. *)
Record TitleSequence : Type := mkTitleSequence {
  Name : list ascii;
  Path : list ascii;
  Commands : list TitleCommand;
  Saves : list (list ascii);
  IsZip : bool
}.

Definition set_Saves (seq : TitleSequence) (v : list (list ascii))
  : TitleSequence :=
  mkTitleSequence (Name seq) (Path seq) (Commands seq) v (IsZip seq).
Definition set_Commands (seq : TitleSequence) (v : list TitleCommand)
  : TitleSequence :=
  mkTitleSequence (Name seq) (Path seq) v (Saves seq) (IsZip seq).

(** ** The command decoder and the command encoder *)

Section Script.

(** The capacities of the [SpriteName] and [Scenario] fields are constants
    of headers that are not part of the sources; the reader and the writer
    are embedded for any value of them. *)
Variable USER_STRING_MAX_LENGTH : nat.
Variable TITLE_COMMAND_SCENARIO_LENGTH : nat.

(** The [for] loop of the [LOAD] case: the first save that equals [part1]
    without regard to case, from position [i] on; the position is stored
    through [static_cast<uint8_t>]. *)
Fixpoint LegacyScriptRead_save (part1 : list ascii)
    (saves : list (list ascii)) (i : nat) : Z :=
  match saves with
  | [] => SAVE_INDEX_INVALID
  | save :: saves' =>
      if String_Equals_ignoreCase part1 save
      then Z.of_nat i mod 256
      else LegacyScriptRead_save part1 saves' (S i)
  end.

(** The body of the [do] loop of [LegacyScriptRead] after the line has been
    read: the command of the three fields [token], [part1] and [part2]. *)
Definition LegacyScriptRead_command (token part1 part2 : list ascii)
    (saves : list (list ascii)) : TitleCommand :=
  let command := TitleCommand_zero in
  match token with
  | [] => command
  | _ :: _ =>
    if _stricmp token (str "LOAD") =? 0 then
      set_SaveIndex (set_Type command TitleScript.Load)
        (LegacyScriptRead_save part1 saves 0)
    else if _stricmp token (str "LOCATION") =? 0 then
      set_Y (set_X (set_Type command TitleScript.Location)
               (Z.land (atoi part1) 255))
        (Z.land (atoi part2) 255)
    else if _stricmp token (str "ROTATE") =? 0 then
      set_Rotations (set_Type command TitleScript.Rotate)
        (Z.land (atoi part1) 255)
    else if _stricmp token (str "ZOOM") =? 0 then
      set_Zoom (set_Type command TitleScript.Zoom)
        (Z.land (atoi part1) 255)
    else if _stricmp token (str "SPEED") =? 0 then
      set_Speed (set_Type command TitleScript.Speed)
        (Z.max 1 (Z.min 4 (Z.land (atoi part1) 255)))
    else if _stricmp token (str "FOLLOW") =? 0 then
      let command := set_SpriteIndex (set_Type command TitleScript.Follow)
                       (Z.land (atoi part1) 65535) in
      set_SpriteName command
        (safe_strcpy (SpriteName command) part2 USER_STRING_MAX_LENGTH)
    else if _stricmp token (str "WAIT") =? 0 then
      set_Milliseconds (set_Type command TitleScript.Wait)
        (Z.land (atoi part1) 65535)
    else if _stricmp token (str "RESTART") =? 0 then
      set_Type command TitleScript.Restart
    else if _stricmp token (str "END") =? 0 then
      set_Type command TitleScript.End
    else if _stricmp token (str "LOADSC") =? 0 then
      let command := set_Type command TitleScript.LoadSc in
      set_Scenario command
        (safe_strcpy (Scenario command) part1 TITLE_COMMAND_SCENARIO_LENGTH)
    else command
  end.

(** The [do ... while (fs.GetPosition() < fs.GetLength())] loop of
    [LegacyScriptRead]. [fs] is what is left of the stream; [parts] is the
    content of the local buffer when the iteration starts. Every iteration
    but the last shortens [fs] (lemma [LegacyScriptGetLine_shorter]), so
    [fuel] above the length of [fs] is never used up. *)
Fixpoint LegacyScriptRead_loop (fuel : nat) (fs : list ascii)
    (parts : buffer) (saves : list (list ascii)) : list TitleCommand :=
  match fuel with
  | O => []
  | S fuel' =>
      let '(parts', fs') := LegacyScriptGetLine fs parts in
      let command :=
        LegacyScriptRead_command (field parts' 0) (field parts' 1)
          (field parts' 2) saves in
      let commands :=
        if TitleScript.eqb (Type_ command) TitleScript.Undefined
        then [] else [command] in
      match fs' with
      | [] => commands
      | _ :: _ => commands ++ LegacyScriptRead_loop fuel' fs' parts' saves
      end
  end.

(** [LegacyScriptRead(script, saves)]; [uninitialised] is the content of
    [parts] before the first line is read. *)
Definition LegacyScriptRead (uninitialised : buffer) (script : list ascii)
    (saves : list (list ascii)) : list TitleCommand :=
  LegacyScriptRead_loop (S (length script)) script uninitialised saves.

(** The [switch] of [LegacyScriptWrite]: the text appended for one command,
    before the line terminator. *)
Definition LegacyScriptWrite_command (seq : TitleSequence)
    (command : TitleCommand) : list ascii :=
  match Type_ command with
  | TitleScript.Load =>
      if SaveIndex command <? Z.of_nat (length (Saves seq)) then
        str "LOAD "
        ++ c_str (default [] (Saves seq !! Z.to_nat (SaveIndex command)))
      else str "LOAD <No save file>"
  | TitleScript.LoadSc =>
      match c_str (Scenario command) with
      | [] => str "LOADSC <No scenario name>"
      | scenario => str "LOADSC " ++ scenario
      end
  | TitleScript.Undefined => []
  | TitleScript.Loop => []
  | TitleScript.EndLoop => []
  | TitleScript.Location =>
      String_Format 128
        (str "LOCATION " ++ utoa (X command) ++ str " " ++ utoa (Y command))
  | TitleScript.Rotate =>
      String_Format 128 (str "ROTATE " ++ utoa (Rotations command))
  | TitleScript.Zoom =>
      String_Format 128 (str "ZOOM " ++ utoa (Zoom command))
  | TitleScript.Follow =>
      String_Format 128
        (str "FOLLOW " ++ utoa (SpriteIndex command) ++ str " ")
      ++ c_str (SpriteName command)
  | TitleScript.Speed =>
      String_Format 128 (str "SPEED " ++ utoa (Speed command))
  | TitleScript.Wait =>
      String_Format 128 (str "WAIT " ++ utoa (Milliseconds command))
  | TitleScript.Restart => str "RESTART"
  | TitleScript.End => str "END"
  end.

(** The [for] loop of [LegacyScriptWrite]. *)
Fixpoint LegacyScriptWrite_commands (seq : TitleSequence)
    (commands : list TitleCommand) : list ascii :=
  match commands with
  | [] => []
  | command :: commands' =>
      LegacyScriptWrite_command seq command ++ [LF]
      ++ LegacyScriptWrite_commands seq commands'
  end.

(** [LegacyScriptWrite(seq)]; the result is the C string of the builder's
    buffer. *)
Definition LegacyScriptWrite (seq : TitleSequence) : list ascii :=
  c_str (str "# SCRIPT FOR " ++ c_str (Name seq) ++ [LF]
        ++ LegacyScriptWrite_commands seq (Commands seq)).

End Script.

(** ** The backend and the operations on the list of saves *)

(** What the calls into the file system and the zip archive answer during one
    operation. [IZipArchive::RenameFile] and [IZipArchive::DeleteFile] are
    called outside any [try] block and are taken to return. *)
Record Backend : Type := mkBackend {
  Zip_TryOpen : bool;        (** [Zip::TryOpen] returns an archive, not [nullptr] *)
  File_ReadAllBytes : bool;  (** [File::ReadAllBytes] returns, does not throw *)
  Zip_SetFileData : bool;    (** [IZipArchive::SetFileData] returns, does not throw *)
  File_Copy : bool;          (** the result of [File::Copy] *)
  File_Move : bool;          (** the result of [File::Move] *)
  File_Delete : bool;        (** the result of [File::Delete] *)
  FileStream_open : bool     (** the [FileStream] constructor returns, does not throw *)
}.

(** What [TitleSequenceGetParkHandle] comes to: no handle ([nullptr]), a
    handle with its [HintPath], or a read of [seq.Saves[index]] past the end of
    the vector, which C++ leaves undefined. *)
Inductive ParkHandleResult : Type :=
| NoHandle
| Handle (HintPath : list ascii)
| OutOfRangeRead.

Definition TitleSequenceGetParkHandle (io : Backend) (seq : TitleSequence)
    (index : nat) : ParkHandleResult :=
  if (index <=? length (Saves seq))%nat then
    match Saves seq !! index with
    | None => OutOfRangeRead
    | Some filename =>
        if IsZip seq then
          if Zip_TryOpen io then Handle filename else NoHandle
        else
          if FileStream_open io then Handle filename else NoHandle
    end
  else NoHandle.

(** [std::find(first, last, value) == last] on a vector of strings, the value
    a C string. *)
Fixpoint std_find_is_end (saves : list (list ascii)) (value : list ascii)
  : bool :=
  match saves with
  | [] => true
  | save :: saves' =>
      if bool_decide (save = value) then false
      else std_find_is_end saves' value
  end.

(** [TitleSequenceAddPark(seq, path, name)]: the result and the sequence
    after the call. *)
Definition TitleSequenceAddPark (io : Backend) (seq : TitleSequence)
    (path name : list ascii) : bool * TitleSequence :=
  let seq :=
    if std_find_is_end (Saves seq) path
    then set_Saves seq (Saves seq ++ [name]) else seq in
  if IsZip seq then
    if File_ReadAllBytes io then
      if Zip_TryOpen io then
        if Zip_SetFileData io then (true, seq)
        else (* the exception is caught and reported *) (true, seq)
      else (false, seq)
    else (* the exception is caught and reported *) (true, seq)
  else
    if File_Copy io then (true, seq) else (false, seq).

(** [TitleSequenceRenamePark(seq, index, name)]: [None] when [Guard::Assert]
    fails, else the result and the sequence after the call. *)
Definition TitleSequenceRenamePark (io : Backend) (seq : TitleSequence)
    (index : nat) (name : list ascii) : option (bool * TitleSequence) :=
  if (index <? length (Saves seq))%nat then
    let renamed := if IsZip seq then Zip_TryOpen io else File_Move io in
    if renamed
    then Some (true, set_Saves seq (<[index := name]> (Saves seq)))
    else Some (false, seq)
  else None.

(** [command.SaveIndex--] on a [uint8_t]. *)
Definition uint8_decrement (v : Z) : Z := (v - 1) mod 256.

(** The body of the [for (auto& command : seq.Commands)] loop of
    [TitleSequenceRemovePark]: the command after the update. *)
Definition TitleSequenceRemovePark_command (command : TitleCommand)
    (index : nat) : TitleCommand :=
  if TitleScript.eqb (Type_ command) TitleScript.Load then
    if SaveIndex command =? Z.of_nat index then
      set_SaveIndex command SAVE_INDEX_INVALID
    else if SaveIndex command >? Z.of_nat index then
      set_SaveIndex command (uint8_decrement (SaveIndex command))
    else command
  else command.

(** The loop itself, over all the commands in order. *)
Fixpoint TitleSequenceRemovePark_commands (commands : list TitleCommand)
    (index : nat) : list TitleCommand :=
  match commands with
  | [] => []
  | command :: commands' =>
      TitleSequenceRemovePark_command command index
      :: TitleSequenceRemovePark_commands commands' index
  end.

(** [TitleSequenceRemovePark(seq, index)]: [None] when [Guard::Assert] fails,
    else the result and the sequence after the call. *)
Definition TitleSequenceRemovePark (io : Backend) (seq : TitleSequence)
    (index : nat) : option (bool * TitleSequence) :=
  if (index <? length (Saves seq))%nat then
    let deleted := if IsZip seq then Zip_TryOpen io else File_Delete io in
    if deleted then
      let seq := set_Saves seq (delete index (Saves seq)) in
      Some (true,
            set_Commands seq
              (TitleSequenceRemovePark_commands (Commands seq) index))
    else Some (false, seq)
  else None.

(** [TitleSequenceIsLoadCommand(command)]. *)
Definition TitleSequenceIsLoadCommand (command : TitleCommand) : bool :=
  match Type_ command with
  | TitleScript.Load | TitleScript.LoadSc => true
  | _ => false
  end.

(** The invariant of the data model: the save index of every [Load] command
    is the sentinel or a position of the list of saves. *)
Definition load_index_ok (saves : list (list ascii)) (command : TitleCommand)
  : bool :=
  negb (TitleScript.eqb (Type_ command) TitleScript.Load)
  || (SaveIndex command =? SAVE_INDEX_INVALID)
  || ((0 <=? SaveIndex command)
      && (SaveIndex command <? Z.of_nat (length saves))).

Definition load_indices_ok (seq : TitleSequence) : bool :=
  forallb (load_index_ok (Saves seq)) (Commands seq).

(** ** The fields of a line, as texts

    [fields_loop] is [LegacyScriptGetLine_loop] with the buffer replaced by
    what it holds: the fields that are closed, in order, and the characters
    of the field being filled. [part] is the number of closed fields and
    [cindex] the length of the current one. Lemma [LegacyScriptGetLine_fields]
    relates the two. *)
Fixpoint fields_loop (stream : list ascii) (closed : list (list ascii))
    (cur : list ascii) (whitespace comment load sprite : bool)
    {struct stream} : list (list ascii) * list ascii :=
  if (length closed <? 3)%nat then
    match stream with
    | [] => (closed ++ [cur], [])
    | c :: stream' =>
        if (c =? LF)%char || (c =? CR)%char then (closed ++ [cur], stream')
        else if (c =? "#")%char then
          fields_loop stream' closed cur whitespace true load sprite
        else if (c =? " ")%char && negb comment && negb load
                && (negb sprite || negb (length closed =? 2)%nat) then
          if negb whitespace then
            let is_load :=
              (length closed =? 0)%nat
              && (((length cur =? 4)%nat
                   && (_strnicmp (c_str cur) (str "LOAD") 4 =? 0))
                  || ((length cur =? 6)%nat
                      && (_strnicmp (c_str cur) (str "LOADSC") 6 =? 0))) in
            let is_sprite :=
              negb is_load && (length closed =? 0)%nat
              && (length cur =? 6)%nat
              && (_strnicmp (c_str cur) (str "FOLLOW") 6 =? 0) in
            fields_loop stream' (closed ++ [cur]) [] whitespace comment
              (load || is_load) (sprite || is_sprite)
          else fields_loop stream' closed cur whitespace comment load sprite
        else if negb comment then
          if (length cur <? 127)%nat then
            fields_loop stream' closed (cur ++ [c]) false comment load sprite
          else
            fields_loop stream' (closed ++ [cur]) [] false comment load sprite
        else fields_loop stream' closed cur whitespace comment load sprite
    end
  else (closed, stream).

Definition tokenize (stream : list ascii) : list (list ascii) * list ascii :=
  fields_loop stream [] [] true false false false.

(** Field [k] of a tokenized line, read as a C string. *)
Definition field_of (fields : list (list ascii)) (k : nat) : list ascii :=
  c_str (nth k fields []).

(** The lowest position of [saves] whose entry equals [part1] without regard
    to case, if there is one; this follows the words of the spec for the
    lookup of a [LOAD] argument. *)
Fixpoint lowest_match (part1 : list ascii) (saves : list (list ascii))
  : option nat :=
  match saves with
  | [] => None
  | save :: saves' =>
      if String_Equals_ignoreCase part1 save then Some O
      else S <$> lowest_match part1 saves'
  end.

(** A text that a line can carry in one field: no NUL, no line end and no
    comment sign. *)
Definition line_char (c : ascii) : bool :=
  negb ((c =? NUL)%char || (c =? LF)%char || (c =? CR)%char || (c =? "#")%char).

Definition line_text (s : list ascii) : bool := forallb line_char s.

(** A text without a space, as a field of a line that is split at spaces. *)
Definition word_text (s : list ascii) : bool :=
  forallb (fun c => line_char c && negb (c =? " ")%char) s.

(** The flags that the first space after the first field sets, from the
    characters of that field. *)
Definition load_flag (first : list ascii) : bool :=
  ((length first =? 4)%nat && (_strnicmp (c_str first) (str "LOAD") 4 =? 0))
  || ((length first =? 6)%nat
      && (_strnicmp (c_str first) (str "LOADSC") 6 =? 0)).

Definition sprite_flag (first : list ascii) : bool :=
  negb (load_flag first) && (length first =? 6)%nat
  && (_strnicmp (c_str first) (str "FOLLOW") 6 =? 0).

(** The texts that fill a field without closing it: any text of a line where
    spaces do not split, a text without a space where they do. *)
Definition field_text (spaces : bool) (s : list ascii) : bool :=
  if spaces then line_text s else word_text s.

(** A character that the tokenizer stores: not a line end and not the comment
    sign. *)
Definition stored_char (c : ascii) : bool :=
  negb ((c =? LF)%char || (c =? CR)%char || (c =? "#")%char).

Definition stored_field (f : list ascii) : bool :=
  (length f <=? 127)%nat && forallb stored_char f.

(** A text without a line end. *)
Definition no_line_end (s : list ascii) : bool :=
  forallb (fun c => negb ((c =? LF)%char || (c =? CR)%char)) s.

(** A text without NUL. *)
Definition no_NUL (s : list ascii) : bool :=
  forallb (fun c => negb (c =? NUL)%char) s.

(** A command that is not a [LoadSc] without the name of a scenario. *)
Definition scenario_named (command : TitleCommand) : bool :=
  negb (TitleScript.eqb (Type_ command) TitleScript.LoadSc)
  || match Scenario command with [] => false | _ :: _ => true end.

(** The reader and the writer on the fields of a line. *)

Section Lines.

Variable USER_STRING_MAX_LENGTH : nat.
Variable TITLE_COMMAND_SCENARIO_LENGTH : nat.

(** The commands that one line contributes to the result of the reader: none
    for [Undefined]. *)
Definition line_commands (fields : list (list ascii))
    (saves : list (list ascii)) : list TitleCommand :=
  let command :=
    LegacyScriptRead_command USER_STRING_MAX_LENGTH
      TITLE_COMMAND_SCENARIO_LENGTH (field_of fields 0) (field_of fields 1)
      (field_of fields 2) saves in
  if TitleScript.eqb (Type_ command) TitleScript.Undefined
  then [] else [command].

(** What a written line reads back to: the rest of the stream is left, and
    the fields decode to the command. *)
Definition reads_back (seq : TitleSequence) (command : TitleCommand) : Prop :=
  ∀ rest,
    ∃ fields,
      tokenize (LegacyScriptWrite_command seq command ++ LF :: rest)
      = (fields, rest)
      ∧ line_commands fields (Saves seq) = [command].

End Lines.

(** The commands that the reader makes from the fields of a line, for the
    capacities [user] of [SpriteName] and [scenario] of [Scenario]. *)
Inductive decoded (user scenario : nat) (saves : list (list ascii))
  : TitleCommand -> Prop :=
| decoded_Load part1 :
    line_text part1 = true -> (length part1 <= 127)%nat ->
    decoded user scenario saves
      (Load_command (LegacyScriptRead_save part1 saves 0))
| decoded_Location x y :
    0 <= x < 256 -> 0 <= y < 256 ->
    decoded user scenario saves (Location_command x y)
| decoded_Rotate n :
    0 <= n < 256 -> decoded user scenario saves (Rotate_command n)
| decoded_Zoom n :
    0 <= n < 256 -> decoded user scenario saves (Zoom_command n)
| decoded_Speed n :
    1 <= n <= 4 -> decoded user scenario saves (Speed_command n)
| decoded_Follow n part2 :
    0 <= n < 65536 -> line_text part2 = true -> (length part2 <= 127)%nat ->
    decoded user scenario saves
      (Follow_command n (safe_strcpy [] part2 user))
| decoded_Wait n :
    0 <= n < 65536 -> decoded user scenario saves (Wait_command n)
| decoded_Restart : decoded user scenario saves Restart_command
| decoded_End : decoded user scenario saves End_command
| decoded_LoadSc part1 :
    line_text part1 = true -> (length part1 <= 127)%nat ->
    decoded user scenario saves
      (LoadSc_command (safe_strcpy [] part1 scenario)).

(** ** The buffer and the fields it holds *)

(** [holds m off l]: the characters of [l] are in [m] from [off] on. *)
Definition holds (m : buffer) (off : nat) (l : list ascii) : Prop :=
  ∀ (i : nat) (c : ascii), l !! i = Some c -> m (off + i)%nat = c.

(** [closed_at m k f]: field [k] of [m] holds [f] and its terminator. *)
Definition closed_at (m : buffer) (k : nat) (f : list ascii) : Prop :=
  holds m (k * 128) f ∧ m (k * 128 + length f)%nat = NUL
  ∧ (length f <= 127)%nat.

(** The buffer during the loop: the closed fields, the field being filled,
    and the empty fields after it. *)
Record Rep (m : buffer) (closed : list (list ascii)) (cur : list ascii)
  : Prop := mkRep {
  rep_len : (length closed <= 3)%nat;
  rep_closed : ∀ k f, closed !! k = Some f -> closed_at m k f;
  rep_cur : holds m (length closed * 128) cur;
  rep_cur_len : (length cur <= 127)%nat;
  rep_rest : ∀ k, (length closed < k < 3)%nat -> m (k * 128)%nat = NUL
}.

(** The buffer when the loop has returned. *)
Record Fin (m : buffer) (fields : list (list ascii)) : Prop := mkFin {
  fin_len : (length fields <= 3)%nat;
  fin_closed : ∀ k f, fields !! k = Some f -> closed_at m k f;
  fin_rest : ∀ k, (length fields <= k < 3)%nat -> m (k * 128)%nat = NUL
}.

(** ** Numbers, in the words of the spec *)

(** A text that does not go on with a digit. *)
Definition no_leading_digit (rest : list ascii) : bool :=
  match rest with
  | [] => true
  | c :: _ => negb (isdigit c)
  end.

(** A text that starts with no number: it is empty, or it starts with a
    character that is no white space and no digit, and a sign at its start
    is not followed by a digit. *)
Definition no_number (rest : list ascii) : bool :=
  match rest with
  | [] => true
  | c :: rest' =>
      negb (isspace c)
      && (if (c =? "-")%char || (c =? "+")%char
          then no_leading_digit rest' else negb (isdigit c))
  end.

(** [number_text s v]: by the rule of the leading digits, the text [s] shows
    the number [v]: after white space and an optional sign come decimal
    digits, with any number of leading zeros, and [v] is their value with
    the sign, whatever follows the digits; or no number starts there, and
    [v] is 0. The digits are those of [utoa], the text of [%u]. *)
Inductive number_text : list ascii -> Z -> Prop :=
| number_digits (ws sg : list ascii) (zeros : nat) (n : Z)
    (rest : list ascii) :
    forallb isspace ws = true ->
    sg ∈ [[]; str "+"; str "-"] ->
    0 <= n ->
    no_leading_digit rest = true ->
    number_text (ws ++ sg ++ repeat "0"%char zeros ++ utoa n ++ rest)
      (if bool_decide (sg = str "-") then - n else n)
| number_none (ws rest : list ascii) :
    forallb isspace ws = true ->
    no_number rest = true ->
    number_text (ws ++ rest) 0.

(** A number [v] masked to [bits] bits, as the reader stores it: the low
    bits of [v] when [v] is within the range of [long]; for a number beyond
    that range the low bits of the bound on its side, which are all ones
    above and all zeros below. *)
Definition masked (bits v : Z) : Z :=
  if LONG_MAX <? v then 2 ^ bits - 1
  else if v <? LONG_MIN then 0
  else v mod 2 ^ bits.

(** ** The fields of a line, together *)

(** The three fields that [LegacyScriptGetLine] leaves for a stream, and
    the bytes that it leaves in the stream. *)
Definition line_fields (stream : list ascii) (parts : buffer)
  : list ascii * list ascii * list ascii * list ascii :=
  let result := LegacyScriptGetLine stream parts in
  (field result.1 0, field result.1 1, field result.1 2, result.2).

(** ** Predicates of the further properties *)

(** A text that ends the line in every state of the loop, leaving [r]. *)
Definition ends_line (t r : list ascii) : Prop :=
  ∀ closed cur ws cm ld sp,
    (length closed < 3)%nat ->
    fields_loop t closed cur ws cm ld sp = (closed ++ [cur], r).

(** A command as the reader makes them, for the capacities [user] of
    [SpriteName] and [scenario] of [Scenario]: one of the ten types of the
    script, with the fields of its type in the range of their masks, the
    texts within their capacity and without NUL, line end or comment sign,
    and the fields of the other types zero. *)
Definition read_command_ok (user scenario : nat) (command : TitleCommand)
  : Prop :=
  match Type_ command with
  | TitleScript.Undefined | TitleScript.Loop | TitleScript.EndLoop => False
  | TitleScript.Load =>
      0 <= SaveIndex command < 256
      ∧ command = Load_command (SaveIndex command)
  | TitleScript.Location =>
      0 <= X command < 256 ∧ 0 <= Y command < 256
      ∧ command = Location_command (X command) (Y command)
  | TitleScript.Rotate =>
      0 <= Rotations command < 256
      ∧ command = Rotate_command (Rotations command)
  | TitleScript.Zoom =>
      0 <= Zoom command < 256 ∧ command = Zoom_command (Zoom command)
  | TitleScript.Speed =>
      1 <= Speed command <= 4 ∧ command = Speed_command (Speed command)
  | TitleScript.Follow =>
      0 <= SpriteIndex command < 65536
      ∧ line_text (SpriteName command) = true
      ∧ (length (SpriteName command) <= user - 1)%nat
      ∧ command = Follow_command (SpriteIndex command) (SpriteName command)
  | TitleScript.Wait =>
      0 <= Milliseconds command < 65536
      ∧ command = Wait_command (Milliseconds command)
  | TitleScript.Restart => command = Restart_command
  | TitleScript.End => command = End_command
  | TitleScript.LoadSc =>
      line_text (Scenario command) = true
      ∧ (length (Scenario command) <= scenario - 1)%nat
      ∧ command = LoadSc_command (Scenario command)
  end.

(** A command as the reader makes them, for the capacities [user] of
    [SpriteName] and [scenario] of [Scenario]: one of the ten types of the
    script, with the numbers of its type within their 8 or 16 bits, the
    speed within 1..4, and the text of its type within its capacity and
    without NUL, line end or comment sign. Nothing is said of the fields of
    the other types. *)
Definition read_command_in_range (user scenario : nat)
    (command : TitleCommand) : Prop :=
  match Type_ command with
  | TitleScript.Undefined | TitleScript.Loop | TitleScript.EndLoop => False
  | TitleScript.Load => 0 <= SaveIndex command < 256
  | TitleScript.Location => 0 <= X command < 256 ∧ 0 <= Y command < 256
  | TitleScript.Rotate => 0 <= Rotations command < 256
  | TitleScript.Zoom => 0 <= Zoom command < 256
  | TitleScript.Speed => 1 <= Speed command <= 4
  | TitleScript.Follow =>
      0 <= SpriteIndex command < 65536
      ∧ line_text (SpriteName command) = true
      ∧ (length (SpriteName command) <= user - 1)%nat
  | TitleScript.Wait => 0 <= Milliseconds command < 65536
  | TitleScript.Restart | TitleScript.End => True
  | TitleScript.LoadSc =>
      line_text (Scenario command) = true
      ∧ (length (Scenario command) <= scenario - 1)%nat
  end.

(** The save that a [Load] command refers to: the entry of the list of saves
    at its save index, if there is one. *)
Definition load_target (saves : list (list ascii)) (command : TitleCommand)
  : option (list ascii) :=
  if (0 <=? SaveIndex command) then saves !! Z.to_nat (SaveIndex command)
  else None.

(** A command that the writer turns into an empty line. *)
Definition inert (command : TitleCommand) : bool :=
  match Type_ command with
  | TitleScript.Undefined | TitleScript.Loop | TitleScript.EndLoop => true
  | _ => false
  end.

(** ** Loading and saving a sequence *)

(** An archive that is open for reading, as [LoadTitleSequence] and
    [GetSaves] use it: the number of its files, the name of the file at a
    position and the bytes that it gives for a name. [IZipArchive] belongs
    to [core/Zip.h], which is not part of the sources; its three functions
    are taken as they come. *)
Record IZipArchive : Type := mkIZipArchive {
  GetNumFiles : nat;
  GetFileName : nat -> list ascii;
  GetFileData : list ascii -> list ascii
}.

Module Platform.
(** The functions of [core/Path.hpp], [core/Zip.h], [core/FileStream.h] and
    [core/FileScanner.h] that [LoadTitleSequence] and [TitleSequenceSave]
    call. They are not part of the sources and are taken as parameters:
    [Zip_TryOpen] is [None] for [nullptr]; [FileStream] is the content of the
    file that is opened and read, [None] when opening or reading throws;
    [ScanDirectory] is the list of the relative paths that the scanner
    yields, in order. *)
Record t : Type := mk {
  GetExtension : list ascii -> list ascii;
  GetFileNameWithoutExtension : list ascii -> list ascii;
  Combine : list ascii -> list ascii -> list ascii;
  Zip_TryOpen : list ascii -> option IZipArchive;
  FileStream : list ascii -> option (list ascii);
  ScanDirectory : list ascii -> bool -> list (list ascii)
}.
End Platform.

(** Modelled from the spec: [String::Equals(a, b)] of [core/String.cpp],
    which is not part of the sources, as the equality of the two texts; the
    spec has the backend detected by the nature of the stored path. *)
Definition String_Equals (a b : list ascii) : bool := bool_decide (a = b).

(** [CreateTitleSequence()]: [std::make_unique<TitleSequence>()]
    value-initialises the sequence, so its texts and lists are empty and
    its flag is [false]. *)
Definition CreateTitleSequence : TitleSequence :=
  mkTitleSequence [] [] [] [] false.

Definition set_Name (seq : TitleSequence) (v : list ascii) : TitleSequence :=
  mkTitleSequence v (Path seq) (Commands seq) (Saves seq) (IsZip seq).
Definition set_Path (seq : TitleSequence) (v : list ascii) : TitleSequence :=
  mkTitleSequence (Name seq) v (Commands seq) (Saves seq) (IsZip seq).
Definition set_IsZip (seq : TitleSequence) (v : bool) : TitleSequence :=
  mkTitleSequence (Name seq) (Path seq) (Commands seq) (Saves seq) v.

(** [GetSaves(const std::string& directory)]. *)
Definition GetSaves_directory (p : Platform.t) (directory : list ascii)
  : list (list ascii) :=
  let pattern :=
    Platform.Combine p directory (str "*.sc6;*.sv6;*.park;*.sv4;*.sc4") in
  Platform.ScanDirectory p pattern true.

(** The test of [GetSaves(IZipArchive* zip)] on the extension of a name. *)
Definition GetSaves_zip_test (ext : list ascii) : bool :=
  String_Equals_ignoreCase ext (str ".sv6")
  || String_Equals_ignoreCase ext (str ".sc6")
  || String_Equals_ignoreCase ext (str ".park").

(** The [for] loop of [GetSaves(IZipArchive* zip)], from position [i], for
    [count] more positions. *)
Fixpoint GetSaves_zip_loop (p : Platform.t) (zip : IZipArchive)
    (i count : nat) : list (list ascii) :=
  match count with
  | O => []
  | S count' =>
      let name := GetFileName zip i in
      let ext := Platform.GetExtension p name in
      (if GetSaves_zip_test ext then [name] else [])
      ++ GetSaves_zip_loop p zip (S i) count'
  end.

(** [GetSaves(IZipArchive* zip)]. *)
Definition GetSaves_zip (p : Platform.t) (zip : IZipArchive)
  : list (list ascii) :=
  GetSaves_zip_loop p zip 0 (GetNumFiles zip).

(** [ReadScriptFile(path)]: the bytes of the file, none when an exception
    is caught. *)
Definition ReadScriptFile (p : Platform.t) (path : list ascii) : list ascii :=
  match Platform.FileStream p path with
  | Some result => result
  | None => []
  end.

(** What [TitleSequenceSave] needs of the backend: [Zip::Open],
    [IZipArchive::SetFileData] and [File::WriteAllBytes] return, and do not
    throw. *)
Record SaveBackend : Type := mkSaveBackend {
  Zip_Open : bool;
  SetFileData : bool;
  File_WriteAllBytes : bool
}.

(** What a call of [TitleSequenceSave] has written: the data of a file of
    an archive, or the bytes of a file. *)
Inductive Written : Type :=
| ZipFileData (archive name data : list ascii)
| FileBytes (path data : list ascii).

(** [TitleSequenceSave(seq)]: the result, and what was written when no
    call threw. *)
Definition TitleSequenceSave (p : Platform.t) (io : SaveBackend)
    (seq : TitleSequence) : bool * option Written :=
  let script := LegacyScriptWrite seq in
  if IsZip seq then
    let fdata := script in
    if Zip_Open io then
      if SetFileData io
      then (true, Some (ZipFileData (Path seq) (str "script.txt") fdata))
      else (false, None)
    else (false, None)
  else
    let scriptPath := Platform.Combine p (Path seq) (str "script.txt") in
    if File_WriteAllBytes io
    then (true, Some (FileBytes scriptPath script))
    else (false, None).

Section Load.

Variable USER_STRING_MAX_LENGTH : nat.
Variable TITLE_COMMAND_SCENARIO_LENGTH : nat.

(** The extension of a sequence that is an archive, a constant of
    [TitleSequence.h], which is not part of the sources. *)
Variable TITLE_SEQUENCE_EXTENSION : list ascii.

(** [LoadTitleSequence(path)]: [None] for [nullptr]; [uninitialised] is the
    content of the buffer of [LegacyScriptRead] before its first line. *)
Definition LoadTitleSequence (p : Platform.t) (uninitialised : buffer)
    (path : list ascii) : option TitleSequence :=
  let ext := Platform.GetExtension p path in
  let loaded :=
    if String_Equals ext TITLE_SEQUENCE_EXTENSION then
      match Platform.Zip_TryOpen p path with
      | None => None
      | Some zip =>
          match GetFileData zip (str "script.txt") with
          | [] => None
          | script => Some (script, GetSaves_zip p zip, true)
          end
      end
    else
      let scriptPath := Platform.Combine p path (str "script.txt") in
      match ReadScriptFile p scriptPath with
      | [] => None
      | script => Some (script, GetSaves_directory p path, false)
      end in
  match loaded with
  | None => None
  | Some (script, saves, isZip) =>
      let commands :=
        LegacyScriptRead USER_STRING_MAX_LENGTH TITLE_COMMAND_SCENARIO_LENGTH
          uninitialised script saves in
      let seq := CreateTitleSequence in
      let seq := set_Name seq (Platform.GetFileNameWithoutExtension p path) in
      let seq := set_Path seq path in
      let seq := set_Saves seq saves in
      let seq := set_Commands seq commands in
      let seq := set_IsZip seq isZip in
      Some seq
  end.

(** The platform serves what a call of [TitleSequenceSave] on [seq] has
    written, and lists the saves of [seq]. *)
Definition serves (p : Platform.t) (seq : TitleSequence) (written : Written)
  : Prop :=
  match written with
  | ZipFileData archive name data =>
      String_Equals (Platform.GetExtension p archive)
        TITLE_SEQUENCE_EXTENSION = true
      ∧ ∃ zip, Platform.Zip_TryOpen p archive = Some zip
               ∧ GetFileData zip name = data
               ∧ GetSaves_zip p zip = Saves seq
  | FileBytes path data =>
      String_Equals (Platform.GetExtension p (Path seq))
        TITLE_SEQUENCE_EXTENSION = false
      ∧ Platform.FileStream p path = Some data
      ∧ GetSaves_directory p (Path seq) = Saves seq
  end.

End Load.

(** ** Values for the examples *)

(** A buffer content for the examples; lemma [LegacyScriptRead_uninitialised]
    shows that the reader does not depend on it. *)
Definition stale : buffer := fun _ => "?"%char.

(** An answer of the backend where every call succeeds, and a sequence for
    the examples. *)
Definition io_ok : Backend := mkBackend true true true true true true true.

Definition example_seq : TitleSequence :=
  mkTitleSequence (str "demo") (str "/seq/demo")
    [Load_command 0; Load_command 1; Load_command 2; End_command]
    [str "a.sv6"; str "b.sv6"; str "c.sv6"] false.

(** A platform for the examples: a directory that holds the script of
    [example_seq] and its saves. *)
Definition example_platform : Platform.t :=
  Platform.mk (fun _ => []) (fun _ => str "demo")
    (fun a b => a ++ "/"%char :: b) (fun _ => None)
    (fun _ => Some (LegacyScriptWrite example_seq))
    (fun _ _ => Saves example_seq).

(** * Proofs *)

(** ** The operations on the list of saves *)

Lemma TitleSequenceRemovePark_commands_length commands index :
  length (TitleSequenceRemovePark_commands commands index) = length commands.
Proof. induction commands as [|c cs IH]; simpl; [done | by rewrite IH]. Qed.

Lemma TitleSequenceRemovePark_commands_lookup commands index k :
  TitleSequenceRemovePark_commands commands index !! k
  = (fun c => TitleSequenceRemovePark_command c index) <$> (commands !! k).
Proof.
  revert k; induction commands as [|c cs IH]; intros [|k]; simpl; auto.
Qed.

Lemma TitleSequenceRemovePark_success io seq index seq' :
  TitleSequenceRemovePark io seq index = Some (true, seq') ->
  (index < length (Saves seq))%nat
  ∧ Saves seq' = delete index (Saves seq)
  ∧ Commands seq' = TitleSequenceRemovePark_commands (Commands seq) index.
Proof.
  unfold TitleSequenceRemovePark.
  destruct (Nat.ltb_spec index (length (Saves seq))); [|done].
  destruct (if IsZip seq then Zip_TryOpen io else File_Delete io); [|done].
  intros [= <-]; simpl; auto.
Qed.

(** C1: after [TitleSequenceRemovePark(seq, index)] has succeeded, the command
    at every position is the one that was there, except that a [Load] command
    with save index [j] has the sentinel for [j = index] and [j - 1] for
    [j > index]; a [Load] command with [j < index] and every command of
    another type are unchanged, and so are all the other fields. *)
Theorem TitleSequenceRemovePark_index_shift
    (io : Backend) (seq seq' : TitleSequence) (index : nat) :
  Forall (fun c => 0 <= SaveIndex c < 256) (Commands seq) ->
  TitleSequenceRemovePark io seq index = Some (true, seq') ->
  length (Commands seq') = length (Commands seq)
  ∧ ∀ (k : nat) (c : TitleCommand), Commands seq !! k = Some c ->
      Commands seq' !! k
      = Some (match Type_ c with
              | TitleScript.Load =>
                  if SaveIndex c =? Z.of_nat index
                  then set_SaveIndex c SAVE_INDEX_INVALID
                  else if Z.of_nat index <? SaveIndex c
                       then set_SaveIndex c (SaveIndex c - 1)
                       else c
              | _ => c
              end).
Proof.
  intros Hrange Hok.
  apply TitleSequenceRemovePark_success in Hok as (_ & _ & ->).
  split; [apply TitleSequenceRemovePark_commands_length|].
  intros k c Hk.
  rewrite TitleSequenceRemovePark_commands_lookup, Hk; simpl.
  rewrite Forall_lookup in Hrange. specialize (Hrange k c Hk).
  unfold TitleSequenceRemovePark_command.
  destruct (Type_ c) eqn:Hty; simpl; try done.
  destruct (Z.eqb_spec (SaveIndex c) (Z.of_nat index)); [done|].
  rewrite Z.gtb_ltb.
  destruct (Z.ltb_spec (Z.of_nat index) (SaveIndex c)); [|done].
  unfold uint8_decrement. rewrite Z.mod_small by lia. done.
Qed.

(** Removing the second of three saves: the [Load] of the third save now
    loads position 1. *)
Lemma TitleSequenceRemovePark_index_shift_witness :
  Commands
    (set_Commands (set_Saves example_seq [str "a.sv6"; str "c.sv6"])
       [Load_command 0; Load_command SAVE_INDEX_INVALID; Load_command 1;
        End_command])
  !! 2%nat
  = Some (Load_command 1).
Proof.
  refine (proj2 (TitleSequenceRemovePark_index_shift io_ok example_seq _ 1
                   _ _) 2%nat (Load_command 2) _).
  - repeat constructor; simpl; lia.
  - reflexivity.
  - reflexivity.
Defined.

(** Without a sentinel among the [Load] commands, the removal keeps the
    invariant of the data model. *)
Lemma TitleSequenceRemovePark_keeps_valid io seq index seq' :
  Forall (fun c => Type_ c = TitleScript.Load ->
                   0 <= SaveIndex c < Z.of_nat (length (Saves seq)))
    (Commands seq) ->
  Forall (fun c => 0 <= SaveIndex c < 256) (Commands seq) ->
  TitleSequenceRemovePark io seq index = Some (true, seq') ->
  load_indices_ok seq' = true.
Proof.
  intros Hvalid Hrange Hok.
  apply TitleSequenceRemovePark_success in Hok as (Hi & Hs & Hc).
  unfold load_indices_ok. rewrite Hs, Hc. clear Hs Hc.
  assert (Hlen : (length (delete index (Saves seq)) = length (Saves seq) - 1)%nat).
  { rewrite length_delete; [done|]. by apply lookup_lt_is_Some_2. }
  induction (Commands seq) as [|c cs IH]; simpl; [done|].
  inversion Hvalid as [|? ? Hv Hvs]; inversion Hrange as [|? ? Hr Hrs]; subst.
  rewrite IH by done. rewrite andb_true_r.
  unfold TitleSequenceRemovePark_command, load_index_ok, uint8_decrement.
  rewrite Hlen. clear Hlen IH.
  destruct (Type_ c) eqn:Hty; simpl; rewrite ?Hty; simpl; try done.
  specialize (Hv eq_refl). cbv beta in Hr.
  destruct (Z.eqb_spec (SaveIndex c) (Z.of_nat index)); simpl; [by rewrite Hty|].
  rewrite Z.gtb_ltb.
  destruct (Z.ltb_spec (Z.of_nat index) (SaveIndex c)); simpl; rewrite Hty; simpl.
  - rewrite Z.mod_small by lia.
    apply orb_true_iff; right.
    apply andb_true_iff; split; [apply Z.leb_le | apply Z.ltb_lt]; lia.
  - apply orb_true_iff; right.
    apply andb_true_iff; split; [apply Z.leb_le | apply Z.ltb_lt]; lia.
Qed.

(** C2: the removal does not restore the invariant when a [Load] command
    already holds the sentinel: with one save and the command list
    [Load{SAVE_INDEX_INVALID}], which is what the script [LOAD missing.sv6]
    decodes to, removing save 0 succeeds and leaves [Load{254}], which is
    neither the sentinel nor a position of the (empty) list of saves. *)
Theorem TitleSequenceRemovePark_sentinel_decremented :
  let seq :=
    mkTitleSequence (str "demo") (str "/seq/demo")
      [Load_command SAVE_INDEX_INVALID] [str "a.sv6"] false in
  LegacyScriptRead 32 64 stale (str "LOAD missing.sv6") [str "a.sv6"]
  = Commands seq
  ∧ load_indices_ok seq = true
  ∧ TitleSequenceRemovePark io_ok seq 0
    = Some (true, mkTitleSequence (str "demo") (str "/seq/demo")
                    [Load_command 254] [] false)
  ∧ load_indices_ok
      (mkTitleSequence (str "demo") (str "/seq/demo")
         [Load_command 254] [] false) = false.
Proof. repeat split. Qed.

(** A failed rename and a failed removal leave the sequence as it was. *)
Lemma TitleSequenceRenamePark_failure io seq index name seq' :
  TitleSequenceRenamePark io seq index name = Some (false, seq') -> seq' = seq.
Proof.
  unfold TitleSequenceRenamePark.
  destruct (index <? length (Saves seq))%nat; [|done].
  destruct (if IsZip seq then Zip_TryOpen io else File_Move io); congruence.
Qed.

Lemma TitleSequenceRemovePark_failure io seq index seq' :
  TitleSequenceRemovePark io seq index = Some (false, seq') -> seq' = seq.
Proof.
  unfold TitleSequenceRemovePark.
  destruct (index <? length (Saves seq))%nat; [|done].
  destruct (if IsZip seq then Zip_TryOpen io else File_Delete io); congruence.
Qed.

Lemma std_find_is_end_spec saves value :
  std_find_is_end saves value = negb (bool_decide (value ∈ saves)).
Proof.
  induction saves as [|s ss IH]; cbn [std_find_is_end].
  - rewrite bool_decide_eq_false_2; [done | apply not_elem_of_nil].
  - destruct (decide (s = value)) as [->|Hne].
    + rewrite (bool_decide_eq_true_2 (value = value)) by done.
      rewrite bool_decide_eq_true_2; [done | left].
    + rewrite (bool_decide_eq_false_2 (s = value)) by done.
      rewrite IH. f_equal. apply bool_decide_ext.
      rewrite elem_of_cons.
      split; [by right | intros [E|?]; [by subst | done]].
Qed.

(** C3: [TitleSequenceAddPark] appends the name before it calls the backend.
    When the copy into the directory fails, or the archive cannot be opened,
    the call reports failure with the name already in the list of saves; when
    the file cannot be read for an archive, the call even reports success. *)
Theorem TitleSequenceAddPark_failure_keeps_entry :
  let seq := mkTitleSequence (str "demo") (str "/seq/demo") [] [] false in
  let zseq := mkTitleSequence (str "demo") (str "/seq/demo.parkseq") [] [] true in
  TitleSequenceAddPark (mkBackend true true true false true true true) seq
    (str "/tmp/a.sv6") (str "a.sv6")
  = (false, set_Saves seq [str "a.sv6"])
  ∧ TitleSequenceAddPark (mkBackend false true true true true true true) zseq
      (str "/tmp/a.sv6") (str "a.sv6")
    = (false, set_Saves zseq [str "a.sv6"])
  ∧ TitleSequenceAddPark (mkBackend true false true true true true true) zseq
      (str "/tmp/a.sv6") (str "a.sv6")
    = (true, set_Saves zseq [str "a.sv6"]).
Proof. repeat split. Qed.

(** C9: whatever the backend answers, [TitleSequenceAddPark(seq, path, name)]
    leaves the list of saves with [name] appended when [path] is not an
    element of it, and as it was when [path] is an element; the other fields
    of the sequence are unchanged. *)
Theorem TitleSequenceAddPark_compares_path
    (io : Backend) (seq : TitleSequence) (path name : list ascii) :
  (TitleSequenceAddPark io seq path name).2
  = set_Saves seq
      (if bool_decide (path ∈ Saves seq) then Saves seq
       else Saves seq ++ [name]).
Proof.
  unfold TitleSequenceAddPark. rewrite std_find_is_end_spec.
  assert (Hid : set_Saves seq (Saves seq) = seq) by (by destruct seq).
  destruct (bool_decide (path ∈ Saves seq)); simpl; rewrite ?Hid;
    by destruct (IsZip seq), (File_ReadAllBytes io), (Zip_TryOpen io),
      (Zip_SetFileData io), (File_Copy io).
Qed.

(** C10: for the index just past the last save, the bounds test of
    [TitleSequenceGetParkHandle] passes and [seq.Saves[index]] is read past
    the end of the list. *)
Theorem TitleSequenceGetParkHandle_reads_past_end
    (io : Backend) (seq : TitleSequence) :
  TitleSequenceGetParkHandle io seq (length (Saves seq)) = OutOfRangeRead.
Proof.
  unfold TitleSequenceGetParkHandle.
  rewrite (proj2 (Nat.leb_le _ _)) by lia.
  by rewrite lookup_ge_None_2.
Qed.

(** Inside the list a handle, or none, is produced without such a read; past
    the index of the theorem above there is no handle. *)
Lemma TitleSequenceGetParkHandle_valid io seq index :
  (index < length (Saves seq))%nat ->
  TitleSequenceGetParkHandle io seq index <> OutOfRangeRead.
Proof.
  intros Hi. unfold TitleSequenceGetParkHandle.
  destruct (lookup_lt_is_Some_2 _ _ Hi) as [f ->].
  by destruct (index <=? _)%nat, (IsZip seq), (Zip_TryOpen io),
    (FileStream_open io).
Qed.

Lemma TitleSequenceGetParkHandle_beyond io seq index :
  (length (Saves seq) < index)%nat ->
  TitleSequenceGetParkHandle io seq index = NoHandle.
Proof.
  intros Hi. unfold TitleSequenceGetParkHandle.
  by rewrite (proj2 (Nat.leb_gt _ _)) by lia.
Qed.

(** ** The buffer of the tokenizer *)

Lemma store_eq m i c : store m i c i = c.
Proof. unfold store. by rewrite Nat.eqb_refl. Qed.

Lemma store_ne m i c j : i ≠ j -> store m i c j = m j.
Proof. unfold store. intros H. by rewrite (proj2 (Nat.eqb_neq i j)). Qed.

Lemma closed_at_store m k f j c :
  (∀ i, (i <= 127)%nat -> j ≠ (k * 128 + i)%nat) ->
  closed_at m k f -> closed_at (store m j c) k f.
Proof.
  intros Hj (Hh & Hn & Hl). split; [|split]; [| |done].
  - intros i x Hi. rewrite store_ne; [by apply Hh|].
    apply Hj. apply lookup_lt_Some in Hi. lia.
  - rewrite store_ne; [done|]. by apply Hj.
Qed.

Lemma holds_store m off l j c :
  (∀ i, (i < length l)%nat -> j ≠ (off + i)%nat) ->
  holds m off l -> holds (store m j c) off l.
Proof.
  intros Hj Hh i x Hi. rewrite store_ne; [by apply Hh|].
  apply Hj. by apply lookup_lt_Some in Hi.
Qed.

Lemma Rep_Fin m closed cur :
  (3 <= length closed)%nat -> Rep m closed cur -> Fin m closed.
Proof.
  intros H3 [Hl Hc _ _ _]. split; [done | done |]. intros k Hk; lia.
Qed.

Lemma closed_at_snoc m closed cur k f :
  Rep m closed cur ->
  (closed ++ [cur]) !! k = Some f ->
  closed_at (store m (length closed * 128 + length cur) NUL) k f.
Proof.
  intros [Hl Hc Hu Hul Hr] Hk.
  apply lookup_snoc_Some in Hk as [[Hlt Hk]|[-> ->]].
  - apply closed_at_store; [intros; lia | by apply Hc].
  - split; [|split]; [| |done].
    + apply holds_store; [intros; lia | done].
    + apply store_eq.
Qed.

Lemma Rep_Fin_close m closed cur :
  (length closed < 3)%nat -> Rep m closed cur ->
  Fin (store m (length closed * 128 + length cur) NUL) (closed ++ [cur]).
Proof.
  intros H3 HR. pose proof HR as [Hl Hc Hu Hul Hr]. split.
  - rewrite length_app; simpl; lia.
  - intros k f. by apply closed_at_snoc.
  - rewrite length_app; simpl. intros k Hk.
    rewrite store_ne by lia. apply Hr; lia.
Qed.

Lemma Rep_close m closed cur :
  (length closed < 3)%nat -> Rep m closed cur ->
  Rep (store m (length closed * 128 + length cur) NUL) (closed ++ [cur]) [].
Proof.
  intros H3 HR. pose proof HR as [Hl Hc Hu Hul Hr]. split.
  - rewrite length_app; simpl; lia.
  - intros k f. by apply closed_at_snoc.
  - by intros i c.
  - simpl; lia.
  - rewrite length_app; simpl. intros k Hk.
    rewrite store_ne by lia. apply Hr; lia.
Qed.

Lemma Rep_terminate m closed cur :
  Rep m closed cur ->
  Rep (store m (length closed * 128 + length cur) NUL) closed cur.
Proof.
  intros [Hl Hc Hu Hul Hr]. split; [done | | | done |].
  - intros k f Hk. pose proof (lookup_lt_Some _ _ _ Hk).
    apply closed_at_store; [intros; lia | by apply Hc].
  - apply holds_store; [intros; lia | done].
  - intros k Hk. rewrite store_ne by lia. by apply Hr.
Qed.

Lemma Rep_char m closed cur c :
  (length cur < 127)%nat -> Rep m closed cur ->
  Rep (store m (length closed * 128 + length cur) c) closed (cur ++ [c]).
Proof.
  intros Hlt [Hl Hc Hu Hul Hr]. split; [done | | | |].
  - intros k f Hk. pose proof (lookup_lt_Some _ _ _ Hk).
    apply closed_at_store; [intros; lia | by apply Hc].
  - intros i x Hi. apply lookup_snoc_Some in Hi as [[Hlt' Hi]|[-> ->]].
    + rewrite store_ne by lia. by apply Hu.
    + apply store_eq.
  - rewrite length_app; simpl; lia.
  - intros k Hk. rewrite store_ne by lia. by apply Hr.
Qed.

(** Reading a field back. *)
Lemma mem_c_str_holds m l : ∀ off n,
  holds m off l -> m (off + length l)%nat = NUL -> (length l < n)%nat ->
  mem_c_str m off n = c_str l.
Proof.
  induction l as [|c l IH]; intros off n Hh Hn Hl.
  - destruct n; [simpl in Hl; lia|]. simpl in *.
    rewrite Nat.add_0_r in Hn. by rewrite Hn.
  - destruct n; [simpl in Hl; lia|]. simpl in *.
    rewrite <- (Hh 0%nat c eq_refl), Nat.add_0_r.
    destruct (m off =? NUL)%char; [done|]. f_equal.
    apply IH; [| |lia].
    + intros i x Hi. rewrite <- (Hh (S i) x Hi). f_equal; lia.
    + rewrite <- Hn. f_equal; lia.
Qed.

Lemma mem_c_str_take m l : ∀ off n,
  holds m off l -> (length l <= n)%nat ->
  take (length l) (mem_c_str m off n) = take (length l) (c_str l).
Proof.
  induction l as [|c l IH]; intros off n Hh Hl; [done|].
  destruct n; [simpl in Hl; lia|]. simpl in *.
  rewrite <- (Hh 0%nat c eq_refl), Nat.add_0_r.
  destruct (m off =? NUL)%char; [done|]. simpl. f_equal.
  apply IH; [|lia].
  intros i x Hi. rewrite <- (Hh (S i) x Hi). f_equal; lia.
Qed.

Lemma Fin_field m fields k :
  (k < 3)%nat -> Fin m fields -> field m k = field_of fields k.
Proof.
  intros Hk [Hl Hc Hr]. unfold field, field_of.
  destruct (fields !! k) as [f|] eqn:Hf.
  - rewrite (nth_lookup_Some _ _ _ _ Hf).
    destruct (Hc k f Hf) as (Hh & Hn & Hlen).
    apply mem_c_str_holds; [done | done | unfold PARTS_SIZE; lia].
  - rewrite nth_overflow by (by apply lookup_ge_None).
    apply lookup_ge_None in Hf.
    destruct (PARTS_SIZE - k * 128)%nat eqn:E; [unfold PARTS_SIZE in E; lia|].
    simpl. by rewrite (Hr k) by lia.
Qed.

Lemma strnicmp_field m cur kw :
  holds m 0 cur ->
  (length cur <= PARTS_SIZE)%nat ->
  _strnicmp (field m 0) kw (length cur) = _strnicmp (c_str cur) kw (length cur).
Proof.
  intros Hh Hl. unfold _strnicmp, field. f_equal.
  apply mem_c_str_take; [done | lia].
Qed.

Lemma Rep_strnicmp m closed cur kw n :
  Rep m closed cur -> length closed = 0%nat ->
  (length cur =? n)%nat && (_strnicmp (field m 0) kw n =? 0)
  = (length cur =? n)%nat && (_strnicmp (c_str cur) kw n =? 0).
Proof.
  intros [Hl Hc Hu Hul Hr] H0.
  destruct (Nat.eqb_spec (length cur) n) as [<-|]; [|done]. simpl.
  rewrite strnicmp_field; [done | | unfold PARTS_SIZE; lia].
  by rewrite H0 in Hu.
Qed.

(** The loop of [LegacyScriptGetLine] and [fields_loop] leave the same bytes
    in the stream, and the buffer holds the fields of [fields_loop]. *)
Lemma LegacyScriptGetLine_loop_fields stream :
  ∀ parts closed cur ws cm ld sp,
    Rep parts closed cur ->
    ∃ parts',
      LegacyScriptGetLine_loop stream parts (length closed) (length cur)
        ws cm ld sp
      = (parts', (fields_loop stream closed cur ws cm ld sp).2)
      ∧ Fin parts' (fields_loop stream closed cur ws cm ld sp).1.
Proof.
  induction stream as [|c stream IH]; intros parts closed cur ws cm ld sp HR;
    cbn [LegacyScriptGetLine_loop fields_loop].
  - destruct (Nat.ltb_spec (length closed) 3).
    + eexists; split; [done|]. by apply Rep_Fin_close.
    + eexists; split; [done|]. by apply (Rep_Fin _ _ cur).
  - destruct (Nat.ltb_spec (length closed) 3) as [H3|H3];
      [|eexists; split; [done | by apply (Rep_Fin _ _ cur)]].
    destruct ((c =? LF)%char || (c =? CR)%char).
    { eexists; split; [done | by apply Rep_Fin_close]. }
    destruct (c =? "#")%char.
    { apply IH. by apply Rep_terminate. }
    assert (Hsplit : ∀ ws' ld' sp',
      ∃ parts',
        LegacyScriptGetLine_loop stream
          (store parts (length closed * 128 + length cur) NUL)
          (S (length closed)) 0 ws' cm ld' sp'
        = (parts', (fields_loop stream (closed ++ [cur]) [] ws' cm ld' sp').2)
        ∧ Fin parts' (fields_loop stream (closed ++ [cur]) [] ws' cm ld' sp').1).
    { intros ws' ld' sp'.
      replace (S (length closed)) with (length (closed ++ [cur]))
        by (rewrite length_app; simpl; lia).
      change 0%nat with (length (@nil ascii)) at 2.
      apply IH. by apply Rep_close. }
    destruct ((c =? " ")%char && negb cm && negb ld
              && (negb sp || negb (length closed =? 2)%nat)).
    { destruct (negb ws); [|by apply IH].
      destruct (Nat.eqb_spec (length closed) 0) as [H0|H0].
      - cbn [andb].
        rewrite !(Rep_strnicmp parts closed cur) by done.
        rewrite <- !andb_assoc.
        rewrite !(Rep_strnicmp parts closed cur) by done.
        apply Hsplit.
      - cbn [andb negb]. apply Hsplit. }
    destruct (negb cm); [|by apply IH].
    destruct (Nat.ltb_spec (length cur) 127) as [Hc|Hc]; [|apply Hsplit].
    replace (S (length cur)) with (length (cur ++ [c]))
      by (rewrite length_app; simpl; lia).
    apply IH. by apply Rep_char.
Qed.

Lemma Rep_initial parts :
  Rep (store (store (store parts (0 * 128) NUL) (1 * 128) NUL) (2 * 128) NUL)
    [] [].
Proof.
  split; simpl; try lia; try done.
  intros k Hk. assert (k = 1 ∨ k = 2)%nat as [-> | ->] by lia.
  - by rewrite store_ne, store_eq.
  - by rewrite store_eq.
Qed.

(** The fields that [LegacyScriptGetLine] leaves in the buffer are the fields
    of [tokenize], whatever the buffer held before, and so is the rest of the
    stream. *)
Lemma LegacyScriptGetLine_fields stream parts :
  (LegacyScriptGetLine stream parts).2 = (tokenize stream).2
  ∧ ∀ k, (k < 3)%nat ->
      field (LegacyScriptGetLine stream parts).1 k
      = field_of (tokenize stream).1 k.
Proof.
  unfold LegacyScriptGetLine, tokenize.
  destruct (LegacyScriptGetLine_loop_fields stream _ [] [] true false false
              false (Rep_initial parts)) as (parts' & Heq & HF).
  change (length (@nil (list ascii))) with 0%nat in Heq.
  change (length (@nil ascii)) with 0%nat in Heq.
  rewrite Heq. split; [done|]. intros k Hk. by apply Fin_field.
Qed.

(** ** The reader, line by line *)

Lemma fields_loop_rest stream :
  ∀ closed cur ws cm ld sp,
    (length (fields_loop stream closed cur ws cm ld sp).2 <= length stream)%nat.
Proof.
  induction stream as [|c stream IH]; intros closed cur ws cm ld sp;
    cbn [fields_loop].
  - by destruct (length closed <? 3)%nat.
  - destruct (length closed <? 3)%nat; [|done].
    pose proof (IH closed cur ws true ld sp).
    pose proof (IH closed cur ws cm ld sp).
    pose proof (IH closed (cur ++ [c]) false cm ld sp).
    pose proof (IH (closed ++ [cur]) [] false cm ld sp).
    repeat match goal with
           | |- context [if ?b then _ else _] => destruct b
           end; simpl; try lia; try (etrans; [apply IH|]; lia).
Qed.

Lemma tokenize_shorter stream :
  stream ≠ [] -> (length (tokenize stream).2 < length stream)%nat.
Proof.
  destruct stream as [|c stream]; [done|]. intros _.
  unfold tokenize. cbn [fields_loop]. simpl length.
  pose proof (fields_loop_rest stream) as IH.
  repeat match goal with
         | |- context [if ?b then _ else _] => destruct b
         end; simpl; try lia; try (eapply Nat.le_lt_trans; [apply IH|]; lia).
Qed.

(** Every call of [LegacyScriptGetLine] on a stream that is not exhausted
    shortens it. *)
Lemma LegacyScriptGetLine_shorter stream parts :
  stream ≠ [] ->
  (length (LegacyScriptGetLine stream parts).2 < length stream)%nat.
Proof.
  intros H. rewrite (proj1 (LegacyScriptGetLine_fields stream parts)).
  by apply tokenize_shorter.
Qed.

(** ** Characters *)

Ltac all_chars c := destruct c as [[] [] [] [] [] [] [] []].

Lemma char_eqb_eq (c d : ascii) : (c =? d)%char = true <-> c = d.
Proof. apply Ascii.eqb_eq. Qed.

Lemma tolower_line_char c : line_char (tolower c) = line_char c.
Proof. all_chars c; reflexivity. Qed.

Lemma tolower_space c : (tolower c =? " ")%char = (c =? " ")%char.
Proof. all_chars c; reflexivity. Qed.

Lemma tolower_idemp c : tolower (tolower c) = tolower c.
Proof. all_chars c; reflexivity. Qed.

Lemma code_NUL c : code c = 0 -> c = NUL.
Proof. all_chars c; vm_compute; congruence. Qed.

Lemma isdigit_word c :
  isdigit c = true ->
  line_char c = true ∧ (c =? " ")%char = false ∧ isspace c = false
  ∧ (c =? "-")%char = false ∧ (c =? "+")%char = false.
Proof. all_chars c; vm_compute; intuition congruence. Qed.

Lemma isdigit_digit d : 0 <= d < 10 -> isdigit (digit d) = true.
Proof.
  intros H.
  assert (d = 0 ∨ d = 1 ∨ d = 2 ∨ d = 3 ∨ d = 4 ∨ d = 5 ∨ d = 6 ∨ d = 7
          ∨ d = 8 ∨ d = 9) as Hd by lia.
  repeat destruct Hd as [-> | Hd]; try subst d; reflexivity.
Qed.

Lemma code_digit d : 0 <= d < 10 -> code (digit d) - 48 = d.
Proof.
  intros H.
  assert (d = 0 ∨ d = 1 ∨ d = 2 ∨ d = 3 ∨ d = 4 ∨ d = 5 ∨ d = 6 ∨ d = 7
          ∨ d = 8 ∨ d = 9) as Hd by lia.
  repeat destruct Hd as [-> | Hd]; try subst d; reflexivity.
Qed.

(** ** Texts *)

Lemma line_text_app a b : line_text (a ++ b) = line_text a && line_text b.
Proof. apply forallb_app. Qed.

Lemma word_text_app a b : word_text (a ++ b) = word_text a && word_text b.
Proof. apply forallb_app. Qed.

Lemma word_text_line_text s : word_text s = true -> line_text s = true.
Proof.
  induction s as [|c s IH]; simpl; [done|].
  intros [[H1 _]%andb_true_iff H2]%andb_true_iff. rewrite H1. by apply IH.
Qed.

Lemma c_str_line_text s : line_text s = true -> c_str s = s.
Proof.
  induction s as [|c s IH]; simpl; [done|].
  intros [H1 H2]%andb_true_iff. unfold line_char in H1.
  destruct (c =? NUL)%char; [done|]. by rewrite IH.
Qed.

Lemma c_str_idemp s : c_str (c_str s) = c_str s.
Proof.
  induction s as [|c s IH]; simpl; [done|].
  destruct (c =? NUL)%char eqn:E; [done|]. simpl. by rewrite E, IH.
Qed.

Lemma c_str_length s : (length (c_str s) <= length s)%nat.
Proof.
  induction s as [|c s IH]; simpl; [done|].
  destruct (c =? NUL)%char; simpl; lia.
Qed.

(** A C string has no NUL, and keeps what its text lacks. *)
Lemma c_str_no_NUL s : Forall (fun c => c ≠ NUL) (c_str s).
Proof.
  induction s as [|c s IH]; simpl; [done|].
  destruct (c =? NUL)%char eqn:E; [done|]. constructor; [|done].
  intros ->. by rewrite Ascii.eqb_refl in E.
Qed.

Lemma c_str_Forall (P : ascii -> Prop) s : Forall P s -> Forall P (c_str s).
Proof.
  induction 1 as [|c s Hc Hs IH]; simpl; [done|].
  destruct (c =? NUL)%char; [done|]. by constructor.
Qed.

Lemma c_str_app_line_text a b : line_text a = true -> c_str (a ++ b) = a ++ c_str b.
Proof.
  induction a as [|c a IH]; simpl; [done|].
  intros [H1 H2]%andb_true_iff. unfold line_char in H1.
  destruct (c =? NUL)%char; [done|]. by rewrite IH.
Qed.

(** ** Comparisons without regard to case *)

Lemma stricmp_lower a : ∀ b,
  map tolower a = map tolower b -> _stricmp a b = 0.
Proof.
  induction a as [|c a IH]; intros [|d b] H; simpl in *; try done.
  injection H as H1 H2. rewrite H1, Ascii.eqb_refl. by apply IH.
Qed.

Lemma String_Equals_ignoreCase_spec a : ∀ b,
  String_Equals_ignoreCase a b = true <-> map tolower a = map tolower b.
Proof.
  induction a as [|c a IH]; intros [|d b]; simpl; try done.
  rewrite andb_true_iff, char_eqb_eq, IH. split.
  - by intros [-> ->].
  - by intros [= -> ->].
Qed.

Lemma map_tolower_length a b :
  map tolower a = map tolower b -> length a = length b.
Proof. intros H. by rewrite <- (length_map tolower a), H, length_map. Qed.

Lemma map_tolower_line_text a b :
  map tolower a = map tolower b -> line_text a = line_text b.
Proof.
  revert b; induction a as [|c a IH]; intros [|d b] H; simpl in *; try done.
  injection H as H1 H2.
  rewrite <- (tolower_line_char c), H1, tolower_line_char. f_equal. by apply IH.
Qed.

Lemma map_tolower_word_text a b :
  map tolower a = map tolower b -> word_text a = word_text b.
Proof.
  revert b; induction a as [|c a IH]; intros [|d b] H; simpl in *; try done.
  injection H as H1 H2.
  rewrite <- (tolower_line_char c), <- (tolower_space c), H1,
    tolower_line_char, tolower_space.
  f_equal. by apply IH.
Qed.

(** ** The tokenizer on the parts of a line *)

Lemma line_char_inv c :
  line_char c = true ->
  (c =? NUL)%char = false ∧ (c =? LF)%char = false ∧ (c =? CR)%char = false
  ∧ (c =? "#")%char = false.
Proof.
  unfold line_char.
  by destruct (c =? NUL)%char, (c =? LF)%char, (c =? CR)%char, (c =? "#")%char.
Qed.

(** The characters of a field are stored one after the other. *)
Lemma fields_loop_field l :
  ∀ stream closed cur ld sp,
    (length closed < 3)%nat ->
    field_text (ld || (sp && (length closed =? 2)%nat)) l = true ->
    (length cur + length l <= 127)%nat ->
    fields_loop (l ++ stream) closed cur false false ld sp
    = fields_loop stream closed (cur ++ l) false false ld sp.
Proof.
  induction l as [|c l IH]; intros stream closed cur ld sp H3 Ht Hl.
  { by rewrite app_nil_r. }
  simpl app. cbn [fields_loop].
  rewrite (proj2 (Nat.ltb_lt _ _) H3).
  assert (line_char c = true
          ∧ ((c =? " ")%char && negb false && negb ld
             && (negb sp || negb (length closed =? 2)%nat)) = false
          ∧ field_text (ld || (sp && (length closed =? 2)%nat)) l = true)
    as (Hc & Hs & Ht').
  { unfold field_text in *.
    destruct ld, sp, (length closed =? 2)%nat; simpl in *;
      apply andb_true_iff in Ht as [Hc Ht];
      try (apply andb_true_iff in Hc as [Hc Hsp]);
      rewrite ?Hc, ?Ht; repeat split; try done;
      try (by rewrite ?andb_false_r);
      by destruct (c =? " ")%char. }
  destruct (line_char_inv c Hc) as (_ & -> & -> & ->). cbn [orb].
  rewrite Hs. cbn [negb].
  simpl in Hl.
  rewrite (proj2 (Nat.ltb_lt (length cur) 127)) by lia.
  rewrite IH; [| done | done | rewrite length_app; simpl; lia].
  by rewrite <- app_assoc.
Qed.

(** The first field, when the line starts with it. *)
Lemma tokenize_first kw stream :
  kw ≠ [] -> word_text kw = true -> (length kw <= 127)%nat ->
  tokenize (kw ++ stream) = fields_loop stream [] kw false false false false.
Proof.
  destruct kw as [|c kw]; [done|]. intros _ Ht Hl.
  unfold tokenize. simpl app. cbn [fields_loop]. simpl in Ht, Hl.
  apply andb_true_iff in Ht as [[Hc Hs]%andb_true_iff Ht].
  destruct (line_char_inv c Hc) as (_ & -> & -> & ->).
  apply negb_true_iff in Hs. rewrite Hs. simpl.
  apply (fields_loop_field kw stream [] [c] false false); simpl; try done; lia.
Qed.

(** The space after the first field closes it and sets the flags. *)
Lemma fields_loop_space_first kw stream :
  fields_loop (" "%char :: stream) [] kw false false false false
  = fields_loop stream [kw] [] false false (load_flag kw) (sprite_flag kw).
Proof.
  cbn [fields_loop length Nat.ltb Nat.leb Nat.eqb app].
  change (" " =? LF)%char with false. change (" " =? CR)%char with false.
  change (" " =? "#")%char with false. change (" " =? " ")%char with true.
  cbn [orb andb negb]. unfold sprite_flag, load_flag.
  by rewrite andb_true_r.
Qed.

(** A space that splits after a later field closes it. *)
Lemma fields_loop_space_later stream closed cur sp :
  (0 < length closed < 3)%nat ->
  sp && (length closed =? 2)%nat = false ->
  fields_loop (" "%char :: stream) closed cur false false false sp
  = fields_loop stream (closed ++ [cur]) [] false false false sp.
Proof.
  intros [H0 H3] Hsp. cbn [fields_loop].
  rewrite (proj2 (Nat.ltb_lt _ _) H3).
  rewrite (proj2 (Nat.eqb_neq (length closed) 0)) by lia.
  change (" " =? LF)%char with false. change (" " =? CR)%char with false.
  change (" " =? "#")%char with false. change (" " =? " ")%char with true.
  cbn [orb andb negb].
  destruct sp, (length closed =? 2)%nat; simpl in *; done.
Qed.

(** The end of the line closes the current field. *)
Lemma fields_loop_LF stream closed cur ws cm ld sp :
  (length closed < 3)%nat ->
  fields_loop (LF :: stream) closed cur ws cm ld sp = (closed ++ [cur], stream).
Proof.
  intros H3. cbn [fields_loop]. by rewrite (proj2 (Nat.ltb_lt _ _) H3).
Qed.

(** After the comment sign nothing is stored up to the end of the line. *)
Lemma fields_loop_comment l :
  ∀ stream closed cur ws ld sp,
    (length closed < 3)%nat ->
    forallb (fun c => negb ((c =? LF)%char || (c =? CR)%char)) l = true ->
    fields_loop (l ++ LF :: stream) closed cur ws true ld sp
    = (closed ++ [cur], stream).
Proof.
  induction l as [|c l IH]; intros stream closed cur ws ld sp H3 Hl.
  { by apply fields_loop_LF. }
  simpl in *. apply andb_true_iff in Hl as [Hc Hl].
  apply negb_true_iff in Hc.
  cbn [fields_loop]. rewrite (proj2 (Nat.ltb_lt _ _) H3), Hc.
  rewrite !andb_false_r. simpl.
  destruct (c =? "#")%char; by apply IH.
Qed.

(** The fields that the loop returns: at most three, each of at most 127
    characters, none of them a line end or the comment sign. *)
Lemma fields_loop_stored stream :
  ∀ closed cur ws cm ld sp,
    (length closed <= 3)%nat ->
    forallb stored_field closed = true -> stored_field cur = true ->
    (length (fields_loop stream closed cur ws cm ld sp).1 <= 3)%nat
    ∧ forallb stored_field (fields_loop stream closed cur ws cm ld sp).1 = true.
Proof.
  assert (Hsnoc : ∀ closed cur, forallb stored_field closed = true ->
            stored_field cur = true ->
            forallb stored_field (closed ++ [cur]) = true).
  { intros closed cur H1 H2. rewrite forallb_app, H1. simpl. by rewrite H2. }
  induction stream as [|c stream IH]; intros closed cur ws cm ld sp H3 Hc Hu;
    cbn [fields_loop].
  - destruct (Nat.ltb_spec (length closed) 3); simpl; [|done].
    rewrite length_app; simpl. split; [lia | by apply Hsnoc].
  - destruct (Nat.ltb_spec (length closed) 3) as [Hlt|]; simpl; [|done].
    assert (Hclose : (length (closed ++ [cur]) <= 3)%nat)
      by (rewrite length_app; simpl; lia).
    destruct ((c =? LF)%char || (c =? CR)%char) eqn:Hnl.
    { simpl. split; [done | by apply Hsnoc]. }
    destruct (c =? "#")%char eqn:Hhash; [by apply IH|].
    destruct ((c =? " ")%char && negb cm && negb ld
              && (negb sp || negb (length closed =? 2)%nat)).
    { destruct (negb ws); [|by apply IH]. apply IH; auto. }
    destruct (negb cm); [|by apply IH].
    destruct (Nat.ltb_spec (length cur) 127); [|apply IH; auto].
    apply IH; [done | done |].
    unfold stored_field in *. apply andb_true_iff in Hu as [Hu1 Hu2].
    rewrite length_app, forallb_app, Hu2. simpl.
    unfold stored_char. rewrite Hnl, Hhash. simpl.
    rewrite andb_true_r. apply Nat.leb_le. lia.
Qed.

Lemma tokenize_stored stream :
  (length (tokenize stream).1 <= 3)%nat
  ∧ forallb stored_field (tokenize stream).1 = true.
Proof. apply fields_loop_stored; simpl; [lia | done | done]. Qed.

Lemma stored_field_c_str f :
  stored_field f = true ->
  line_text (c_str f) = true ∧ (length (c_str f) <= 127)%nat.
Proof.
  unfold stored_field. intros [Hl Hf]%andb_true_iff. apply Nat.leb_le in Hl.
  split; [|pose proof (c_str_length f); lia].
  clear Hl. induction f as [|c f IH]; simpl in *; [done|].
  apply andb_true_iff in Hf as [Hc Hf].
  destruct (c =? NUL)%char eqn:E; [done|]. simpl. rewrite IH by done.
  unfold line_char, stored_char in *. rewrite E. simpl. by rewrite Hc.
Qed.

(** Every field of a line, read as a C string, is a text of a line of at
    most 127 characters. *)
Lemma field_of_tokenize stream k :
  line_text (field_of (tokenize stream).1 k) = true
  ∧ (length (field_of (tokenize stream).1 k) <= 127)%nat.
Proof.
  destruct (tokenize_stored stream) as [_ Hs]. unfold field_of.
  destruct ((tokenize stream).1 !! k) as [f|] eqn:Hf.
  - rewrite (nth_lookup_Some _ _ _ _ Hf). apply stored_field_c_str.
    rewrite forallb_forall in Hs. apply Hs.
    apply list_elem_of_In. by eapply list_elem_of_lookup_2.
  - rewrite nth_overflow by (by apply lookup_ge_None). simpl. split; [done|lia].
Qed.

(** ** Numbers and their decimal text *)

Lemma utoa_aux_isdigit fuel :
  ∀ n acc, forallb isdigit acc = true ->
    forallb isdigit (utoa_aux fuel n acc) = true.
Proof.
  induction fuel as [|fuel IH]; intros n acc Hacc; simpl; [done|].
  assert (forallb isdigit (digit (n mod 10) :: acc) = true) as Hd.
  { cbn [forallb]. rewrite Hacc, isdigit_digit; [done|].
    apply Z.mod_pos_bound; lia. }
  destruct (n / 10 =? 0); [done|]. by apply IH.
Qed.

Lemma utoa_aux_length fuel :
  ∀ n acc, (length (utoa_aux fuel n acc) <= fuel + length acc)%nat.
Proof.
  induction fuel as [|fuel IH]; intros n acc; simpl; [done|].
  destruct (n / 10 =? 0); simpl; [lia|].
  etrans; [apply IH|]. simpl; lia.
Qed.

Lemma utoa_aux_not_nil fuel n acc : utoa_aux (S fuel) n acc ≠ [].
Proof.
  revert n acc. induction fuel as [|fuel IH]; intros n acc.
  - simpl. by destruct (n / 10 =? 0).
  - change (utoa_aux (S (S fuel)) n acc)
      with (if n / 10 =? 0 then digit (n mod 10) :: acc
            else utoa_aux (S fuel) (n / 10) (digit (n mod 10) :: acc)).
    destruct (n / 10 =? 0); [done | apply IH].
Qed.

Lemma log2_div10 n : 10 <= n -> Z.log2 (n / 10) < Z.log2 n.
Proof.
  intros Hn.
  assert (Z.log2 (n / 10) <= Z.log2 (n / 2)) as H1.
  { apply Z.log2_le_mono. apply Z.div_le_compat_l; lia. }
  assert (Z.log2 n = Z.succ (Z.log2 (n / 2))) as H2.
  { pose proof (Z.div_mod n 2 ltac:(lia)) as Hdm.
    pose proof (Z.mod_pos_bound n 2 ltac:(lia)) as Hb.
    assert (0 < n / 2) as Hq by (apply Z.div_str_pos; lia).
    assert (n = 2 * (n / 2) ∨ n = 2 * (n / 2) + 1) as [H|H] by lia.
    - rewrite H at 1. by apply Z.log2_double.
    - rewrite H at 1. by apply Z.log2_succ_double. }
  lia.
Qed.

Lemma atoi_digits_utoa_aux fuel :
  ∀ n acc, 0 <= n -> (Z.to_nat (Z.log2 n) < fuel)%nat ->
    ∃ k, 0 <= k ∧ ∀ a, atoi_digits a (utoa_aux fuel n acc)
                       = atoi_digits (a * 10 ^ k + n) acc.
Proof.
  induction fuel as [|fuel IH]; intros n acc Hn Hf; [lia|].
  cbn [utoa_aux].
  assert (0 <= n mod 10 < 10) as Hm by (apply Z.mod_pos_bound; lia).
  pose proof (Z.div_mod n 10 ltac:(lia)) as Hdm.
  assert (0 <= n / 10) as Hq by (apply Z.div_pos; lia).
  destruct (Z.eqb_spec (n / 10) 0) as [H0|H0].
  - exists 1. split; [lia|]. intros a. cbn [atoi_digits].
    rewrite isdigit_digit, code_digit by done. f_equal. lia.
  - assert (10 <= n) as H10 by lia.
    destruct (IH (n / 10) (digit (n mod 10) :: acc)) as (k & Hk0 & Hk).
    { done. }
    { pose proof (log2_div10 n H10). pose proof (Z.log2_nonneg (n / 10)). lia. }
    exists (Z.succ k). split; [lia|]. intros a. rewrite Hk. cbn [atoi_digits].
    rewrite isdigit_digit, code_digit by done. f_equal.
    rewrite Z.pow_succ_r by done.
    set (q := n / 10) in *. set (r := n mod 10) in *. set (p := 10 ^ k).
    clearbody q r p. rewrite Hdm. ring.
Qed.

Lemma atoi_int s :
  - 2147483648 <= strtol_value s < 2147483648 -> atoi s = strtol_value s.
Proof.
  intros H. unfold atoi, strtol, int_of_long, LONG_MAX, LONG_MIN.
  change (2 ^ 63) with 9223372036854775808.
  change (2 ^ 31) with 2147483648. change (2 ^ 32) with 4294967296.
  rewrite Z.min_r, Z.max_r by lia.
  rewrite Z.mod_small by lia. lia.
Qed.

Lemma strtol_value_isdigit l :
  forallb isdigit l = true -> strtol_value l = atoi_digits 0 l.
Proof.
  destruct l as [|c l]; [done|]. cbn [forallb].
  intros [Hc _]%andb_true_iff.
  destruct (isdigit_word c Hc) as (_ & _ & Hs & Hm & Hp).
  unfold strtol_value. cbn [skip_spaces]. by rewrite Hs, Hm, Hp.
Qed.

Lemma utoa_isdigit n : forallb isdigit (utoa n) = true.
Proof. by apply utoa_aux_isdigit. Qed.

(** The decimal text of a number reads back as the number. *)
Lemma strtol_value_utoa n : 0 <= n -> strtol_value (utoa n) = n.
Proof.
  intros Hn. rewrite strtol_value_isdigit by apply utoa_isdigit.
  destruct (atoi_digits_utoa_aux (S (Z.to_nat (Z.log2 n))) n [] Hn)
    as (k & _ & Hk); [lia|].
  unfold utoa. rewrite Hk. simpl. lia.
Qed.

Lemma atoi_utoa n : 0 <= n < 2147483648 -> atoi (utoa n) = n.
Proof.
  intros Hn. rewrite atoi_int; rewrite strtol_value_utoa; lia.
Qed.

Lemma isdigit_word_text l : forallb isdigit l = true -> word_text l = true.
Proof.
  induction l as [|c l IH]; simpl; [done|].
  intros [Hc Hl]%andb_true_iff.
  destruct (isdigit_word c Hc) as (-> & -> & _). simpl. by apply IH.
Qed.

Lemma utoa_word_text n : word_text (utoa n) = true.
Proof. apply isdigit_word_text, utoa_isdigit. Qed.

Lemma utoa_not_nil n : utoa n ≠ [].
Proof. apply utoa_aux_not_nil. Qed.

Lemma utoa_length n : 0 <= n < 65536 -> (length (utoa n) <= 17)%nat.
Proof.
  intros Hn. unfold utoa.
  etrans; [apply utoa_aux_length|]. simpl.
  assert (Z.log2 n < 16); [|lia].
  destruct (Z.eq_dec n 0) as [->|]; [done|].
  apply Z.log2_lt_pow2; lia.
Qed.

Lemma utoa_aux_app fuel : ∀ n acc,
  utoa_aux fuel n acc = utoa_aux fuel n [] ++ acc.
Proof.
  induction fuel as [|fuel IH]; intros n acc; simpl; [done|].
  destruct (n / 10 =? 0); [done|].
  rewrite IH, (IH _ [_]). by rewrite <- app_assoc.
Qed.

(** [atoi] reads the leading digits and stops at the first other character. *)
Lemma strtol_value_leading_digits n c rest :
  0 <= n -> isdigit c = false -> strtol_value (utoa n ++ c :: rest) = n.
Proof.
  intros Hn Hc.
  destruct (atoi_digits_utoa_aux (S (Z.to_nat (Z.log2 n))) n (c :: rest) Hn)
    as (k & _ & Hk); [lia|].
  unfold utoa. rewrite <- utoa_aux_app.
  pose proof (utoa_aux_not_nil (Z.to_nat (Z.log2 n)) n (c :: rest)) as Hne.
  pose proof (utoa_aux_isdigit (S (Z.to_nat (Z.log2 n))) n []) as Hd.
  rewrite (utoa_aux_app _ n (c :: rest)) in Hne |- *.
  destruct (utoa_aux (S (Z.to_nat (Z.log2 n))) n []) as [|d ds] eqn:E.
  { by destruct (utoa_aux_not_nil (Z.to_nat (Z.log2 n)) n []). }
  specialize (Hd eq_refl). simpl in Hd.
  apply andb_true_iff in Hd as [Hd _].
  destruct (isdigit_word d Hd) as (_ & _ & Hs & Hm & Hp).
  unfold strtol_value. simpl app. cbn [skip_spaces]. rewrite Hs, Hm, Hp.
  change (d :: ds ++ c :: rest) with ((d :: ds) ++ c :: rest).
  rewrite <- E, <- utoa_aux_app, Hk. cbn [atoi_digits]. rewrite Hc. lia.
Qed.

Lemma atoi_leading_digits n c rest :
  0 <= n < 2147483648 -> isdigit c = false ->
  atoi (utoa n ++ c :: rest) = n.
Proof.
  intros Hn Hc.
  rewrite atoi_int; rewrite strtol_value_leading_digits; lia || done.
Qed.

(** A text that starts with no digit, sign or white space reads as 0. *)
Lemma atoi_no_digit c rest :
  isdigit c = false -> isspace c = false ->
  (c =? "-")%char = false -> (c =? "+")%char = false ->
  atoi (c :: rest) = 0.
Proof.
  intros Hd Hs Hm Hp.
  assert (strtol_value (c :: rest) = 0) as H.
  { unfold strtol_value. cbn [skip_spaces].
    rewrite Hs, Hm, Hp. cbn [atoi_digits]. by rewrite Hd. }
  rewrite atoi_int; rewrite H; lia.
Qed.

Lemma skip_spaces_app ws s :
  forallb isspace ws = true ->
  skip_spaces (ws ++ s) = skip_spaces s.
Proof.
  induction ws as [|c ws IH]; simpl; [done|].
  intros [-> H]%andb_true_iff. by apply IH.
Qed.

Lemma atoi_digits_zeros zeros s : atoi_digits 0 (repeat "0"%char zeros ++ s)
  = atoi_digits 0 s.
Proof. induction zeros as [|k IH]; [done|]. simpl. exact IH. Qed.

Lemma atoi_digits_no_leading_digit a rest :
  no_leading_digit rest = true -> atoi_digits a rest = a.
Proof.
  destruct rest as [|c rest]; [done|]. simpl.
  intros H%negb_true_iff. by rewrite H.
Qed.

Lemma atoi_digits_utoa n rest :
  0 <= n -> no_leading_digit rest = true ->
  atoi_digits 0 (utoa n ++ rest) = n.
Proof.
  intros Hn Hr.
  destruct (atoi_digits_utoa_aux (S (Z.to_nat (Z.log2 n))) n rest Hn)
    as (k & _ & Hk); [lia|].
  unfold utoa. rewrite <- utoa_aux_app, Hk.
  rewrite atoi_digits_no_leading_digit by done. lia.
Qed.

Lemma utoa_head n : ∃ d ds, utoa n = d :: ds ∧ isdigit d = true.
Proof.
  pose proof (utoa_isdigit n) as Hd. pose proof (utoa_not_nil n) as Hne.
  destruct (utoa n) as [|d ds]; [done|].
  exists d, ds. split; [done|]. simpl in Hd.
  by apply andb_true_iff in Hd as [-> _].
Qed.

(** The number that a text shows is the one that [strtol] reads. *)
Lemma number_text_strtol_value s v :
  number_text s v -> strtol_value s = v.
Proof.
  intros [ws sg zeros n rest Hws Hsg Hn Hrest | ws rest Hws Hrest];
    unfold strtol_value; rewrite skip_spaces_app by done.
  - assert (Hd : atoi_digits 0 (repeat "0"%char zeros ++ utoa n ++ rest) = n).
    { rewrite atoi_digits_zeros. by apply atoi_digits_utoa. }
    assert (Hhead : ∃ d ds, repeat "0"%char zeros ++ utoa n ++ rest = d :: ds
                            ∧ isdigit d = true).
    { destruct zeros as [|k]; simpl.
      - destruct (utoa_head n) as (d & ds & -> & Hdig).
        by exists d, (ds ++ rest).
      - by eexists _, _. }
    repeat (apply elem_of_cons in Hsg as [->|Hsg]).
    + cbn [app]. destruct Hhead as (d & ds & E & Hdig).
      rewrite (bool_decide_eq_false_2 ([] = str "-")) by done.
      rewrite E in Hd |- *.
      destruct (isdigit_word d Hdig) as (_ & _ & Hs & Hm & Hp).
      cbn [skip_spaces]. by rewrite Hs, Hm, Hp.
    + rewrite (bool_decide_eq_false_2 (str "+" = str "-")) by done.
      change (str "+") with ["+"%char]. cbn [app skip_spaces].
      change (isspace "+") with false. cbn iota.
      change ("+" =? "-")%char with false.
      change ("+" =? "+")%char with true. cbn iota. exact Hd.
    + rewrite (bool_decide_eq_true_2 (str "-" = str "-")) by done.
      change (str "-") with ["-"%char]. cbn [app skip_spaces].
      change (isspace "-") with false. cbn iota.
      change ("-" =? "-")%char with true. cbn iota. by rewrite Hd.
    + by apply elem_of_nil in Hsg.
  - destruct rest as [|c rest]; [done|]. simpl in Hrest.
    apply andb_true_iff in Hrest as [Hs%negb_true_iff Hrest].
    cbn [skip_spaces]. rewrite Hs.
    destruct (c =? "-")%char eqn:Hm; cbn [orb] in Hrest.
    { rewrite atoi_digits_no_leading_digit by done. done. }
    destruct (c =? "+")%char eqn:Hp; cbn [orb] in Hrest.
    { by rewrite atoi_digits_no_leading_digit by done. }
    cbn [atoi_digits]. apply negb_true_iff in Hrest. by rewrite Hrest.
Qed.

Lemma mod_2_32_bits bits x :
  0 <= bits <= 32 -> (x mod 2 ^ 32) mod 2 ^ bits = x mod 2 ^ bits.
Proof.
  intros Hb.
  replace (2 ^ 32) with (2 ^ bits * 2 ^ (32 - bits)).
  - rewrite Z.rem_mul_r by (apply Z.pow_nonzero || apply Z.pow_pos_nonneg; lia).
    rewrite Z.mul_comm, Z.mod_add by (apply Z.pow_nonzero; lia).
    apply Z.mod_mod. apply Z.pow_nonzero; lia.
  - rewrite <- Z.pow_add_r by lia. f_equal. lia.
Qed.

(** The low bits of [atoi], from the number that the text shows. *)
Lemma atoi_masked bits s v :
  0 < bits <= 31 -> number_text s v ->
  atoi s mod 2 ^ bits = masked bits v.
Proof.
  intros Hb Hs. apply number_text_strtol_value in Hs.
  unfold atoi, strtol, int_of_long, masked. rewrite Hs.
  assert (H31 : (2 ^ 31) mod 2 ^ bits = 0).
  { replace 31 with (bits + (31 - bits)) by lia.
    rewrite Z.pow_add_r by lia. rewrite Z.mul_comm.
    apply Z.mod_mul. apply Z.pow_nonzero; lia. }
  assert (Hlow : ∀ x, ((x + 2 ^ 31) mod 2 ^ 32 - 2 ^ 31) mod 2 ^ bits
                      = x mod 2 ^ bits).
  { intros x. rewrite Zminus_mod, mod_2_32_bits by lia.
    rewrite Zplus_mod, H31, Z.add_0_r, Z.mod_mod, Z.sub_0_r, Z.mod_mod;
      (done || apply Z.pow_nonzero; lia). }
  rewrite Hlow.
  assert (Hpos : 0 < 2 ^ bits) by (apply Z.pow_pos_nonneg; lia).
  destruct (Z.ltb_spec LONG_MAX v) as [Hhi|Hhi].
  - rewrite Z.min_l, Z.max_r by (unfold LONG_MAX, LONG_MIN in *; lia).
    unfold LONG_MAX.
    replace (2 ^ 63 - 1) with (2 ^ bits - 1 + 2 ^ bits * (2 ^ (63 - bits) - 1)).
    + rewrite Z.mul_comm, Z.mod_add by lia. apply Z.mod_small. lia.
    + replace (2 ^ 63) with (2 ^ bits * 2 ^ (63 - bits)).
      * ring.
      * rewrite <- Z.pow_add_r by lia. f_equal. lia.
  - rewrite Z.min_r by lia.
    destruct (Z.ltb_spec v LONG_MIN) as [Hlo|Hlo].
    + rewrite Z.max_l by lia. unfold LONG_MIN.
      replace (- 2 ^ 63) with (- 2 ^ (63 - bits) * 2 ^ bits).
      * apply Z.mod_mul. lia.
      * rewrite Z.mul_opp_l, <- Z.pow_add_r by lia. do 2 f_equal. lia.
    + by rewrite Z.max_r by lia.
Qed.

(** ** Every text shows a number *)

Lemma utoa_aux_fuel fuel : ∀ fuel' n acc,
  0 <= n -> (Z.to_nat (Z.log2 n) < fuel)%nat ->
  (Z.to_nat (Z.log2 n) < fuel')%nat ->
  utoa_aux fuel n acc = utoa_aux fuel' n acc.
Proof.
  induction fuel as [|fuel IH]; intros fuel' n acc Hn H1 H2; [lia|].
  destruct fuel' as [|fuel']; [lia|]. cbn [utoa_aux].
  destruct (Z.eqb_spec (n / 10) 0) as [H0|H0]; [done|].
  pose proof (Z.div_mod n 10 ltac:(lia)) as Hdm.
  pose proof (Z.mod_pos_bound n 10 ltac:(lia)) as Hm.
  assert (0 <= n / 10) as Hq by (apply Z.div_pos; lia).
  assert (10 <= n) as H10 by lia.
  pose proof (log2_div10 n H10). pose proof (Z.log2_nonneg (n / 10)).
  apply IH; [done | lia | lia].
Qed.

Lemma utoa_one_digit d : 0 <= d < 10 -> utoa d = [digit d].
Proof.
  intros Hd. unfold utoa. cbn [utoa_aux].
  rewrite Z.mod_small, Z.div_small by lia. done.
Qed.

Lemma utoa_snoc n d :
  0 < n -> 0 <= d < 10 -> utoa (10 * n + d) = utoa n ++ [digit d].
Proof.
  intros Hn Hd. unfold utoa at 1. cbn [utoa_aux].
  assert ((10 * n + d) mod 10 = d) as ->.
  { rewrite Z.add_comm, Z.mul_comm, Z.mod_add by lia.
    apply Z.mod_small; lia. }
  assert ((10 * n + d) / 10 = n) as ->.
  { rewrite Z.add_comm, Z.mul_comm, Z.div_add by lia.
    rewrite Z.div_small by lia. lia. }
  rewrite (proj2 (Z.eqb_neq n 0)) by lia.
  rewrite utoa_aux_app. f_equal. unfold utoa.
  apply utoa_aux_fuel; [lia | | lia].
  assert (Z.log2 n < Z.log2 (10 * n + d)); [|pose proof (Z.log2_nonneg n); lia].
  pose proof (log2_div10 (10 * n + d) ltac:(lia)) as H.
  replace ((10 * n + d) / 10) with n in H; [done|].
  rewrite Z.add_comm, Z.mul_comm, Z.div_add by lia.
  rewrite Z.div_small by lia. lia.
Qed.

Lemma isdigit_inv c :
  isdigit c = true -> 0 <= code c - 48 < 10 ∧ c = digit (code c - 48).
Proof.
  all_chars c; intros H; try discriminate H; by vm_compute.
Qed.

(** A text of digits is the decimal text of a number after leading
    zeros. *)
Lemma digits_utoa ds :
  ds ≠ [] -> forallb isdigit ds = true ->
  ∃ (zeros : nat) (n : Z), 0 <= n ∧ ds = repeat "0"%char zeros ++ utoa n.
Proof.
  induction ds as [|c ds IH] using rev_ind; [done|]. intros _ Hd.
  rewrite forallb_app in Hd. apply andb_true_iff in Hd as [Hds Hc].
  simpl in Hc. rewrite andb_true_r in Hc.
  destruct (isdigit_inv c Hc) as [Hr Hcd].
  destruct ds as [|c0 ds0].
  - exists 0%nat, (code c - 48). split; [lia|].
    rewrite utoa_one_digit by done. by rewrite <- Hcd.
  - destruct (IH ltac:(done) Hds) as (zeros & n & Hn & ->).
    destruct (Z.eq_dec n 0) as [->|Hn0].
    + exists (S zeros), (code c - 48). split; [lia|].
      rewrite (utoa_one_digit (code c - 48)) by done. rewrite <- Hcd.
      change (utoa 0) with ["0"%char].
      rewrite <- app_assoc. cbn [app].
      change ("0"%char :: [c]) with (repeat "0"%char 1 ++ [c]).
      by rewrite app_assoc, <- repeat_app, Nat.add_1_r.
    + exists zeros, (10 * n + (code c - 48)). split; [lia|].
      rewrite utoa_snoc by lia. by rewrite <- Hcd, app_assoc.
Qed.

Lemma split_digits s :
  ∃ ds rest, s = ds ++ rest ∧ forallb isdigit ds = true
             ∧ no_leading_digit rest = true.
Proof.
  induction s as [|c s (ds & rest & -> & Hds & Hrest)].
  - by exists [], [].
  - destruct (isdigit c) eqn:Hc.
    + exists (c :: ds), rest. simpl. by rewrite Hc, Hds.
    + exists [], (c :: ds ++ rest). simpl. by rewrite Hc.
Qed.

Lemma split_spaces s :
  ∃ ws rest, s = ws ++ rest ∧ forallb isspace ws = true
             ∧ match rest with [] => True | c :: _ => isspace c = false end.
Proof.
  induction s as [|c s (ws & rest & -> & Hws & Hrest)].
  - by exists [], [].
  - destruct (isspace c) eqn:Hc.
    + exists (c :: ws), rest. simpl. by rewrite Hc, Hws.
    + by exists [], (c :: ws ++ rest).
Qed.

(** Every text shows a number, and only one. *)
Lemma number_text_total s : ∃ v, number_text s v.
Proof.
  destruct (split_spaces s) as (ws & rest & -> & Hws & Hrest).
  destruct rest as [|c r].
  { exists 0. by apply number_none. }
  assert (Hsigned : ∀ sg, sg ∈ [[]; str "+"; str "-"] ->
            ∀ t, (∃ d t', t = d :: t' ∧ isdigit d = true) ->
            ∃ v, number_text (ws ++ sg ++ t) v).
  { intros sg Hsg t (d & t' & -> & Hd).
    destruct (split_digits (d :: t')) as (ds & rest' & E & Hds & Hr).
    assert (ds ≠ []) as Hne.
    { intros ->. simpl in E. subst rest'. simpl in Hr. by rewrite Hd in Hr. }
    destruct (digits_utoa ds Hne Hds) as (zeros & n & Hn & ->).
    rewrite E, <- app_assoc. eexists. by apply number_digits. }
  destruct (isdigit c) eqn:Hd.
  { apply (Hsigned []); [apply elem_of_cons; by left | by exists c, r]. }
  assert (Hnone : no_leading_digit r = true ∨ ((c =? "-")%char = false
                    ∧ (c =? "+")%char = false) ->
                  ∃ v, number_text (ws ++ c :: r) v).
  { intros H. exists 0. apply number_none; [done|]. simpl.
    rewrite Hrest, Hd. simpl.
    destruct H as [->|[-> ->]]; [by destruct (_ || _) | done]. }
  destruct (c =? "-")%char eqn:Hm.
  { apply Ascii.eqb_eq in Hm as ->.
    destruct r as [|d r']; [apply Hnone; by left|].
    destruct (isdigit d) eqn:Hdd.
    - apply (Hsigned (str "-") ltac:(do 2 (apply elem_of_cons; right);
                                      apply elem_of_cons; by left)
               (d :: r')). by exists d, r'.
    - apply Hnone. left. simpl. by rewrite Hdd. }
  destruct (c =? "+")%char eqn:Hp.
  { apply Ascii.eqb_eq in Hp as ->.
    destruct r as [|d r']; [apply Hnone; by left|].
    destruct (isdigit d) eqn:Hdd.
    - apply (Hsigned (str "+") ltac:(apply elem_of_cons; right;
                                      apply elem_of_cons; by left)
               (d :: r')). by exists d, r'.
    - apply Hnone. left. simpl. by rewrite Hdd. }
  apply Hnone. by right.
Qed.

Lemma number_text_unique s v v' :
  number_text s v -> number_text s v' -> v' = v.
Proof.
  intros H H'. apply number_text_strtol_value in H, H'. congruence.
Qed.

Global Arguments utoa : simpl never.

(** ** The lookup of a save *)

Lemma String_Equals_ignoreCase_lower p q s :
  map tolower p = map tolower q ->
  String_Equals_ignoreCase p s = String_Equals_ignoreCase q s.
Proof.
  intros H. apply eq_true_iff_eq.
  rewrite !String_Equals_ignoreCase_spec. by rewrite H.
Qed.

Lemma lowest_match_lower p q saves :
  map tolower p = map tolower q ->
  lowest_match p saves = lowest_match q saves.
Proof.
  intros H. induction saves as [|s saves IH]; simpl; [done|].
  by rewrite (String_Equals_ignoreCase_lower p q s H), IH.
Qed.

Lemma lowest_match_Some p saves : ∀ i,
  lowest_match p saves = Some i ->
  ∃ s, saves !! i = Some s ∧ String_Equals_ignoreCase p s = true
       ∧ ∀ j s', (j < i)%nat -> saves !! j = Some s' ->
                 String_Equals_ignoreCase p s' = false.
Proof.
  induction saves as [|s saves IH]; intros i; simpl; [done|].
  destruct (String_Equals_ignoreCase p s) eqn:E.
  - intros [= <-]. exists s. repeat split; [done|]. intros; lia.
  - destruct (lowest_match p saves) as [i'|]; [|done]. simpl.
    intros [= <-]. destruct (IH i' eq_refl) as (s0 & H1 & H2 & H3).
    exists s0. repeat split; [done | done |].
    intros [|j] s' Hj Hs'; simpl in Hs'; [congruence|].
    eapply H3; [|done]. lia.
Qed.

Lemma lowest_match_None p saves :
  lowest_match p saves = None ->
  ∀ s, s ∈ saves -> String_Equals_ignoreCase p s = false.
Proof.
  induction saves as [|s0 saves IH]; simpl; intros H s Hs.
  - by apply elem_of_nil in Hs.
  - destruct (String_Equals_ignoreCase p s0) eqn:E; [done|].
    destruct (lowest_match p saves); [done|].
    apply elem_of_cons in Hs as [->|Hs]; [done | by apply IH].
Qed.



Lemma LegacyScriptRead_save_lowest_match p saves : ∀ n,
  LegacyScriptRead_save p saves n
  = match lowest_match p saves with
    | Some i => Z.of_nat (n + i) mod 256
    | None => SAVE_INDEX_INVALID
    end.
Proof.
  induction saves as [|s saves IH]; intros n; simpl; [done|].
  destruct (String_Equals_ignoreCase p s).
  - by rewrite Nat.add_0_r.
  - rewrite IH. destruct (lowest_match p saves); simpl; [|done].
    do 2 f_equal. lia.
Qed.

Lemma land_255 a : Z.land a 255 = a mod 256.
Proof. apply (Z.land_ones a 8). lia. Qed.

Lemma land_65535 a : Z.land a 65535 = a mod 65536.
Proof. apply (Z.land_ones a 16). lia. Qed.

Lemma line_text_take n s : line_text s = true -> line_text (take n s) = true.
Proof.
  revert n; induction s as [|c s IH]; intros [|n]; simpl; try done.
  intros [-> H]%andb_true_iff. by apply IH.
Qed.

Lemma safe_strcpy_text s n :
  line_text s = true -> (length s <= 127)%nat ->
  line_text (safe_strcpy [] s n) = true
  ∧ (length (safe_strcpy [] s n) <= 127)%nat
  ∧ safe_strcpy [] (safe_strcpy [] s n) n = safe_strcpy [] s n.
Proof.
  intros Ht Hl. destruct n as [|n]; simpl; [repeat split; lia|].
  rewrite (c_str_line_text s Ht).
  assert (line_text (take n s) = true) as Ht' by (by apply line_text_take).
  rewrite (c_str_line_text _ Ht'). repeat split; [done | |].
  - rewrite length_take. lia.
  - by rewrite take_take, Nat.min_id.
Qed.

(** ** Whole lines *)

(** A line that is one word. *)
Lemma tokenize_word kw rest :
  kw ≠ [] -> word_text kw = true -> (length kw <= 127)%nat ->
  tokenize (kw ++ LF :: rest) = ([kw], rest).
Proof.
  intros Hne Hw Hl. rewrite tokenize_first by done.
  by rewrite fields_loop_LF by (simpl; lia).
Qed.

(** A line of a word and a text, for a first word that sets load-mode: the
    text is one field, with its spaces. *)
Lemma tokenize_load_mode kw a rest :
  kw ≠ [] -> word_text kw = true -> (length kw <= 127)%nat ->
  load_flag kw = true ->
  line_text a = true -> (length a <= 127)%nat ->
  tokenize (kw ++ " "%char :: a ++ LF :: rest) = ([kw; a], rest).
Proof.
  intros Hne Hw Hl Hload Ha Hla. rewrite tokenize_first by done.
  rewrite fields_loop_space_first, Hload.
  rewrite fields_loop_field; [| simpl; lia | done | simpl; lia].
  by rewrite fields_loop_LF by (simpl; lia).
Qed.

(** A line of two words, for a first word that does not set load-mode. *)
Lemma tokenize_two_words kw a rest :
  kw ≠ [] -> word_text kw = true -> (length kw <= 127)%nat ->
  load_flag kw = false ->
  word_text a = true -> (length a <= 127)%nat ->
  tokenize (kw ++ " "%char :: a ++ LF :: rest) = ([kw; a], rest).
Proof.
  intros Hne Hw Hl Hload Ha Hla. rewrite tokenize_first by done.
  rewrite fields_loop_space_first, Hload.
  rewrite fields_loop_field; [| simpl; lia | | simpl; lia].
  - by rewrite fields_loop_LF by (simpl; lia).
  - simpl. by rewrite andb_false_r.
Qed.

(** A line of three words, for a first word that sets no mode. *)
Lemma tokenize_three_words kw a b rest :
  kw ≠ [] -> word_text kw = true -> (length kw <= 127)%nat ->
  load_flag kw = false -> sprite_flag kw = false ->
  word_text a = true -> (length a <= 127)%nat ->
  word_text b = true -> (length b <= 127)%nat ->
  tokenize (kw ++ " "%char :: a ++ " "%char :: b ++ LF :: rest)
  = ([kw; a; b], rest).
Proof.
  intros Hne Hw Hl Hload Hsprite Ha Hla Hb Hlb. rewrite tokenize_first by done.
  rewrite fields_loop_space_first, Hload, Hsprite.
  rewrite fields_loop_field; [| simpl; lia | done | simpl; lia].
  rewrite fields_loop_space_later; [| simpl; lia | done].
  rewrite fields_loop_field; [| simpl; lia | done | simpl; lia].
  by rewrite fields_loop_LF by (simpl; lia).
Qed.

(** A line of a word, a word and a text, for a first word that sets
    sprite-mode: the second field ends at the space, the third keeps its
    spaces. *)
Lemma tokenize_sprite_mode kw a b rest :
  kw ≠ [] -> word_text kw = true -> (length kw <= 127)%nat ->
  load_flag kw = false -> sprite_flag kw = true ->
  word_text a = true -> (length a <= 127)%nat ->
  line_text b = true -> (length b <= 127)%nat ->
  tokenize (kw ++ " "%char :: a ++ " "%char :: b ++ LF :: rest)
  = ([kw; a; b], rest).
Proof.
  intros Hne Hw Hl Hload Hsprite Ha Hla Hb Hlb. rewrite tokenize_first by done.
  rewrite fields_loop_space_first, Hload, Hsprite.
  rewrite fields_loop_field; [| simpl; lia | done | simpl; lia].
  rewrite fields_loop_space_later; [| simpl; lia | done].
  rewrite fields_loop_field; [| simpl; lia | done | simpl; lia].
  by rewrite fields_loop_LF by (simpl; lia).
Qed.

(** A line that is a comment. *)
Lemma tokenize_comment l rest :
  forallb (fun c => negb ((c =? LF)%char || (c =? CR)%char)) l = true ->
  tokenize ("#"%char :: l ++ LF :: rest) = ([[]], rest).
Proof.
  intros Hl. unfold tokenize. cbn [fields_loop]. simpl.
  rewrite fields_loop_comment; [done | simpl; lia | done].
Qed.

(** The first words that match [LOAD], [LOADSC] or [FOLLOW] without regard to
    case set the flags. *)
Lemma load_flag_lower kw :
  map tolower kw = map tolower (str "LOAD")
  ∨ map tolower kw = map tolower (str "LOADSC") ->
  kw ≠ [] ∧ word_text kw = true ∧ (length kw <= 127)%nat
  ∧ load_flag kw = true.
Proof.
  intros H.
  assert (word_text kw = true) as Hw.
  { by destruct H as [H|H]; rewrite (map_tolower_word_text kw _ H). }
  unfold load_flag, _strnicmp.
  rewrite (c_str_line_text kw) by (by apply word_text_line_text).
  destruct H as [H|H]; pose proof (map_tolower_length kw _ H) as Hl;
    simpl in Hl; rewrite Hl;
    (split; [by intros ->|]); (split; [done|]); (split; [lia|]).
  - rewrite (take_ge kw 4) by lia.
    change (take 4 (str "LOAD")) with (str "LOAD").
    by rewrite (stricmp_lower kw _ H).
  - apply orb_true_iff; right.
    rewrite (take_ge kw 6) by lia.
    change (take 6 (str "LOADSC")) with (str "LOADSC").
    by rewrite (stricmp_lower kw _ H).
Qed.

Lemma stricmp_lower_ne a : ∀ b,
  Forall (fun c => c ≠ NUL) a -> Forall (fun c => c ≠ NUL) b ->
  map tolower a ≠ map tolower b -> _stricmp a b ≠ 0.
Proof.
  assert (Hlow : ∀ c, c ≠ NUL -> code (tolower c) ≠ 0).
  { intros c Hc H. apply code_NUL in H. apply Hc.
    revert H. all_chars c; vm_compute; congruence. }
  assert (Hcode : ∀ c d, code c - code d = 0 -> c = d).
  { intros c d H. unfold code in H.
    assert (nat_of_ascii c = nat_of_ascii d) as E by lia.
    by rewrite <- (ascii_nat_embedding c), E, ascii_nat_embedding. }
  induction a as [|c a IH]; intros [|d b] Ha Hb H; simpl in *; try done.
  - inversion Hb as [|? ? Hd ?]; subst. pose proof (Hlow d Hd). lia.
  - inversion Ha as [|? ? Hc ?]; subst. by apply Hlow.
  - inversion Ha; inversion Hb; subst.
    destruct (Ascii.eqb_spec (tolower c) (tolower d)) as [E|E].
    + apply IH; [done | done |]. intros E'. apply H. by rewrite E, E'.
    + intros H0. by apply E, Hcode.
Qed.

Lemma sprite_flag_lower kw :
  map tolower kw = map tolower (str "FOLLOW") ->
  kw ≠ [] ∧ word_text kw = true ∧ (length kw <= 127)%nat
  ∧ load_flag kw = false ∧ sprite_flag kw = true.
Proof.
  intros H.
  assert (word_text kw = true) as Hw.
  { by rewrite (map_tolower_word_text kw _ H). }
  pose proof (map_tolower_length kw _ H) as Hl. simpl in Hl.
  assert (load_flag kw = false) as Hload.
  { unfold load_flag, _strnicmp.
    rewrite (c_str_line_text kw) by (by apply word_text_line_text).
    rewrite Hl. cbn [negb andb orb Nat.eqb]. rewrite (take_ge kw 6) by lia.
    change (take 6 (str "LOADSC")) with (str "LOADSC").
    apply Z.eqb_neq, stricmp_lower_ne.
    - rewrite <- (c_str_line_text kw) by (by apply word_text_line_text).
      apply c_str_no_NUL.
    - by repeat constructor.
    - by rewrite H. }
  split; [by intros ->|]. split; [done|]. split; [lia|]. split; [done|].
  unfold sprite_flag, _strnicmp. rewrite Hload.
  rewrite (c_str_line_text kw) by (by apply word_text_line_text).
  rewrite Hl. cbn [negb andb Nat.eqb]. rewrite (take_ge kw 6) by lia.
  change (take 6 (str "FOLLOW")) with (str "FOLLOW").
  by rewrite (stricmp_lower kw _ H).
Qed.

(** ** Writing a command and reading it back *)

Lemma String_Format_short size text :
  (length text < size)%nat -> String_Format size text = text.
Proof. intros H. unfold String_Format. apply take_ge. lia. Qed.

Lemma utoa_field n :
  0 <= n < 65536 ->
  word_text (utoa n) = true ∧ (length (utoa n) <= 17)%nat
  ∧ c_str (utoa n) = utoa n.
Proof.
  intros Hn. pose proof (utoa_length n Hn).
  assert (word_text (utoa n) = true) as Hw by apply utoa_word_text.
  repeat split; [done | lia |].
  by apply c_str_line_text, word_text_line_text.
Qed.

(** ** The text of the writer *)

Lemma no_NUL_app a b : no_NUL (a ++ b) = no_NUL a && no_NUL b.
Proof. apply forallb_app. Qed.

Lemma no_NUL_c_str s : no_NUL (c_str s) = true.
Proof.
  induction s as [|c s IH]; simpl; [done|].
  destruct (c =? NUL)%char eqn:E; [done|]. simpl. by rewrite E.
Qed.

Lemma c_str_no_NUL_id s : no_NUL s = true -> c_str s = s.
Proof.
  induction s as [|c s IH]; simpl; [done|].
  intros [Hc Hs]%andb_true_iff. apply negb_true_iff in Hc.
  by rewrite Hc, IH.
Qed.

Lemma no_NUL_take n s : no_NUL s = true -> no_NUL (take n s) = true.
Proof.
  revert n; induction s as [|c s IH]; intros [|n]; simpl; try done.
  intros [-> H]%andb_true_iff. by apply IH.
Qed.

Lemma no_NUL_utoa n : no_NUL (utoa n) = true.
Proof.
  pose proof (utoa_isdigit n) as H.
  induction (utoa n) as [|c s IH]; simpl in *; [done|].
  apply andb_true_iff in H as [Hc Hs]. rewrite IH by done.
  destruct (isdigit_word c Hc) as (Hl & _).
  apply line_char_inv in Hl as (-> & _). done.
Qed.

(** ** The fields of [LegacyScriptGetLine] on whole lines *)

Lemma LegacyScriptGetLine_tokenize stream parts fields rest :
  tokenize stream = (fields, rest) ->
  Forall (fun f => line_text f = true) fields ->
  (LegacyScriptGetLine stream parts).2 = rest
  ∧ ∀ k, (k < 3)%nat ->
      field (LegacyScriptGetLine stream parts).1 k = nth k fields [].
Proof.
  intros Htok Hf.
  destruct (LegacyScriptGetLine_fields stream parts) as [Hrest Hfields].
  rewrite Htok in Hrest, Hfields. split; [done|].
  intros k Hk. rewrite Hfields by done. unfold field_of. cbn [fst].
  apply c_str_line_text.
  destruct (fields !! k) as [f|] eqn:E.
  - rewrite (nth_lookup_Some _ _ _ _ E).
    rewrite Forall_lookup in Hf. by apply (Hf k).
  - by rewrite nth_overflow by (by apply lookup_ge_None).
Qed.









Lemma line_fields_tokenize stream parts f0 f1 f2 rest :
  tokenize stream = ([f0; f1; f2], rest) ∨
  (f2 = [] ∧ (tokenize stream = ([f0; f1], rest)
              ∨ (f1 = [] ∧ tokenize stream = ([f0], rest)))) ->
  line_text f0 = true -> line_text f1 = true -> line_text f2 = true ->
  line_fields stream parts = (f0, f1, f2, rest).
Proof.
  intros Htok H0 H1 H2. unfold line_fields. cbv zeta.
  destruct Htok as [Htok|[-> [Htok|[-> Htok]]]];
    (destruct (LegacyScriptGetLine_tokenize stream parts _ rest Htok)
       as [-> Hfields]; [by repeat constructor|]);
    by rewrite !Hfields by lia.
Qed.


(** ** The reader and the writer, for any capacity of the text fields *)

Section ReaderWriter.

Variable USER_STRING_MAX_LENGTH : nat.
Variable TITLE_COMMAND_SCENARIO_LENGTH : nat.

Abbreviation Read_command :=
  (LegacyScriptRead_command USER_STRING_MAX_LENGTH
     TITLE_COMMAND_SCENARIO_LENGTH).
Abbreviation Read_loop :=
  (LegacyScriptRead_loop USER_STRING_MAX_LENGTH TITLE_COMMAND_SCENARIO_LENGTH).
Abbreviation Read :=
  (LegacyScriptRead USER_STRING_MAX_LENGTH TITLE_COMMAND_SCENARIO_LENGTH).
Abbreviation commands_of :=
  (line_commands USER_STRING_MAX_LENGTH TITLE_COMMAND_SCENARIO_LENGTH).
Abbreviation Decoded :=
  (decoded USER_STRING_MAX_LENGTH TITLE_COMMAND_SCENARIO_LENGTH).

Lemma LegacyScriptRead_loop_step fuel fs parts saves :
  Read_loop (S fuel) fs parts saves
  = commands_of (tokenize fs).1 saves
    ++ match (tokenize fs).2 with
       | [] => []
       | _ :: _ =>
           Read_loop fuel (tokenize fs).2 (LegacyScriptGetLine fs parts).1
             saves
       end.
Proof.
  cbn [LegacyScriptRead_loop].
  destruct (LegacyScriptGetLine_fields fs parts) as [Hrest Hfields].
  destruct (LegacyScriptGetLine fs parts) as [parts' fs'].
  simpl in Hrest, Hfields. subst fs'.
  rewrite !Hfields by lia. unfold line_commands. cbn [fst].
  destruct (tokenize fs).2; [by rewrite app_nil_r | done].
Qed.

(** The fuel above the length of the stream is never used up, and the
    content of the buffer does not matter. *)
Lemma LegacyScriptRead_loop_fuel fuel :
  ∀ fuel' fs parts parts' saves,
    (length fs < fuel)%nat -> (length fs < fuel')%nat ->
    Read_loop fuel fs parts saves = Read_loop fuel' fs parts' saves.
Proof.
  induction fuel as [|fuel IH]; intros fuel' fs parts parts' saves H1 H2;
    [lia|].
  destruct fuel' as [|fuel']; [lia|].
  rewrite !LegacyScriptRead_loop_step. f_equal.
  destruct (tokenize fs).2 as [|c r] eqn:E; [done|].
  assert (fs ≠ []) as Hne.
  { intros ->. by vm_compute in E. }
  pose proof (tokenize_shorter fs Hne) as Hs. rewrite E in Hs.
  apply IH; lia.
Qed.

Lemma LegacyScriptRead_uninitialised uninitialised uninitialised' script
    saves :
  Read uninitialised script saves = Read uninitialised' script saves.
Proof. apply LegacyScriptRead_loop_fuel; lia. Qed.

(** The equation of the [do ... while] loop: the commands of the first
    line, then, when the stream is not exhausted, those of the rest. *)
Lemma LegacyScriptRead_step uninitialised script saves :
  Read uninitialised script saves
  = commands_of (tokenize script).1 saves
    ++ match (tokenize script).2 with
       | [] => []
       | _ :: _ => Read uninitialised (tokenize script).2 saves
       end.
Proof.
  unfold LegacyScriptRead. rewrite LegacyScriptRead_loop_step. f_equal.
  destruct (tokenize script).2 as [|c r] eqn:E; [done|].
  assert (script ≠ []) as Hne.
  { intros ->. by vm_compute in E. }
  pose proof (tokenize_shorter script Hne) as Hs. rewrite E in Hs.
  apply LegacyScriptRead_loop_fuel; lia.
Qed.

Lemma Read_command_LOAD p1 p2 saves :
  Read_command (str "LOAD") p1 p2 saves
  = Load_command (LegacyScriptRead_save p1 saves 0).
Proof. reflexivity. Qed.

Lemma Read_command_LOCATION p1 p2 saves :
  Read_command (str "LOCATION") p1 p2 saves
  = Location_command (Z.land (atoi p1) 255) (Z.land (atoi p2) 255).
Proof. reflexivity. Qed.

Lemma Read_command_ROTATE p1 p2 saves :
  Read_command (str "ROTATE") p1 p2 saves
  = Rotate_command (Z.land (atoi p1) 255).
Proof. reflexivity. Qed.

Lemma Read_command_ZOOM p1 p2 saves :
  Read_command (str "ZOOM") p1 p2 saves
  = Zoom_command (Z.land (atoi p1) 255).
Proof. reflexivity. Qed.

Lemma Read_command_SPEED p1 p2 saves :
  Read_command (str "SPEED") p1 p2 saves
  = Speed_command (Z.max 1 (Z.min 4 (Z.land (atoi p1) 255))).
Proof. reflexivity. Qed.

Lemma Read_command_FOLLOW p1 p2 saves :
  Read_command (str "FOLLOW") p1 p2 saves
  = Follow_command (Z.land (atoi p1) 65535)
      (safe_strcpy [] p2 USER_STRING_MAX_LENGTH).
Proof. reflexivity. Qed.

Lemma Read_command_WAIT p1 p2 saves :
  Read_command (str "WAIT") p1 p2 saves
  = Wait_command (Z.land (atoi p1) 65535).
Proof. reflexivity. Qed.

Lemma Read_command_RESTART p1 p2 saves :
  Read_command (str "RESTART") p1 p2 saves = Restart_command.
Proof. reflexivity. Qed.

Lemma Read_command_END p1 p2 saves :
  Read_command (str "END") p1 p2 saves = End_command.
Proof. reflexivity. Qed.

Lemma Read_command_LOADSC p1 p2 saves :
  Read_command (str "LOADSC") p1 p2 saves
  = LoadSc_command (safe_strcpy [] p1 TITLE_COMMAND_SCENARIO_LENGTH).
Proof. reflexivity. Qed.

(** Every command that the reader keeps is one of [decoded]. *)
Lemma Read_command_decoded token p1 p2 saves :
  line_text p1 = true -> (length p1 <= 127)%nat ->
  line_text p2 = true -> (length p2 <= 127)%nat ->
  Type_ (Read_command token p1 p2 saves) ≠ TitleScript.Undefined ->
  decoded USER_STRING_MAX_LENGTH TITLE_COMMAND_SCENARIO_LENGTH saves
    (Read_command token p1 p2 saves).
Proof.
  intros Ht1 Hl1 Ht2 Hl2.
  pose proof (Z.mod_pos_bound (atoi p1) 256 ltac:(lia)).
  pose proof (Z.mod_pos_bound (atoi p2) 256 ltac:(lia)).
  pose proof (Z.mod_pos_bound (atoi p1) 65536 ltac:(lia)).
  unfold LegacyScriptRead_command.
  destruct token as [|t token]; [done|].
  repeat match goal with
         | |- context [if ?b then _ else _] => destruct b
         end; intros Hty; try done.
  - by apply decoded_Load.
  - apply decoded_Location; by rewrite land_255.
  - apply decoded_Rotate; by rewrite land_255.
  - apply decoded_Zoom; by rewrite land_255.
  - apply decoded_Speed; lia.
  - apply decoded_Follow; [by rewrite land_65535 | done | done].
  - apply decoded_Wait; by rewrite land_65535.
  - apply decoded_Restart.
  - apply decoded_End.
  - by apply decoded_LoadSc.
Qed.

Section RoundTrip.

Variable seq : TitleSequence.
Hypothesis saves_short : (length (Saves seq) <= 255)%nat.
Hypothesis no_placeholder :
  lowest_match (str "<No save file>") (Saves seq) = None.

Abbreviation Reads_back :=
  (reads_back USER_STRING_MAX_LENGTH TITLE_COMMAND_SCENARIO_LENGTH seq).

Lemma reads_back_one_number kw (n : Z) command :
  kw ≠ [] -> word_text kw = true -> (length kw <= 100)%nat ->
  load_flag kw = false ->
  0 <= n < 65536 ->
  LegacyScriptWrite_command seq command
  = String_Format 128 ((kw ++ [" "%char]) ++ utoa n) ->
  Read_command (c_str kw) (utoa n) [] (Saves seq) = command ->
  Type_ command ≠ TitleScript.Undefined ->
  Reads_back command.
Proof.
  intros Hne Hw Hl Hload Hn Hwrite Hread Hty rest.
  destruct (utoa_field n Hn) as (Hnw & Hnl & Hnc).
  exists [kw; utoa n]. rewrite Hwrite.
  rewrite String_Format_short
    by (rewrite !length_app; simpl; lia).
  rewrite <- !app_assoc. simpl app. split.
  - apply tokenize_two_words; try done; lia.
  - unfold line_commands, field_of. cbn [nth]. rewrite Hnc.
    change (c_str []) with (@nil ascii). rewrite Hread.
    by destruct (Type_ command).
Qed.

Lemma reads_back_Location x y :
  0 <= x < 256 -> 0 <= y < 256 -> Reads_back (Location_command x y).
Proof.
  intros Hx Hy rest.
  destruct (utoa_field x ltac:(lia)) as (Hxw & Hxl & Hxc).
  destruct (utoa_field y ltac:(lia)) as (Hyw & Hyl & Hyc).
  exists [str "LOCATION"; utoa x; utoa y].
  change (LegacyScriptWrite_command seq (Location_command x y))
    with (String_Format 128
            (str "LOCATION " ++ utoa x ++ str " " ++ utoa y)).
  rewrite String_Format_short by (rewrite !length_app; simpl; lia).
  split.
  - rewrite <- !app_assoc.
    apply (tokenize_three_words (str "LOCATION")); try done; simpl; lia.
  - unfold line_commands, field_of. cbn [nth]. rewrite Hxc, Hyc.
    change (c_str (str "LOCATION")) with (str "LOCATION").
    rewrite Read_command_LOCATION, !atoi_utoa, !land_255 by lia.
    by rewrite !Z.mod_small by lia.
Qed.

Lemma reads_back_Rotate n : 0 <= n < 256 -> Reads_back (Rotate_command n).
Proof.
  intros Hn.
  apply (reads_back_one_number (str "ROTATE") n); try done;
    [simpl; lia | lia |].
  change (c_str (str "ROTATE")) with (str "ROTATE").
  rewrite Read_command_ROTATE, atoi_utoa, land_255 by lia.
  by rewrite Z.mod_small by lia.
Qed.

Lemma reads_back_Zoom n : 0 <= n < 256 -> Reads_back (Zoom_command n).
Proof.
  intros Hn.
  apply (reads_back_one_number (str "ZOOM") n); try done;
    [simpl; lia | lia |].
  change (c_str (str "ZOOM")) with (str "ZOOM").
  rewrite Read_command_ZOOM, atoi_utoa, land_255 by lia.
  by rewrite Z.mod_small by lia.
Qed.

Lemma reads_back_Speed n : 1 <= n <= 4 -> Reads_back (Speed_command n).
Proof.
  intros Hn.
  apply (reads_back_one_number (str "SPEED") n); try done;
    [simpl; lia | lia |].
  change (c_str (str "SPEED")) with (str "SPEED").
  rewrite Read_command_SPEED, atoi_utoa, land_255 by lia.
  rewrite Z.mod_small by lia. f_equal. lia.
Qed.

Lemma reads_back_Wait n : 0 <= n < 65536 -> Reads_back (Wait_command n).
Proof.
  intros Hn.
  apply (reads_back_one_number (str "WAIT") n); try done; [simpl; lia|].
  change (c_str (str "WAIT")) with (str "WAIT").
  rewrite Read_command_WAIT, atoi_utoa, land_65535 by lia.
  by rewrite Z.mod_small by lia.
Qed.

Lemma reads_back_Restart : Reads_back Restart_command.
Proof.
  intros rest. exists [str "RESTART"]. split; [|done].
  by apply (tokenize_word (str "RESTART")); [| |simpl; lia].
Qed.

Lemma reads_back_End : Reads_back End_command.
Proof.
  intros rest. exists [str "END"]. split; [|done].
  by apply (tokenize_word (str "END")); [| |simpl; lia].
Qed.

Lemma reads_back_Follow n part2 :
  0 <= n < 65536 -> line_text part2 = true -> (length part2 <= 127)%nat ->
  Reads_back (Follow_command n (safe_strcpy [] part2 USER_STRING_MAX_LENGTH)).
Proof.
  intros Hn Ht Hl rest.
  destruct (utoa_field n Hn) as (Hnw & Hnl & Hnc).
  destruct (safe_strcpy_text part2 USER_STRING_MAX_LENGTH Ht Hl)
    as (Hst & Hsl & Hss).
  set (name := safe_strcpy [] part2 USER_STRING_MAX_LENGTH) in *.
  exists [str "FOLLOW"; utoa n; name].
  change (LegacyScriptWrite_command seq (Follow_command n name))
    with (String_Format 128 (str "FOLLOW " ++ utoa n ++ str " ")
          ++ c_str name).
  rewrite String_Format_short by (rewrite !length_app; simpl; lia).
  rewrite (c_str_line_text name Hst). split.
  - rewrite <- !app_assoc.
    apply (tokenize_sprite_mode (str "FOLLOW")); try done; simpl; lia.
  - unfold line_commands, field_of. cbn [nth].
    rewrite Hnc, (c_str_line_text name Hst).
    change (c_str (str "FOLLOW")) with (str "FOLLOW").
    rewrite Read_command_FOLLOW, atoi_utoa, land_65535, Hss by lia.
    by rewrite Z.mod_small by lia.
Qed.

Lemma reads_back_LoadSc part1 :
  line_text part1 = true -> (length part1 <= 127)%nat ->
  safe_strcpy [] part1 TITLE_COMMAND_SCENARIO_LENGTH ≠ [] ->
  Reads_back
    (LoadSc_command (safe_strcpy [] part1 TITLE_COMMAND_SCENARIO_LENGTH)).
Proof.
  intros Ht Hl Hne rest.
  destruct (safe_strcpy_text part1 TITLE_COMMAND_SCENARIO_LENGTH Ht Hl)
    as (Hst & Hsl & Hss).
  set (name := safe_strcpy [] part1 TITLE_COMMAND_SCENARIO_LENGTH) in *.
  exists [str "LOADSC"; name].
  assert (LegacyScriptWrite_command seq (LoadSc_command name)
          = str "LOADSC" ++ " "%char :: name) as ->.
  { unfold LegacyScriptWrite_command. cbn [Type_ LoadSc_command set_Scenario
      set_Type Scenario].
    rewrite (c_str_line_text name Hst). by destruct name. }
  split.
  - rewrite <- !app_assoc.
    apply (tokenize_load_mode (str "LOADSC")); try done; simpl; lia.
  - unfold line_commands, field_of. cbn [nth].
    rewrite (c_str_line_text name Hst).
    change (c_str (str "LOADSC")) with (str "LOADSC").
    by rewrite Read_command_LOADSC, Hss.
Qed.

Lemma reads_back_Load part1 :
  line_text part1 = true -> (length part1 <= 127)%nat ->
  Reads_back (Load_command (LegacyScriptRead_save part1 (Saves seq) 0)).
Proof.
  intros Ht Hl rest.
  rewrite LegacyScriptRead_save_lowest_match.
  destruct (lowest_match part1 (Saves seq)) as [i|] eqn:Hi.
  - destruct (lowest_match_Some _ _ _ Hi) as (save & Hsave & Heq & _).
    apply String_Equals_ignoreCase_spec in Heq.
    pose proof (lookup_lt_Some _ _ _ Hsave) as Hlt.
    assert (line_text save = true) as Hst
      by (by rewrite <- (map_tolower_line_text _ _ Heq)).
    assert (length save <= 127)%nat as Hsl
      by (by rewrite <- (map_tolower_length _ _ Heq)).
    rewrite Nat.add_0_l, Z.mod_small by lia.
    exists [str "LOAD"; save].
    assert (LegacyScriptWrite_command seq (Load_command (Z.of_nat i))
            = str "LOAD" ++ " "%char :: save) as ->.
    { unfold LegacyScriptWrite_command. cbn [Type_ Load_command
        set_SaveIndex set_Type SaveIndex].
      rewrite (proj2 (Z.ltb_lt _ _)) by lia.
      rewrite Nat2Z.id, Hsave. simpl default.
      by rewrite (c_str_line_text save Hst). }
    split.
    + rewrite <- !app_assoc.
      apply (tokenize_load_mode (str "LOAD")); try done; simpl; lia.
    + unfold line_commands, field_of. cbn [nth].
      rewrite (c_str_line_text save Hst).
      change (c_str (str "LOAD")) with (str "LOAD").
      rewrite Read_command_LOAD, LegacyScriptRead_save_lowest_match.
      rewrite <- (lowest_match_lower _ _ _ Heq), Hi.
      rewrite Nat.add_0_l, Z.mod_small by lia. done.
  - exists [str "LOAD"; str "<No save file>"].
    assert (LegacyScriptWrite_command seq (Load_command SAVE_INDEX_INVALID)
            = str "LOAD" ++ " "%char :: str "<No save file>") as ->.
    { unfold LegacyScriptWrite_command. cbn [Type_ Load_command
        set_SaveIndex set_Type SaveIndex].
      by rewrite (proj2 (Z.ltb_ge _ _)) by (unfold SAVE_INDEX_INVALID; lia). }
    split.
    + rewrite <- !app_assoc.
      apply (tokenize_load_mode (str "LOAD")); try done; simpl; lia.
    + unfold line_commands, field_of. cbn [nth].
      change (c_str (str "<No save file>")) with (str "<No save file>").
      change (c_str (str "LOAD")) with (str "LOAD").
      rewrite Read_command_LOAD, LegacyScriptRead_save_lowest_match.
      by rewrite no_placeholder.
Qed.

(** Every command of the reader, but a [LoadSc] without a name, reads back
    from the line that the writer makes of it. *)
Lemma decoded_reads_back command :
  Decoded (Saves seq) command ->
  (Type_ command = TitleScript.LoadSc -> Scenario command ≠ []) ->
  Reads_back command.
Proof.
  intros [] Hsc.
  - by apply reads_back_Load.
  - by apply reads_back_Location.
  - by apply reads_back_Rotate.
  - by apply reads_back_Zoom.
  - by apply reads_back_Speed.
  - by apply reads_back_Follow.
  - by apply reads_back_Wait.
  - apply reads_back_Restart.
  - apply reads_back_End.
  - apply reads_back_LoadSc; [done | done |]. by apply Hsc.
Qed.

End RoundTrip.

Lemma no_NUL_Write_command seq command :
  no_NUL (LegacyScriptWrite_command seq command) = true.
Proof.
  unfold LegacyScriptWrite_command, String_Format.
  destruct (Type_ command); try done;
    try (apply no_NUL_take; rewrite ?no_NUL_app, ?no_NUL_utoa; done).
  - rewrite no_NUL_app. apply andb_true_iff; split.
    + apply no_NUL_take. by rewrite !no_NUL_app, no_NUL_utoa.
    + apply no_NUL_c_str.
  - destruct (SaveIndex command <? Z.of_nat (length (Saves seq))); [|done].
    by rewrite no_NUL_app, no_NUL_c_str.
  - pose proof (no_NUL_c_str (Scenario command)) as H.
    destruct (c_str (Scenario command)); [done|].
    by rewrite no_NUL_app, H.
Qed.

Lemma no_NUL_Write_commands seq commands :
  no_NUL (LegacyScriptWrite_commands seq commands) = true.
Proof.
  induction commands as [|c cs IH]; simpl; [done|].
  rewrite no_NUL_app, no_NUL_Write_command. simpl. exact IH.
Qed.

Lemma LegacyScriptWrite_text seq :
  LegacyScriptWrite seq
  = "#"%char
    :: (str " SCRIPT FOR " ++ c_str (Name seq))
    ++ LF :: LegacyScriptWrite_commands seq (Commands seq).
Proof.
  unfold LegacyScriptWrite. rewrite c_str_no_NUL_id.
  - by rewrite <- app_assoc.
  - by rewrite !no_NUL_app, no_NUL_c_str, no_NUL_Write_commands.
Qed.

Lemma Write_commands_not_nil seq command commands :
  LegacyScriptWrite_commands seq (command :: commands) ≠ [].
Proof. simpl. by destruct (LegacyScriptWrite_command seq command). Qed.

(** ** The commands of the reader *)

Lemma line_commands_decoded stream saves :
  Forall (Decoded saves) (commands_of (tokenize stream).1 saves).
Proof.
  unfold line_commands.
  destruct (field_of_tokenize stream 1) as [Ht1 Hl1].
  destruct (field_of_tokenize stream 2) as [Ht2 Hl2].
  destruct (TitleScript.eqb _ _) eqn:E; constructor; [|done].
  apply Read_command_decoded; try done.
  intros H. by rewrite H in E.
Qed.

Lemma LegacyScriptRead_loop_decoded fuel :
  ∀ fs parts saves, Forall (Decoded saves) (Read_loop fuel fs parts saves).
Proof.
  induction fuel as [|fuel IH]; intros fs parts saves; [by constructor|].
  rewrite LegacyScriptRead_loop_step. apply Forall_app; split.
  - apply line_commands_decoded.
  - destruct (tokenize fs).2; [by constructor | apply IH].
Qed.

Lemma LegacyScriptRead_decoded uninitialised script saves :
  Forall (Decoded saves) (Read uninitialised script saves).
Proof. apply LegacyScriptRead_loop_decoded. Qed.

(** ** Reading what the writer wrote *)

Lemma Read_Write_commands seq uninitialised commands :
  Forall (reads_back USER_STRING_MAX_LENGTH TITLE_COMMAND_SCENARIO_LENGTH
            seq) commands ->
  commands ≠ [] ->
  Read uninitialised (LegacyScriptWrite_commands seq commands) (Saves seq)
  = commands.
Proof.
  induction 1 as [|c cs Hc Hcs IH]; intros Hne; [done|].
  rewrite LegacyScriptRead_step.
  change (LegacyScriptWrite_commands seq (c :: cs))
    with (LegacyScriptWrite_command seq c
          ++ LF :: LegacyScriptWrite_commands seq cs).
  destruct (Hc (LegacyScriptWrite_commands seq cs))
    as (fields & Htok & Hcmd).
  rewrite Htok. cbn [fst snd]. rewrite Hcmd.
  destruct cs as [|c' cs]; [done|].
  destruct (LegacyScriptWrite_commands seq (c' :: cs)) eqn:E.
  - by apply Write_commands_not_nil in E.
  - simpl. by rewrite IH.
Qed.

Lemma Read_Write seq uninitialised :
  no_line_end (c_str (Name seq)) = true ->
  Forall (reads_back USER_STRING_MAX_LENGTH TITLE_COMMAND_SCENARIO_LENGTH
            seq) (Commands seq) ->
  Read uninitialised (LegacyScriptWrite seq) (Saves seq) = Commands seq.
Proof.
  intros Hname Hc.
  rewrite LegacyScriptWrite_text, LegacyScriptRead_step.
  rewrite tokenize_comment.
  2:{ unfold no_line_end in Hname. by rewrite forallb_app, Hname. }
  cbn [fst snd]. change (commands_of [[]] (Saves seq)) with (@nil TitleCommand).
  destruct (Commands seq) as [|c cs] eqn:Ecs; [done|].
  destruct (LegacyScriptWrite_commands seq (c :: cs)) eqn:E.
  - by apply Write_commands_not_nil in E.
  - rewrite <- E. by apply Read_Write_commands.
Qed.

(** C4: for a script and a list of saves that are well formed, decoding,
    encoding and decoding again gives the commands of the first decoding.
    Well formed: the list has at most 255 saves, so that the sentinel is
    no position of it, and none of them is the placeholder of the writer;
    every [LOADSC] command of the script names a scenario; and the name of
    the sequence, which the writer puts into the first line, has no line
    end. *)
Theorem LegacyScript_round_trip
    (uninitialised uninitialised' : buffer) (name path : list ascii)
    (isZip : bool) (script : list ascii) (saves : list (list ascii)) :
  no_line_end (c_str name) = true ->
  (length saves <= 255)%nat ->
  lowest_match (str "<No save file>") saves = None ->
  forallb scenario_named (Read uninitialised script saves) = true ->
  Read uninitialised'
    (LegacyScriptWrite
       (mkTitleSequence name path (Read uninitialised script saves) saves
          isZip))
    saves
  = Read uninitialised script saves.
Proof.
  intros Hname Hlen Hplace Hsc.
  set (seq := mkTitleSequence name path (Read uninitialised script saves)
                saves isZip).
  apply (Read_Write seq uninitialised'); [done|].
  pose proof (LegacyScriptRead_decoded uninitialised script saves) as Hd.
  change (Commands seq) with (Read uninitialised script saves).
  rewrite forallb_forall in Hsc. rewrite Forall_forall in Hd |- *.
  intros c Hin.
  apply decoded_reads_back; [done | done | by apply Hd |].
  intros Hty Hnil.
  apply list_elem_of_In, Hsc in Hin. unfold scenario_named in Hin.
  by rewrite Hty, Hnil in Hin.
Qed.

(** C5: for a token that matches [LOAD] without regard to case, the reader
    makes a [Load] command whose save index is the lowest position of the
    list of saves whose entry equals the argument without regard to case,
    reduced modulo 256 by the conversion to [uint8_t] (the position itself
    when it is below 256), and the sentinel when no entry matches. *)
Theorem LegacyScriptRead_LOAD_lowest_match
    (token part1 part2 : list ascii) (saves : list (list ascii)) :
  _stricmp token (str "LOAD") = 0 ->
  Type_ (Read_command token part1 part2 saves) = TitleScript.Load
  ∧ SaveIndex (Read_command token part1 part2 saves)
    = match lowest_match part1 saves with
      | Some i => Z.of_nat i mod 256
      | None => SAVE_INDEX_INVALID
      end.
Proof.
  intros Htok. unfold LegacyScriptRead_command.
  destruct token as [|t token]; [by vm_compute in Htok|].
  rewrite Htok. cbn [Z.eqb]. split; [done|].
  cbn [SaveIndex set_SaveIndex].
  by rewrite LegacyScriptRead_save_lowest_match.
Qed.

(** C6: a numeric argument is read by the rule of the leading digits, else
    0, and masked, never rejected: every text shows one number
    ([number_text]), and when the arguments show [v1] and [v2], [LOCATION],
    [ROTATE] and [ZOOM] store the low 8 bits, [FOLLOW] and [WAIT] the low 16
    bits, and [SPEED] the low 8 bits brought into the range 1..4. This is
    so for every number within the range of [long]; a number beyond it is
    stored as all ones, or as zero when it is negative ([masked]).
    [SPEED 0] reads as 1, [SPEED 9] as 4 and [SPEED 2] as 2, [LOCATION 300
    -1] as 44 and 255, and a text that is no number as 0. *)
Theorem LegacyScriptRead_numbers_masked
    (part1 part2 : list ascii) (saves : list (list ascii))
    (uninitialised : buffer) :
  ∃ v1 v2 : Z,
    (number_text part1 v1 ∧ ∀ v, number_text part1 v -> v = v1)
    ∧ (number_text part2 v2 ∧ ∀ v, number_text part2 v -> v = v2)
    ∧ Read_command (str "LOCATION") part1 part2 saves
      = Location_command (masked 8 v1) (masked 8 v2)
    ∧ Read_command (str "ROTATE") part1 part2 saves
      = Rotate_command (masked 8 v1)
    ∧ Read_command (str "ZOOM") part1 part2 saves
      = Zoom_command (masked 8 v1)
    ∧ Read_command (str "FOLLOW") part1 part2 saves
      = Follow_command (masked 16 v1)
          (safe_strcpy [] part2 USER_STRING_MAX_LENGTH)
    ∧ Read_command (str "WAIT") part1 part2 saves
      = Wait_command (masked 16 v1)
    ∧ Read_command (str "SPEED") part1 part2 saves
      = Speed_command (Z.max 1 (Z.min 4 (masked 8 v1)))
    ∧ 1 <= Speed (Read_command (str "SPEED") part1 part2 saves) <= 4
    ∧ Read uninitialised (str "SPEED 0") saves = [Speed_command 1]
    ∧ Read uninitialised (str "SPEED 9") saves = [Speed_command 4]
    ∧ Read uninitialised (str "SPEED 2") saves = [Speed_command 2]
    ∧ Read uninitialised (str "LOCATION 300 -1") saves
      = [Location_command 44 255]
    ∧ Read uninitialised (str "WAIT soon") saves = [Wait_command 0].
Proof.
  destruct (number_text_total part1) as [v1 H1].
  destruct (number_text_total part2) as [v2 H2].
  exists v1, v2.
  split; [split; [done | intros v Hv; by apply (number_text_unique part1)]|].
  split; [split; [done | intros v Hv; by apply (number_text_unique part2)]|].
  rewrite Read_command_LOCATION, Read_command_ROTATE, Read_command_ZOOM,
    Read_command_FOLLOW, Read_command_WAIT, Read_command_SPEED.
  rewrite !land_255, !land_65535.
  change 256 with (2 ^ 8). change 65536 with (2 ^ 16).
  rewrite !(atoi_masked 8 part1 v1), !(atoi_masked 8 part2 v2),
    !(atoi_masked 16 part1 v1) by (lia || done).
  repeat split; try reflexivity.
  - cbn [Speed Speed_command set_Speed]. lia.
  - cbn [Speed Speed_command set_Speed]. lia.
Qed.

(** C7: after a first field that matches [LOAD] or [LOADSC] without regard
    to case, the rest of the line is the second field, with its spaces;
    after a first field that matches [FOLLOW], the second field ends at the
    next space and the rest of the line is the third field, with its
    spaces. The texts are those of a line without comment sign, of at most
    127 characters each. *)
Theorem LegacyScriptGetLine_modes
    (parts : buffer) (kw a b rest : list ascii) :
  word_text a = true -> (length a <= 127)%nat ->
  line_text b = true -> (length b <= 127)%nat ->
  (map tolower kw = map tolower (str "LOAD")
   ∨ map tolower kw = map tolower (str "LOADSC") ->
   let line := kw ++ " "%char :: b ++ LF :: rest in
   field (LegacyScriptGetLine line parts).1 0 = kw
   ∧ field (LegacyScriptGetLine line parts).1 1 = b
   ∧ field (LegacyScriptGetLine line parts).1 2 = []
   ∧ (LegacyScriptGetLine line parts).2 = rest)
  ∧ (map tolower kw = map tolower (str "FOLLOW") ->
     let line := kw ++ " "%char :: a ++ " "%char :: b ++ LF :: rest in
     field (LegacyScriptGetLine line parts).1 0 = kw
     ∧ field (LegacyScriptGetLine line parts).1 1 = a
     ∧ field (LegacyScriptGetLine line parts).1 2 = b
     ∧ (LegacyScriptGetLine line parts).2 = rest).
Proof.
  intros Ha Hla Hb Hlb. split.
  - intros Hkw line.
    destruct (load_flag_lower kw Hkw) as (Hne & Hw & Hl & Hload).
    destruct (LegacyScriptGetLine_tokenize line parts [kw; b] rest)
      as [Hrest Hfields].
    { by apply tokenize_load_mode. }
    { repeat constructor; [by apply word_text_line_text | done]. }
    rewrite !Hfields by lia. done.
  - intros Hkw line.
    destruct (sprite_flag_lower kw Hkw) as (Hne & Hw & Hl & Hload & Hsp).
    destruct (LegacyScriptGetLine_tokenize line parts [kw; a; b] rest)
      as [Hrest Hfields].
    { by apply tokenize_sprite_mode. }
    { repeat constructor; [| |done]; by apply word_text_line_text. }
    rewrite !Hfields by lia. done.
Qed.

End ReaderWriter.

(** ** Instances on concrete scripts *)

(** The round trip on a script with every kind of line, one of them a
    [LOAD] of a save that is missing. *)
Lemma LegacyScript_round_trip_witness :
  LegacyScriptRead 32 64 stale
    (LegacyScriptWrite
       (mkTitleSequence (str "demo") (str "/seq/demo")
          (LegacyScriptRead 32 64 stale
             (str "LOAD parkA.sv6
location 300 -1
SPEED 9 # fast
FOLLOW 7 Some guest
LOADSC Forest Frontiers
LOAD missing.sv6
WAIT 70000
END")
             [str "parkA.sv6"; str "parkB.sv6"])
          [str "parkA.sv6"; str "parkB.sv6"] false))
    [str "parkA.sv6"; str "parkB.sv6"]
  = LegacyScriptRead 32 64 stale
      (str "LOAD parkA.sv6
location 300 -1
SPEED 9 # fast
FOLLOW 7 Some guest
LOADSC Forest Frontiers
LOAD missing.sv6
WAIT 70000
END")
      [str "parkA.sv6"; str "parkB.sv6"].
Proof.
  apply (LegacyScript_round_trip 32 64 stale stale).
  - reflexivity.
  - simpl; lia.
  - reflexivity.
  - vm_compute; reflexivity.
Defined.



(** [LOCATION 0300x +7]: leading zeros, digits followed by a letter, and a
    sign. *)
Lemma LegacyScriptRead_numbers_masked_witness :
  LegacyScriptRead_command 32 64 (str "LOCATION") (str "0300x") (str "+7") []
  = Location_command 44 7.
Proof.
  destruct (LegacyScriptRead_numbers_masked 32 64 (str "0300x") (str "+7")
              [] stale) as (v1 & v2 & [_ U1] & [_ U2] & -> & _).
  rewrite <- (U1 300), <- (U2 7); [reflexivity | |].
  - apply (number_digits [] (str "+") 0 7 []); [done | | lia | done].
    apply elem_of_cons; right. apply elem_of_cons; by left.
  - apply (number_digits [] [] 1 300 (str "x")); [done | | lia | done].
    apply elem_of_cons; by left.
Defined.

(** Against the claim that every number is masked: a number of twenty
    digits is above the range of [long]; its low 16 bits are 0, and [WAIT]
    stores 65535; the low 8 bits of a number below the range are 255, and
    [ROTATE] stores 0. *)
Lemma LegacyScriptRead_number_saturates :
  number_text (str "10000000000000000000") 10000000000000000000
  ∧ 10000000000000000000 mod 2 ^ 16 = 0
  ∧ LegacyScriptRead 32 64 stale (str "WAIT 10000000000000000000") []
    = [Wait_command 65535]
  ∧ number_text (str "-9223372036854775809") (- 9223372036854775809)
  ∧ (- 9223372036854775809) mod 2 ^ 8 = 255
  ∧ LegacyScriptRead 32 64 stale (str "ROTATE -9223372036854775809") []
    = [Rotate_command 0].
Proof.
  split; [|split; [|split; [|split; [|split]]]].
  - apply (number_digits [] [] 0 10000000000000000000 []);
      [done | | lia | done].
    apply elem_of_cons; by left.
  - reflexivity.
  - by vm_compute.
  - apply (number_digits [] (str "-") 0 9223372036854775809 []);
      [done | | lia | done].
    do 2 (apply elem_of_cons; right). apply elem_of_cons; by left.
  - reflexivity.
  - by vm_compute.
Qed.

(** Against the claim that the save index is always the lowest matching
    position: with 256 saves before the only one that matches, that position
    is 256 and the save index is 0. *)
Lemma LegacyScriptRead_LOAD_index_wraps :
  lowest_match (str "b.sv6") (repeat (str "a.sv6") 256 ++ [str "b.sv6"])
  = Some 256%nat
  ∧ LegacyScriptRead 32 64 stale (str "LOAD b.sv6")
      (repeat (str "a.sv6") 256 ++ [str "b.sv6"])
    = [Load_command 0]
  ∧ SaveIndex (Load_command 0) ≠ Z.of_nat 256.
Proof. by vm_compute. Qed.

(** A [load] line whose argument matches the second and the third save. *)
Lemma LegacyScriptRead_LOAD_lowest_match_witness :
  SaveIndex
    (LegacyScriptRead_command 32 64 (str "load") (str "PARKB.SV6") []
       [str "parkA.sv6"; str "parkB.sv6"; str "ParkB.sv6"])
  = 1.
Proof.
  refine (proj2 (LegacyScriptRead_LOAD_lowest_match 32 64 (str "load")
                   (str "PARKB.SV6") []
                   [str "parkA.sv6"; str "parkB.sv6"; str "ParkB.sv6"] _)).
  reflexivity.
Defined.

(** A [load] line and a [Follow] line with spaces in the last field. *)
Lemma LegacyScriptGetLine_modes_witness :
  field (LegacyScriptGetLine (str "load my park.sv6
END") stale).1 1 = str "my park.sv6"
  ∧ field (LegacyScriptGetLine (str "Follow 12 Some guest
END") stale).1 2 = str "Some guest".
Proof.
  split.
  - refine (proj1 (proj2
              (proj1 (LegacyScriptGetLine_modes stale (str "load") []
                        (str "my park.sv6") (str "END") _ _ _ _) _))).
    + reflexivity.
    + simpl; lia.
    + reflexivity.
    + simpl; lia.
    + left; reflexivity.
  - refine (proj1 (proj2 (proj2
              (proj2 (LegacyScriptGetLine_modes stale (str "Follow") (str "12")
                        (str "Some guest") (str "END") _ _ _ _) _)))).
    + reflexivity.
    + simpl; lia.
    + reflexivity.
    + simpl; lia.
    + reflexivity.
Defined.

(** ** The examples of the spec *)

(** After [LOAD] the file name keeps its space; [LOCATION] has two numeric
    fields. *)
Example LegacyScriptGetLine_embedded_spaces :
  field (LegacyScriptGetLine (str "LOAD my park.sv6") stale).1 1
  = str "my park.sv6"
  ∧ field (LegacyScriptGetLine (str "LOCATION 10 20") stale).1 1 = str "10"
  ∧ field (LegacyScriptGetLine (str "LOCATION 10 20") stale).1 2 = str "20".
Proof. by vm_compute. Qed.

(** A comment after a command is ignored. *)
Example LegacyScriptRead_comment :
  LegacyScriptRead 32 64 stale (str "ROTATE 2 # turn twice") []
  = [Rotate_command 2].
Proof. reflexivity. Qed.

(** Spaces collapse before the first field only: a second space after a field
    closes an empty field, and what does not fit the three fields is left in
    the stream and read as the next line. *)
Example LegacyScriptGetLine_repeated_spaces :
  (tokenize (str "  LOCATION 10 20")).1 = [str "LOCATION"; str "10"; str "20"]
  ∧ tokenize (str "LOCATION  10 20")
    = ([str "LOCATION"; []; str "10"], str "20").
Proof. by vm_compute. Qed.

(** The scenario of the spec: decoding, removing the save, encoding. *)
Example LegacyScript_end_to_end :
  let saves := [str "parkA.sv6"] in
  let commands := LegacyScriptRead 32 64 stale (str "LOAD parkA.sv6
END") saves in
  let seq := mkTitleSequence (str "demo") (str "/seq/demo") commands saves
               false in
  commands = [Load_command 0; End_command]
  ∧ ∃ seq',
      TitleSequenceRemovePark io_ok seq 0 = Some (true, seq')
      ∧ Commands seq' = [Load_command SAVE_INDEX_INVALID; End_command]
      ∧ LegacyScriptWrite seq' = str "# SCRIPT FOR demo
LOAD <No save file>
END
".
Proof. split; [reflexivity|]. eexists. by vm_compute. Qed.

(** A [LOADSC] line without a name is outside the round trip: the writer
    renders it as a placeholder, which reads back as the name of a
    scenario. *)
Example LegacyScript_LOADSC_without_name :
  let commands := LegacyScriptRead 32 64 stale (str "LOADSC") [] in
  let seq := mkTitleSequence (str "demo") (str "/seq/demo") commands [] false in
  commands = [LoadSc_command []]
  ∧ LegacyScriptRead 32 64 stale (LegacyScriptWrite seq) []
    = [LoadSc_command (str "<No scenario name>")].
Proof. by vm_compute. Qed.

(** * Further properties of the reader, the writer and the sequence store *)

(** ** The tokenizer on a stream that goes on *)

(** What the loop does on [s1 ++ t], from what it does on [s1]: either it
    returns inside [s1], and then [t] is left behind what [s1] left; or it
    reaches the end of [s1] in a state from which it goes on into [t]. *)
Lemma fields_loop_app s1 :
  ∀ closed cur ws cm ld sp,
    (∀ t, fields_loop (s1 ++ t) closed cur ws cm ld sp
          = ((fields_loop s1 closed cur ws cm ld sp).1,
             (fields_loop s1 closed cur ws cm ld sp).2 ++ t))
    ∨ (∃ closed' cur' ws' cm' ld' sp',
         (length closed' < 3)%nat
         ∧ fields_loop s1 closed cur ws cm ld sp = (closed' ++ [cur'], [])
         ∧ ∀ t, fields_loop (s1 ++ t) closed cur ws cm ld sp
                = fields_loop t closed' cur' ws' cm' ld' sp').
Proof.
  induction s1 as [|c s1 IH]; intros closed cur ws cm ld sp.
  - destruct (Nat.ltb_spec (length closed) 3) as [H3|H3].
    + right. exists closed, cur, ws, cm, ld, sp. split; [done|].
      cbn [fields_loop]. rewrite (proj2 (Nat.ltb_lt _ _) H3). done.
    + left. intros t. cbn [fields_loop app].
      rewrite (proj2 (Nat.ltb_ge _ _) H3).
      destruct t; cbn [fields_loop]; by rewrite (proj2 (Nat.ltb_ge _ _) H3).
  - simpl app. cbn [fields_loop].
    destruct (length closed <? 3)%nat; [|by left].
    destruct ((c =? LF)%char || (c =? CR)%char); [by left|].
    destruct (c =? "#")%char; [apply IH|].
    destruct ((c =? " ")%char && negb cm && negb ld
              && (negb sp || negb (length closed =? 2)%nat)).
    { destruct (negb ws); apply IH. }
    destruct (negb cm); [|apply IH].
    destruct (length cur <? 127)%nat; apply IH.
Qed.

Lemma ends_line_nil : ends_line [] [].
Proof.
  intros closed cur ws cm ld sp H3. cbn [fields_loop].
  by rewrite (proj2 (Nat.ltb_lt _ _) H3).
Qed.

Lemma ends_line_LF s : ends_line (LF :: s) s.
Proof. intros closed cur ws cm ld sp H3. by apply fields_loop_LF. Qed.

Lemma ends_line_CR s : ends_line (CR :: s) s.
Proof.
  intros closed cur ws cm ld sp H3. cbn [fields_loop].
  by rewrite (proj2 (Nat.ltb_lt _ _) H3).
Qed.

Lemma ends_line_comment l s :
  no_line_end l = true -> ends_line ("#"%char :: l ++ LF :: s) s.
Proof.
  intros Hl closed cur ws cm ld sp H3. cbn [fields_loop].
  rewrite (proj2 (Nat.ltb_lt _ _) H3).
  change ("#" =? LF)%char with false. change ("#" =? CR)%char with false.
  change ("#" =? "#")%char with true. cbn [orb].
  by apply fields_loop_comment.
Qed.

Lemma fields_loop_suffix stream :
  ∀ closed cur ws cm ld sp,
    ∃ consumed,
      stream = consumed ++ (fields_loop stream closed cur ws cm ld sp).2.
Proof.
  induction stream as [|c stream IH]; intros closed cur ws cm ld sp;
    cbn [fields_loop].
  - exists []. by destruct (length closed <? 3)%nat.
  - assert (Hrec : ∀ closed cur ws cm ld sp,
              ∃ consumed,
                c :: stream
                = consumed ++ (fields_loop stream closed cur ws cm ld sp).2).
    { intros closed' cur' ws' cm' ld' sp'.
      destruct (IH closed' cur' ws' cm' ld' sp') as [k Hk].
      exists (c :: k). simpl. by rewrite <- Hk. }
    destruct (length closed <? 3)%nat; [|by exists []].
    destruct ((c =? LF)%char || (c =? CR)%char); [by exists [c]|].
    destruct (c =? "#")%char; [apply Hrec|].
    destruct ((c =? " ")%char && negb cm && negb ld
              && (negb sp || negb (length closed =? 2)%nat)).
    { destruct (negb ws); apply Hrec. }
    destruct (negb cm); [|apply Hrec].
    destruct (length cur <? 127)%nat; apply Hrec.
Qed.

Section ReaderLines.

Variable USER_STRING_MAX_LENGTH : nat.
Variable TITLE_COMMAND_SCENARIO_LENGTH : nat.

Abbreviation Read :=
  (LegacyScriptRead USER_STRING_MAX_LENGTH TITLE_COMMAND_SCENARIO_LENGTH).
Abbreviation commands_of :=
  (line_commands USER_STRING_MAX_LENGTH TITLE_COMMAND_SCENARIO_LENGTH).

Lemma LegacyScriptRead_nil uninitialised saves : Read uninitialised [] saves = [].
Proof. reflexivity. Qed.

(** The equation of the reader without the test for the end of the stream:
    an exhausted stream gives no command. *)
Lemma LegacyScriptRead_line uninitialised script saves :
  Read uninitialised script saves
  = commands_of (tokenize script).1 saves
    ++ Read uninitialised (tokenize script).2 saves.
Proof.
  rewrite LegacyScriptRead_step at 1.
  by destruct (tokenize script).2.
Qed.

(** The reader on a script that reaches the end of a line. *)
Lemma LegacyScriptRead_ends_line uninitialised saves t r :
  ends_line t r ->
  ∀ s1,
    Read uninitialised (s1 ++ t) saves
    = Read uninitialised s1 saves ++ Read uninitialised r saves.
Proof.
  intros Ht s1.
  remember (length s1) as n eqn:Hn. revert s1 Hn.
  induction n as [n IH] using lt_wf_ind. intros s1 ->.
  rewrite (LegacyScriptRead_line _ (s1 ++ t)), (LegacyScriptRead_line _ s1).
  destruct s1 as [|c s1].
  { cbn [app]. unfold tokenize.
    rewrite (Ht [] [] true false false false) by (simpl; lia).
    cbn [fields_loop length Nat.ltb Nat.leb fst snd app].
    by rewrite LegacyScriptRead_nil, app_nil_r. }
  unfold tokenize.
  destruct (fields_loop_app (c :: s1) [] [] true false false false)
    as [HA | (closed' & cur' & ws' & cm' & ld' & sp' & H3 & Hs1 & HB)].
  - rewrite HA. cbn [fst snd]. rewrite <- app_assoc. f_equal.
    apply (IH (length (tokenize (c :: s1)).2)); [|done].
    by apply tokenize_shorter.
  - rewrite HB, Hs1, Ht by done. cbn [fst snd].
    by rewrite LegacyScriptRead_nil, app_nil_r.
Qed.

End ReaderLines.

(** ** The reader, line by line *)

Lemma fields_loop_comment_end l :
  ∀ closed cur ws ld sp,
    (length closed < 3)%nat -> no_line_end l = true ->
    fields_loop l closed cur ws true ld sp = (closed ++ [cur], []).
Proof.
  induction l as [|c l IH]; intros closed cur ws ld sp H3 Hl.
  { cbn [fields_loop]. by rewrite (proj2 (Nat.ltb_lt _ _) H3). }
  unfold no_line_end in Hl. simpl in Hl.
  apply andb_true_iff in Hl as [Hc Hl]. apply negb_true_iff in Hc.
  cbn [fields_loop]. rewrite (proj2 (Nat.ltb_lt _ _) H3), Hc.
  rewrite !andb_false_r. simpl.
  destruct (c =? "#")%char; by apply IH.
Qed.

Lemma ends_line_comment_end l :
  no_line_end l = true -> ends_line ("#"%char :: l) [].
Proof.
  intros Hl closed cur ws cm ld sp H3. cbn [fields_loop].
  rewrite (proj2 (Nat.ltb_lt _ _) H3).
  change ("#" =? LF)%char with false. change ("#" =? CR)%char with false.
  change ("#" =? "#")%char with true. cbn [orb].
  by apply fields_loop_comment_end.
Qed.

Lemma tokenize_leading_space s : tokenize (" "%char :: s) = tokenize s.
Proof. reflexivity. Qed.

Section ReaderProperties.

Variable USER_STRING_MAX_LENGTH : nat.
Variable TITLE_COMMAND_SCENARIO_LENGTH : nat.

Abbreviation Read :=
  (LegacyScriptRead USER_STRING_MAX_LENGTH TITLE_COMMAND_SCENARIO_LENGTH).
Abbreviation Read_command :=
  (LegacyScriptRead_command USER_STRING_MAX_LENGTH
     TITLE_COMMAND_SCENARIO_LENGTH).

(** X1: the commands of a script are those of the part before a line end
    followed by those of the part after it, for a line feed as for a carriage
    return, wherever the line end stands. *)
Theorem LegacyScriptRead_line_by_line
    (uninitialised : buffer) (s1 s2 : list ascii)
    (saves : list (list ascii)) :
  Read uninitialised (s1 ++ LF :: s2) saves
  = Read uninitialised s1 saves ++ Read uninitialised s2 saves
  ∧ Read uninitialised (s1 ++ CR :: s2) saves
    = Read uninitialised s1 saves ++ Read uninitialised s2 saves.
Proof.
  split.
  - apply LegacyScriptRead_ends_line, ends_line_LF.
  - apply LegacyScriptRead_ends_line, ends_line_CR.
Qed.

Lemma LegacyScriptRead_blank_line uninitialised s saves :
  Read uninitialised (LF :: s) saves = Read uninitialised s saves.
Proof.
  by rewrite (LegacyScriptRead_ends_line _ _ uninitialised saves (LF :: s) s
                (ends_line_LF s) []).
Qed.

(** X2: a script with the line ends CR LF reads as the script with the line
    ends LF. *)
Theorem LegacyScriptRead_CRLF
    (uninitialised : buffer) (s1 s2 : list ascii)
    (saves : list (list ascii)) :
  Read uninitialised (s1 ++ CR :: LF :: s2) saves
  = Read uninitialised (s1 ++ LF :: s2) saves.
Proof.
  rewrite (LegacyScriptRead_ends_line _ _ uninitialised saves _ _
             (ends_line_CR (LF :: s2)) s1).
  rewrite (LegacyScriptRead_ends_line _ _ uninitialised saves _ _
             (ends_line_LF s2) s1).
  by rewrite LegacyScriptRead_blank_line.
Qed.

(** X3: a comment does not change what a script reads as: from the comment
    sign to the end of the line, or to the end of the script, nothing is
    read. *)
Theorem LegacyScriptRead_comment_ignored
    (uninitialised : buffer) (s1 l s2 : list ascii)
    (saves : list (list ascii)) :
  no_line_end l = true ->
  Read uninitialised (s1 ++ "#"%char :: l ++ LF :: s2) saves
  = Read uninitialised (s1 ++ LF :: s2) saves
  ∧ Read uninitialised (s1 ++ "#"%char :: l) saves
    = Read uninitialised s1 saves.
Proof.
  intros Hl. split.
  - rewrite (LegacyScriptRead_ends_line _ _ uninitialised saves _ _
               (ends_line_comment l s2 Hl) s1).
    by rewrite (LegacyScriptRead_ends_line _ _ uninitialised saves _ _
                  (ends_line_LF s2) s1).
  - rewrite (LegacyScriptRead_ends_line _ _ uninitialised saves _ _
               (ends_line_comment_end l Hl) s1).
    by rewrite LegacyScriptRead_nil, app_nil_r.
Qed.

Lemma LegacyScriptRead_leading_space uninitialised s saves :
  Read uninitialised (" "%char :: s) saves = Read uninitialised s saves.
Proof.
  rewrite (LegacyScriptRead_line _ _ uninitialised (" "%char :: s)).
  rewrite tokenize_leading_space.
  by rewrite <- LegacyScriptRead_line.
Qed.

(** X4: spaces at the start of a line are skipped: a script reads the same
    with any line indented. *)
Theorem LegacyScriptRead_indentation
    (uninitialised : buffer) (s1 s2 : list ascii) (n : nat)
    (saves : list (list ascii)) :
  Read uninitialised (s1 ++ LF :: repeat " "%char n ++ s2) saves
  = Read uninitialised (s1 ++ LF :: s2) saves
  ∧ Read uninitialised (repeat " "%char n ++ s2) saves
    = Read uninitialised s2 saves.
Proof.
  assert (H : Read uninitialised (repeat " "%char n ++ s2) saves
              = Read uninitialised s2 saves).
  { induction n as [|n IH]; [done|]. simpl.
    by rewrite LegacyScriptRead_leading_space. }
  split; [|done].
  rewrite (LegacyScriptRead_ends_line _ _ uninitialised saves _ _
             (ends_line_LF _) s1).
  rewrite (LegacyScriptRead_ends_line _ _ uninitialised saves _ _
             (ends_line_LF s2) s1).
  by rewrite H.
Qed.

End ReaderProperties.

Lemma LegacyScriptRead_comment_ignored_witness :
  LegacyScriptRead 32 64 stale (str "WAIT 5 # five
END") []
  = LegacyScriptRead 32 64 stale (str "WAIT 5 
END") []
  ∧ LegacyScriptRead 32 64 stale (str "WAIT 5 # five") []
    = LegacyScriptRead 32 64 stale (str "WAIT 5 ") [].
Proof.
  apply (LegacyScriptRead_comment_ignored 32 64 stale (str "WAIT 5 ")
           (str " five") (str "END") []).
  reflexivity.
Defined.

(** ** The commands that the reader makes *)

Lemma safe_strcpy_capacity s n :
  line_text s = true ->
  line_text (safe_strcpy [] s n) = true
  ∧ (length (safe_strcpy [] s n) <= n - 1)%nat.
Proof.
  intros Ht. destruct n as [|n]; simpl; [done|].
  rewrite (c_str_line_text s Ht). split; [by apply line_text_take|].
  rewrite length_take. lia.
Qed.

Lemma LegacyScriptRead_save_range part1 saves :
  LegacyScriptRead_save part1 saves 0 = SAVE_INDEX_INVALID
  ∨ 0 <= LegacyScriptRead_save part1 saves 0 < 256
    ∧ LegacyScriptRead_save part1 saves 0 < Z.of_nat (length saves).
Proof.
  rewrite LegacyScriptRead_save_lowest_match.
  destruct (lowest_match part1 saves) as [i|] eqn:Hi; [right | by left].
  destruct (lowest_match_Some _ _ _ Hi) as (save & Hsave & _).
  apply lookup_lt_Some in Hsave. rewrite Nat.add_0_l.
  pose proof (Z.mod_pos_bound (Z.of_nat i) 256 ltac:(lia)).
  pose proof (Z.mod_le (Z.of_nat i) 256 ltac:(lia) ltac:(lia)).
  lia.
Qed.

Lemma decoded_read_command_ok user scenario saves command :
  decoded user scenario saves command ->
  read_command_ok user scenario command
  ∧ load_index_ok saves command = true.
Proof.
  intros [part1 Ht Hl|x y Hx Hy|n Hn|n Hn|n Hn|n part2 Hn Ht Hl|n Hn| |
          |part1 Ht Hl];
    unfold read_command_ok; cbn; try (split; [repeat split; lia | done]);
    try done.
  - destruct (LegacyScriptRead_save_range part1 saves) as [E|[H1 H2]].
    + rewrite E. split; [by repeat split|]. reflexivity.
    + split; [repeat split; lia|]. unfold load_index_ok. cbn.
      apply orb_true_iff; right.
      apply andb_true_iff; split; [apply Z.leb_le | apply Z.ltb_lt]; lia.
  - destruct (safe_strcpy_capacity part2 user Ht) as [H1 H2].
    split; [|done]. repeat split; try done; lia.
  - destruct (safe_strcpy_capacity part1 scenario Ht) as [H1 H2].
    split; [|done]. by repeat split.
Qed.

Lemma read_command_ok_in_range user scenario command :
  read_command_ok user scenario command ->
  read_command_in_range user scenario command.
Proof.
  unfold read_command_ok, read_command_in_range.
  destruct (Type_ command); tauto.
Qed.

Lemma stricmp_map_tolower a : ∀ b,
  _stricmp (map tolower a) b = _stricmp a b.
Proof.
  induction a as [|c a IH]; intros [|d b]; simpl; try done.
  - by rewrite tolower_idemp.
  - rewrite tolower_idemp. by rewrite IH.
Qed.

Section ReaderCommands.

Variable USER_STRING_MAX_LENGTH : nat.
Variable TITLE_COMMAND_SCENARIO_LENGTH : nat.

Abbreviation Read :=
  (LegacyScriptRead USER_STRING_MAX_LENGTH TITLE_COMMAND_SCENARIO_LENGTH).
Abbreviation Read_command :=
  (LegacyScriptRead_command USER_STRING_MAX_LENGTH
     TITLE_COMMAND_SCENARIO_LENGTH).

(** X5: every command that the reader returns has one of the ten types of
    the script, never [Undefined], [Loop] or [EndLoop]; the numbers of its
    type are within their 8 or 16 bits, the speed within 1..4, and the text
    of its type within the capacity of its field, without NUL, line end or
    comment sign. *)
Theorem LegacyScriptRead_commands_ok
    (uninitialised : buffer) (script : list ascii)
    (saves : list (list ascii)) :
  Forall (read_command_in_range USER_STRING_MAX_LENGTH
            TITLE_COMMAND_SCENARIO_LENGTH)
    (Read uninitialised script saves).
Proof.
  eapply Forall_impl; [apply LegacyScriptRead_decoded|].
  intros c Hc. apply read_command_ok_in_range.
  by apply (decoded_read_command_ok _ _ saves).
Qed.

(** X6: whatever the script and the list of saves, the save index of every
    [Load] command that the reader returns is the sentinel or a position of
    the list. *)
Theorem LegacyScriptRead_load_indices_ok
    (uninitialised : buffer) (name path : list ascii) (isZip : bool)
    (script : list ascii) (saves : list (list ascii)) :
  load_indices_ok
    (mkTitleSequence name path (Read uninitialised script saves) saves isZip)
  = true.
Proof.
  unfold load_indices_ok. cbn [Saves Commands].
  apply forallb_forall. intros c Hc.
  pose proof (LegacyScriptRead_decoded USER_STRING_MAX_LENGTH
                TITLE_COMMAND_SCENARIO_LENGTH uninitialised script saves) as Hd.
  rewrite Forall_forall in Hd.
  apply list_elem_of_In in Hc.
  by apply (decoded_read_command_ok _ _ saves c (Hd c Hc)).
Qed.

Lemma Read_command_lower token kw part1 part2 saves :
  map tolower token = map tolower kw ->
  Read_command token part1 part2 saves = Read_command kw part1 part2 saves.
Proof.
  intros H. unfold LegacyScriptRead_command.
  assert (E : ∀ k, _stricmp token k = _stricmp kw k).
  { intros k. by rewrite <- (stricmp_map_tolower token),
      <- (stricmp_map_tolower kw), H. }
  rewrite !E. by destruct token, kw.
Qed.

(** X7: the keyword of a line is read without regard to case: two tokens
    with the same lower-case letters give the same command. *)
Theorem LegacyScriptRead_command_case
    (token token' part1 part2 : list ascii) (saves : list (list ascii)) :
  map tolower token = map tolower token' ->
  Read_command token part1 part2 saves = Read_command token' part1 part2 saves.
Proof. apply Read_command_lower. Qed.

End ReaderCommands.

Lemma LegacyScriptRead_command_case_witness :
  LegacyScriptRead_command 32 64 (str "Speed") (str "3") [] []
  = LegacyScriptRead_command 32 64 (str "SPEED") (str "3") [] [].
Proof.
  apply (LegacyScriptRead_command_case 32 64 (str "Speed") (str "SPEED")).
  reflexivity.
Defined.

(** ** The list of saves *)

Lemma load_indices_ok_saves_length seq saves :
  length saves = length (Saves seq) ->
  load_indices_ok (set_Saves seq saves) = load_indices_ok seq.
Proof.
  intros Hl. unfold load_indices_ok. cbn [Saves Commands set_Saves].
  induction (Commands seq) as [|c cs IH]; simpl; [done|].
  rewrite IH. unfold load_index_ok. by rewrite Hl.
Qed.

Lemma load_index_ok_longer saves saves' c :
  (length saves <= length saves')%nat ->
  load_index_ok saves c = true -> load_index_ok saves' c = true.
Proof.
  intros Hl. unfold load_index_ok.
  rewrite !orb_true_iff, !andb_true_iff, !Z.ltb_lt.
  intros [H|[H1 H2]]; [by left | right; split; [done | lia]].
Qed.

Lemma TitleSequenceAddPark_saves io seq path name :
  Saves (TitleSequenceAddPark io seq path name).2
  = (if std_find_is_end (Saves seq) path then Saves seq ++ [name]
     else Saves seq)
  ∧ Commands (TitleSequenceAddPark io seq path name).2 = Commands seq
  ∧ Name (TitleSequenceAddPark io seq path name).2 = Name seq
  ∧ Path (TitleSequenceAddPark io seq path name).2 = Path seq
  ∧ IsZip (TitleSequenceAddPark io seq path name).2 = IsZip seq.
Proof.
  unfold TitleSequenceAddPark.
  by destruct (std_find_is_end (Saves seq) path), (IsZip seq) eqn:Hz,
    (File_ReadAllBytes io), (Zip_TryOpen io), (Zip_SetFileData io),
    (File_Copy io); cbn; rewrite ?Hz.
Qed.

(** X8: the removal of a save keeps the target of every other [Load]
    command: a [Load] command whose save index is a position of the list
    other than [index] is still a [Load] command at the same place, and its
    new save index is the position of the same save in the new list. *)
Theorem TitleSequenceRemovePark_keeps_target
    (io : Backend) (seq seq' : TitleSequence) (index k : nat)
    (c : TitleCommand) :
  TitleSequenceRemovePark io seq index = Some (true, seq') ->
  Commands seq !! k = Some c ->
  Type_ c = TitleScript.Load ->
  0 <= SaveIndex c < 256 ->
  SaveIndex c < Z.of_nat (length (Saves seq)) ->
  SaveIndex c ≠ Z.of_nat index ->
  ∃ c', Commands seq' !! k = Some c'
        ∧ Type_ c' = TitleScript.Load
        ∧ is_Some (load_target (Saves seq') c')
        ∧ load_target (Saves seq') c' = load_target (Saves seq) c.
Proof.
  intros Hok Hk Hty Hr Hlt Hne.
  apply TitleSequenceRemovePark_success in Hok as (Hi & -> & ->).
  rewrite TitleSequenceRemovePark_commands_lookup, Hk; simpl.
  eexists; split; [done|].
  unfold TitleSequenceRemovePark_command. rewrite Hty; simpl.
  rewrite (proj2 (Z.eqb_neq _ _) Hne), Z.gtb_ltb.
  assert (Hs : is_Some (load_target (Saves seq) c)).
  { unfold load_target. rewrite (proj2 (Z.leb_le _ _)) by lia.
    apply lookup_lt_is_Some_2. lia. }
  destruct (Z.ltb_spec (Z.of_nat index) (SaveIndex c)) as [Hgt|Hle].
  - assert (E : load_target (delete index (Saves seq))
                  (set_SaveIndex c (uint8_decrement (SaveIndex c)))
                = load_target (Saves seq) c).
    { unfold load_target, uint8_decrement; cbn [SaveIndex set_SaveIndex].
      rewrite Z.mod_small by lia.
      rewrite !(proj2 (Z.leb_le _ _)) by lia.
      rewrite list_lookup_delete_ge by lia. f_equal. lia. }
    split; [done|]. by rewrite E.
  - assert (E : load_target (delete index (Saves seq)) c
                = load_target (Saves seq) c).
    { unfold load_target. rewrite !(proj2 (Z.leb_le _ _)) by lia.
      rewrite list_lookup_delete_lt by lia. done. }
    split; [done|]. by rewrite E.
Qed.

Lemma TitleSequenceRemovePark_keeps_target_witness :
  let seq' :=
    set_Commands (set_Saves example_seq [str "a.sv6"; str "c.sv6"])
      [Load_command 0; Load_command SAVE_INDEX_INVALID; Load_command 1;
       End_command] in
  ∃ c', Commands seq' !! 2%nat = Some c'
        ∧ Type_ c' = TitleScript.Load
        ∧ is_Some (load_target (Saves seq') c')
        ∧ load_target (Saves seq') c'
          = load_target (Saves example_seq) (Load_command 2).
Proof.
  intros seq'.
  apply (TitleSequenceRemovePark_keeps_target io_ok example_seq seq' 1 2
           (Load_command 2)).
  - reflexivity.
  - reflexivity.
  - reflexivity.
  - simpl; lia.
  - simpl; lia.
  - simpl; lia.
Defined.

(** X9: [TitleSequenceRenamePark] and [TitleSequenceRemovePark] stop at
    their assertion exactly when [index] is not a position of the list of
    saves; the answers of the backend play no part in that. *)
Theorem TitleSequence_index_asserted
    (io : Backend) (seq : TitleSequence) (index : nat) (name : list ascii) :
  (TitleSequenceRenamePark io seq index name = None
   ↔ (length (Saves seq) <= index)%nat)
  ∧ (TitleSequenceRemovePark io seq index = None
     ↔ (length (Saves seq) <= index)%nat).
Proof.
  unfold TitleSequenceRenamePark, TitleSequenceRemovePark.
  destruct (Nat.ltb_spec index (length (Saves seq))).
  - destruct (IsZip seq), (Zip_TryOpen io), (File_Move io), (File_Delete io);
      (split; (split; [done | lia])).
  - by split.
Qed.

(** X10: a rename that succeeds writes [name] at position [index] of the
    list of saves and nothing else: the other saves, the length of the list,
    the commands, the name, the path and the backend flag are as before, and
    the sequence satisfies the invariant of the [Load] commands exactly when
    it did before. *)
Theorem TitleSequenceRenamePark_success
    (io : Backend) (seq seq' : TitleSequence) (index : nat)
    (name : list ascii) :
  TitleSequenceRenamePark io seq index name = Some (true, seq') ->
  Saves seq' !! index = Some name
  ∧ (∀ j, j ≠ index -> Saves seq' !! j = Saves seq !! j)
  ∧ length (Saves seq') = length (Saves seq)
  ∧ Commands seq' = Commands seq
  ∧ (Name seq', Path seq', IsZip seq') = (Name seq, Path seq, IsZip seq)
  ∧ load_indices_ok seq' = load_indices_ok seq.
Proof.
  unfold TitleSequenceRenamePark.
  destruct (Nat.ltb_spec index (length (Saves seq))) as [Hi|]; [|done].
  destruct (if IsZip seq then Zip_TryOpen io else File_Move io); [|done].
  intros [= <-]. cbn [Saves Commands Name Path IsZip set_Saves].
  split; [by apply list_lookup_insert_eq|].
  split; [intros j Hj; by apply list_lookup_insert_ne|].
  split; [apply length_insert|].
  split; [done|]. split; [done|].
  apply load_indices_ok_saves_length, length_insert.
Qed.

Lemma TitleSequenceRenamePark_success_witness :
  let seq' := set_Saves example_seq [str "a.sv6"; str "z.sv6"; str "c.sv6"] in
  Saves seq' !! 1%nat = Some (str "z.sv6")
  ∧ (∀ j, j ≠ 1%nat -> Saves seq' !! j = Saves example_seq !! j)
  ∧ length (Saves seq') = length (Saves example_seq)
  ∧ Commands seq' = Commands example_seq
  ∧ (Name seq', Path seq', IsZip seq')
    = (Name example_seq, Path example_seq, IsZip example_seq)
  ∧ load_indices_ok seq' = load_indices_ok example_seq.
Proof.
  apply (TitleSequenceRenamePark_success io_ok example_seq _ 1 (str "z.sv6")).
  reflexivity.
Defined.

(** X11: a rename or a removal that reports failure has changed nothing. *)
Theorem TitleSequence_failure_unchanged
    (io : Backend) (seq seq' : TitleSequence) (index : nat)
    (name : list ascii) :
  TitleSequenceRenamePark io seq index name = Some (false, seq')
  ∨ TitleSequenceRemovePark io seq index = Some (false, seq') ->
  seq' = seq.
Proof.
  intros [H|H].
  - by apply TitleSequenceRenamePark_failure in H.
  - by apply TitleSequenceRemovePark_failure in H.
Qed.

Lemma TitleSequence_failure_unchanged_witness :
  TitleSequenceRenamePark (mkBackend true true true true false false true)
    example_seq 1 (str "z.sv6") = Some (false, example_seq)
  ∧ example_seq = example_seq.
Proof.
  split; [reflexivity|].
  apply (TitleSequence_failure_unchanged
           (mkBackend true true true true false false true)
           example_seq example_seq 1 (str "z.sv6")).
  left. reflexivity.
Defined.

(** X12: whatever it returns, [TitleSequenceAddPark] keeps the saves that
    were in the list at their positions and adds at most one; the commands,
    the name, the path and the backend flag are unchanged. *)
Theorem TitleSequenceAddPark_keeps_saves
    (io : Backend) (seq : TitleSequence) (path name : list ascii) :
  let seq' := (TitleSequenceAddPark io seq path name).2 in
  Saves seq `prefix_of` Saves seq'
  ∧ (length (Saves seq') <= S (length (Saves seq)))%nat
  ∧ Commands seq' = Commands seq
  ∧ (Name seq', Path seq', IsZip seq') = (Name seq, Path seq, IsZip seq).
Proof.
  cbv zeta.
  destruct (TitleSequenceAddPark_saves io seq path name)
    as (-> & -> & -> & -> & ->).
  destruct (std_find_is_end (Saves seq) path).
  - split; [by apply prefix_app_r|].
    rewrite length_app; simpl. split; [lia | done].
  - split; [done|]. split; [lia | done].
Qed.

(** X13: [TitleSequenceAddPark] keeps the invariant of the [Load]
    commands, whatever the backend answers. *)
Theorem TitleSequenceAddPark_keeps_valid
    (io : Backend) (seq : TitleSequence) (path name : list ascii) :
  load_indices_ok seq = true ->
  load_indices_ok (TitleSequenceAddPark io seq path name).2 = true.
Proof.
  unfold load_indices_ok.
  destruct (TitleSequenceAddPark_saves io seq path name)
    as (Hs & -> & _).
  rewrite !forallb_forall. intros H c Hc.
  apply (load_index_ok_longer (Saves seq)); [|by apply H].
  rewrite Hs. destruct (std_find_is_end _ _); [|done].
  rewrite length_app; simpl; lia.
Qed.

Lemma TitleSequenceAddPark_keeps_valid_witness :
  load_indices_ok
    (TitleSequenceAddPark io_ok example_seq (str "/tmp/d.sv6")
       (str "d.sv6")).2 = true.
Proof.
  apply (TitleSequenceAddPark_keeps_valid io_ok example_seq).
  reflexivity.
Defined.

(** X14: the list of saves can come to hold a name twice: when [path] is
    not in the list and differs from [name], two calls of
    [TitleSequenceAddPark] with the same arguments append [name] twice. *)
Theorem TitleSequenceAddPark_twice
    (io io' : Backend) (seq : TitleSequence) (path name : list ascii) :
  path ∉ Saves seq -> path ≠ name ->
  Saves (TitleSequenceAddPark io'
           (TitleSequenceAddPark io seq path name).2 path name).2
  = Saves seq ++ [name; name].
Proof.
  intros Hin Hne.
  destruct (TitleSequenceAddPark_saves io'
              (TitleSequenceAddPark io seq path name).2 path name) as (-> & _).
  destruct (TitleSequenceAddPark_saves io seq path name) as (-> & _).
  rewrite !std_find_is_end_spec.
  rewrite (bool_decide_eq_false_2 (path ∈ Saves seq)) by done. simpl.
  rewrite bool_decide_eq_false_2.
  - simpl. by rewrite <- app_assoc.
  - rewrite elem_of_app, list_elem_of_singleton. by intros [?|?].
Qed.

Lemma TitleSequenceAddPark_twice_witness :
  Saves (TitleSequenceAddPark io_ok
           (TitleSequenceAddPark io_ok example_seq (str "/tmp/d.sv6")
              (str "d.sv6")).2 (str "/tmp/d.sv6") (str "d.sv6")).2
  = Saves example_seq ++ [str "d.sv6"; str "d.sv6"].
Proof.
  apply (TitleSequenceAddPark_twice io_ok io_ok example_seq).
  - vm_compute. intros H. repeat (apply elem_of_cons in H as [H|H]; [done|]).
    by apply elem_of_nil in H.
  - done.
Defined.

(** X15: [TitleSequenceGetParkHandle] reads past the end of the list of
    saves for exactly one index, the length of the list; a handle that it
    returns carries the save at [index] as its hint path, and it is returned
    only when the backend has opened the archive or the file. *)
Theorem TitleSequenceGetParkHandle_outcomes
    (io : Backend) (seq : TitleSequence) (index : nat) :
  (TitleSequenceGetParkHandle io seq index = OutOfRangeRead
   ↔ index = length (Saves seq))
  ∧ ∀ hint, TitleSequenceGetParkHandle io seq index = Handle hint ->
      Saves seq !! index = Some hint
      ∧ (if IsZip seq then Zip_TryOpen io else FileStream_open io) = true.
Proof.
  unfold TitleSequenceGetParkHandle. split.
  - destruct (Nat.leb_spec index (length (Saves seq))) as [Hle|Hgt].
    + destruct (Saves seq !! index) as [f|] eqn:Hf.
      * apply lookup_lt_Some in Hf.
        by destruct (IsZip seq), (Zip_TryOpen io), (FileStream_open io);
          (split; [done | lia]).
      * apply lookup_ge_None_1 in Hf. split; [lia | done].
    + split; [done | lia].
  - intros hint.
    destruct (index <=? _)%nat; [|done].
    destruct (Saves seq !! index) as [f|]; [|done].
    by destruct (IsZip seq), (Zip_TryOpen io), (FileStream_open io);
      intros [= ->].
Qed.

(** ** Fields, inert commands and the name of the sequence *)

Lemma tokenize_end kw :
  kw ≠ [] -> word_text kw = true -> (length kw <= 127)%nat ->
  tokenize kw = ([kw], []).
Proof.
  intros Hne Hw Hl. rewrite <- (app_nil_r kw) at 1.
  by rewrite tokenize_first.
Qed.

Lemma tokenize_fourth_word kw a b rest :
  kw ≠ [] -> word_text kw = true -> (length kw <= 127)%nat ->
  load_flag kw = false -> sprite_flag kw = false ->
  word_text a = true -> (length a <= 127)%nat ->
  word_text b = true -> (length b <= 127)%nat ->
  tokenize (kw ++ " "%char :: a ++ " "%char :: b ++ " "%char :: rest)
  = ([kw; a; b], rest)
  ∧ tokenize (kw ++ " "%char :: a ++ " "%char :: b) = ([kw; a; b], []).
Proof.
  intros Hne Hw Hl Hload Hsprite Ha Hla Hb Hlb. split.
  - rewrite tokenize_first by done.
    rewrite fields_loop_space_first, Hload, Hsprite.
    rewrite fields_loop_field; [| simpl; lia | done | simpl; lia].
    rewrite fields_loop_space_later; [| simpl; lia | done].
    rewrite fields_loop_field; [| simpl; lia | done | simpl; lia].
    rewrite fields_loop_space_later; [| simpl; lia | done].
    by destruct rest.
  - rewrite tokenize_first by done.
    rewrite fields_loop_space_first, Hload, Hsprite.
    rewrite fields_loop_field; [| simpl; lia | done | simpl; lia].
    rewrite fields_loop_space_later; [| simpl; lia | done].
    rewrite <- (app_nil_r b) at 1.
    rewrite fields_loop_field; [| simpl; lia | done | simpl; lia].
    done.
Qed.

Lemma tokenize_empty_field kw a rest :
  kw ≠ [] -> word_text kw = true -> (length kw <= 127)%nat ->
  load_flag kw = false -> sprite_flag kw = false ->
  word_text a = true -> (length a <= 127)%nat ->
  tokenize (kw ++ " "%char :: " "%char :: a ++ LF :: rest)
  = ([kw; []; a], rest).
Proof.
  intros Hne Hw Hl Hload Hsprite Ha Hla.
  rewrite tokenize_first by done.
  rewrite fields_loop_space_first, Hload, Hsprite.
  rewrite fields_loop_space_later; [| simpl; lia | done].
  rewrite fields_loop_field; [| simpl; lia | done | simpl; lia].
  by rewrite fields_loop_LF by (simpl; lia).
Qed.

(** X16: a call of [LegacyScriptGetLine] on a stream that is not exhausted
    reads at least one byte, and what it leaves is the stream without the
    bytes read. *)
Theorem LegacyScriptGetLine_consumes (stream : list ascii) (parts : buffer) :
  stream ≠ [] ->
  ∃ consumed,
    consumed ≠ []
    ∧ stream = consumed ++ (LegacyScriptGetLine stream parts).2.
Proof.
  intros Hne.
  pose proof (LegacyScriptGetLine_shorter stream parts Hne) as Hs.
  rewrite (proj1 (LegacyScriptGetLine_fields stream parts)) in Hs |- *.
  destruct (fields_loop_suffix stream [] [] true false false false)
    as [consumed Hc].
  exists consumed. split; [|done].
  intros ->. simpl in Hc. unfold tokenize in Hs. rewrite <- Hc in Hs. lia.
Qed.

Lemma LegacyScriptGetLine_consumes_witness :
  ∃ consumed,
    consumed ≠ []
    ∧ str "END
WAIT 5" = consumed ++ (LegacyScriptGetLine (str "END
WAIT 5") stale).2.
Proof.
  apply (LegacyScriptGetLine_consumes (str "END
WAIT 5") stale).
  done.
Defined.

(** X17: the three fields that [LegacyScriptGetLine] returns do not depend
    on what the buffer held before the call, although the call clears only
    the first byte of each field; and each field, read as a C string, has at
    most 127 characters, none of them a line end or the comment sign. *)
Theorem LegacyScriptGetLine_fields_clean
    (stream : list ascii) (parts parts' : buffer) (k : nat) :
  (k < 3)%nat ->
  field (LegacyScriptGetLine stream parts).1 k
  = field (LegacyScriptGetLine stream parts').1 k
  ∧ line_text (field (LegacyScriptGetLine stream parts).1 k) = true
  ∧ (length (field (LegacyScriptGetLine stream parts).1 k) <= 127)%nat.
Proof.
  intros Hk.
  rewrite !(proj2 (LegacyScriptGetLine_fields stream _)) by done.
  split; [done|]. apply field_of_tokenize.
Qed.

Lemma LegacyScriptGetLine_fields_clean_witness :
  field (LegacyScriptGetLine (str "WAIT 5 # five") stale).1 1
  = field (LegacyScriptGetLine (str "WAIT 5 # five") (fun _ => NUL)).1 1
  ∧ line_text (field (LegacyScriptGetLine (str "WAIT 5 # five") stale).1 1)
    = true
  ∧ (length (field (LegacyScriptGetLine (str "WAIT 5 # five") stale).1 1)
     <= 127)%nat.
Proof.
  apply (LegacyScriptGetLine_fields_clean (str "WAIT 5 # five") stale
           (fun _ => NUL) 1).
  lia.
Defined.

(** X18: two spaces in a row close an empty field: after a keyword that is
    none of [LOAD], [LOADSC] and [FOLLOW], a second space at once makes the
    second field empty and the word after it the third field. *)
Theorem LegacyScriptGetLine_empty_field
    (kw a rest : list ascii) (parts : buffer) :
  kw ≠ [] -> word_text kw = true -> (length kw <= 127)%nat ->
  load_flag kw = false -> sprite_flag kw = false ->
  word_text a = true -> (length a <= 127)%nat ->
  let result :=
    LegacyScriptGetLine (kw ++ " "%char :: " "%char :: a ++ LF :: rest)
      parts in
  result.2 = rest
  ∧ field result.1 0 = kw ∧ field result.1 1 = [] ∧ field result.1 2 = a.
Proof.
  intros Hne Hw Hl Hload Hsprite Ha Hla result.
  destruct (LegacyScriptGetLine_tokenize
              (kw ++ " "%char :: " "%char :: a ++ LF :: rest) parts
              [kw; []; a] rest) as [Hrest Hfields].
  - by apply tokenize_empty_field.
  - repeat constructor; by try apply word_text_line_text.
  - subst result. rewrite Hrest, !Hfields by lia. done.
Qed.

Lemma LegacyScriptGetLine_empty_field_witness :
  let result := LegacyScriptGetLine (str "ROTATE  3
END") stale in
  result.2 = str "END"
  ∧ field result.1 0 = str "ROTATE" ∧ field result.1 1 = []
  ∧ field result.1 2 = str "3".
Proof.
  apply (LegacyScriptGetLine_empty_field (str "ROTATE") (str "3") (str "END")
           stale); try reflexivity; try done; simpl; lia.
Defined.

Section ReaderWriterLines.

Variable USER_STRING_MAX_LENGTH : nat.
Variable TITLE_COMMAND_SCENARIO_LENGTH : nat.

Abbreviation Read :=
  (LegacyScriptRead USER_STRING_MAX_LENGTH TITLE_COMMAND_SCENARIO_LENGTH).
Abbreviation Decoded :=
  (decoded USER_STRING_MAX_LENGTH TITLE_COMMAND_SCENARIO_LENGTH).
Abbreviation Reads_back :=
  (reads_back USER_STRING_MAX_LENGTH TITLE_COMMAND_SCENARIO_LENGTH).

(** X19: a line has at most three fields: after a keyword that is none of
    [LOAD], [LOADSC] and [FOLLOW] and two more words, a further space ends
    the line as a line end would, and what follows it is read as a new
    line. *)
Theorem LegacyScriptRead_fourth_word
    (uninitialised : buffer) (kw a b rest : list ascii)
    (saves : list (list ascii)) :
  kw ≠ [] -> word_text kw = true -> (length kw <= 127)%nat ->
  load_flag kw = false -> sprite_flag kw = false ->
  word_text a = true -> (length a <= 127)%nat ->
  word_text b = true -> (length b <= 127)%nat ->
  Read uninitialised
    (kw ++ " "%char :: a ++ " "%char :: b ++ " "%char :: rest) saves
  = Read uninitialised (kw ++ " "%char :: a ++ " "%char :: b) saves
    ++ Read uninitialised rest saves.
Proof.
  intros Hne Hw Hl Hload Hsprite Ha Hla Hb Hlb.
  destruct (tokenize_fourth_word kw a b rest) as [H1 H2]; try done.
  rewrite (LegacyScriptRead_line _ _ _ (kw ++ _)), H1.
  rewrite (LegacyScriptRead_line _ _ _
             (kw ++ " "%char :: a ++ " "%char :: b)), H2.
  cbn [fst snd]. by rewrite LegacyScriptRead_nil, app_nil_r.
Qed.

(** The writer's text of the commands, read back, for commands that are
    inert or read back as themselves. *)
Lemma Read_Write_commands_inert seq uninitialised commands :
  Forall (fun c => inert c = true ∨ Reads_back seq c) commands ->
  Read uninitialised (LegacyScriptWrite_commands seq commands) (Saves seq)
  = filter (fun c => inert c = false) commands.
Proof.
  induction 1 as [|c cs Hc Hcs IH]; [done|].
  change (LegacyScriptWrite_commands seq (c :: cs))
    with (LegacyScriptWrite_command seq c
          ++ LF :: LegacyScriptWrite_commands seq cs).
  destruct Hc as [Hi|Hc].
  - rewrite filter_cons_False by (by rewrite Hi).
    assert (LegacyScriptWrite_command seq c = []) as ->.
    { unfold inert in Hi. unfold LegacyScriptWrite_command.
      by destruct (Type_ c). }
    cbn [app]. by rewrite LegacyScriptRead_blank_line.
  - destruct (Hc (LegacyScriptWrite_commands seq cs)) as (fields & Ht & Hf).
    assert (inert c = false) as Hi.
    { unfold line_commands in Hf.
      destruct (TitleScript.eqb _ _) eqn:E; [done|].
      injection Hf as Hf. rewrite <- Hf.
      pose proof (field_of_tokenize
                    (LegacyScriptWrite_command seq c
                     ++ LF :: LegacyScriptWrite_commands seq cs) 1) as [H1 H1'].
      pose proof (field_of_tokenize
                    (LegacyScriptWrite_command seq c
                     ++ LF :: LegacyScriptWrite_commands seq cs) 2) as [H2 H2'].
      rewrite Ht in H1, H1', H2, H2'. cbn [fst] in *.
      assert (Hd := Read_command_decoded USER_STRING_MAX_LENGTH
                TITLE_COMMAND_SCENARIO_LENGTH (field_of fields 0)
                (field_of fields 1) (field_of fields 2) (Saves seq)
                H1 H1' H2 H2').
      destruct Hd; [|done..].
      intros H. by rewrite H in E. }
    rewrite filter_cons_True by done.
    rewrite LegacyScriptRead_line, Ht. cbn [fst snd].
    by rewrite Hf, IH.
Qed.

Lemma Read_Write_inert seq uninitialised :
  no_line_end (c_str (Name seq)) = true ->
  Forall (fun c => inert c = true ∨ Reads_back seq c) (Commands seq) ->
  Read uninitialised (LegacyScriptWrite seq) (Saves seq)
  = filter (fun c => inert c = false) (Commands seq).
Proof.
  intros Hname Hc.
  rewrite LegacyScriptWrite_text.
  change ("#"%char :: (str " SCRIPT FOR " ++ c_str (Name seq))
          ++ LF :: LegacyScriptWrite_commands seq (Commands seq))
    with ([] ++ "#"%char :: (str " SCRIPT FOR " ++ c_str (Name seq))
          ++ LF :: LegacyScriptWrite_commands seq (Commands seq)).
  assert (no_line_end (str " SCRIPT FOR " ++ c_str (Name seq)) = true) as Hh.
  { unfold no_line_end in *. by rewrite forallb_app, Hname. }
  rewrite (LegacyScriptRead_ends_line _ _ uninitialised (Saves seq) _ _
             (ends_line_comment (str " SCRIPT FOR " ++ c_str (Name seq))
                (LegacyScriptWrite_commands seq (Commands seq)) Hh) []).
  rewrite LegacyScriptRead_nil. cbn [app].
  by apply Read_Write_commands_inert.
Qed.

Lemma decoded_or_inert_reads_back seq commands :
  (length (Saves seq) <= 255)%nat ->
  lowest_match (str "<No save file>") (Saves seq) = None ->
  Forall (fun c => inert c = true
                   ∨ Decoded (Saves seq) c ∧ scenario_named c = true)
    commands ->
  Forall (fun c => inert c = true ∨ Reads_back seq c) commands.
Proof.
  intros Hlen Hplace Hc.
  eapply Forall_impl; [exact Hc|]. intros c [Hi|[Hd Hs]]; [by left | right].
  apply decoded_reads_back; [done | done | done |].
  intros Hty Hnil. unfold scenario_named in Hs. by rewrite Hty, Hnil in Hs.
Qed.

(** X20: a sequence may hold commands of the types [Undefined], [Loop] and
    [EndLoop], which the reader never makes; the writer turns each of them
    into an empty line, and reading the text back gives the sequence's
    commands without them, when the other commands are such as the reader
    makes from the sequence's saves. *)
Theorem LegacyScriptWrite_drops_inert
    (uninitialised : buffer) (seq : TitleSequence) :
  no_line_end (c_str (Name seq)) = true ->
  (length (Saves seq) <= 255)%nat ->
  lowest_match (str "<No save file>") (Saves seq) = None ->
  Forall (fun c => inert c = true
                   ∨ Decoded (Saves seq) c ∧ scenario_named c = true)
    (Commands seq) ->
  Read uninitialised (LegacyScriptWrite seq) (Saves seq)
  = filter (fun c => inert c = false) (Commands seq).
Proof.
  intros Hname Hlen Hplace Hc.
  apply Read_Write_inert; [done|].
  by apply decoded_or_inert_reads_back.
Qed.

(** X21: the writer puts the name of the sequence into the first line as
    it is: when the name has a line break, what follows the break is read
    back as script, before the commands of the sequence. *)
Theorem LegacyScriptWrite_name_line_break
    (uninitialised : buffer) (seq : TitleSequence) (n1 n2 : list ascii)
    (saves : list (list ascii)) :
  c_str (Name seq) = n1 ++ LF :: n2 ->
  no_line_end n1 = true ->
  Read uninitialised (LegacyScriptWrite seq) saves
  = Read uninitialised n2 saves
    ++ Read uninitialised (LegacyScriptWrite_commands seq (Commands seq))
         saves.
Proof.
  intros Hname Hn1.
  rewrite LegacyScriptWrite_text, Hname.
  change ("#"%char :: (str " SCRIPT FOR " ++ n1 ++ LF :: n2)
          ++ LF :: LegacyScriptWrite_commands seq (Commands seq))
    with ([] ++ "#"%char :: (str " SCRIPT FOR " ++ n1 ++ LF :: n2)
          ++ LF :: LegacyScriptWrite_commands seq (Commands seq)).
  replace ((str " SCRIPT FOR " ++ n1 ++ LF :: n2)
           ++ LF :: LegacyScriptWrite_commands seq (Commands seq))
    with ((str " SCRIPT FOR " ++ n1)
          ++ LF :: (n2 ++ LF :: LegacyScriptWrite_commands seq (Commands seq)))
    by (by rewrite <- !app_assoc).
  assert (no_line_end (str " SCRIPT FOR " ++ n1) = true) as Hh.
  { unfold no_line_end in *. by rewrite forallb_app, Hn1. }
  rewrite (LegacyScriptRead_ends_line _ _ uninitialised saves _ _
             (ends_line_comment (str " SCRIPT FOR " ++ n1) _ Hh) []).
  rewrite LegacyScriptRead_nil. cbn [app].
  apply (LegacyScriptRead_ends_line _ _ uninitialised saves _ _
           (ends_line_LF _) n2).
Qed.

End ReaderWriterLines.

Lemma LegacyScriptRead_fourth_word_witness :
  LegacyScriptRead 32 64 stale (str "LOCATION 1 2 END") []
  = LegacyScriptRead 32 64 stale (str "LOCATION 1 2") []
    ++ LegacyScriptRead 32 64 stale (str "END") [].
Proof.
  apply (LegacyScriptRead_fourth_word 32 64 stale (str "LOCATION") (str "1")
           (str "2") (str "END") []); try reflexivity; try done; simpl; lia.
Defined.

Lemma LegacyScriptWrite_drops_inert_witness :
  let seq :=
    mkTitleSequence (str "demo") (str "/seq/demo")
      [Load_command 0; set_Type TitleCommand_zero TitleScript.Loop;
       Wait_command 5; set_Type TitleCommand_zero TitleScript.EndLoop]
      [str "a.sv6"] false in
  LegacyScriptRead 32 64 stale (LegacyScriptWrite seq) (Saves seq)
  = filter (fun c => inert c = false) (Commands seq).
Proof.
  intros seq.
  apply (LegacyScriptWrite_drops_inert 32 64 stale seq).
  - reflexivity.
  - simpl; lia.
  - reflexivity.
  - apply Forall_cons. split.
    { right. split; [|reflexivity].
      apply (decoded_Load 32 64 [str "a.sv6"] (str "a.sv6"));
        [reflexivity | simpl; lia]. }
    apply Forall_cons. split; [left; reflexivity|].
    apply Forall_cons. split.
    { right. split; [|reflexivity]. apply decoded_Wait. lia. }
    apply Forall_cons. split; [left; reflexivity|].
    apply Forall_nil. done.
Defined.

Lemma LegacyScriptWrite_name_line_break_witness :
  let seq :=
    mkTitleSequence (str "demo
END") (str "/seq/demo") [Wait_command 5] [] false in
  LegacyScriptRead 32 64 stale (LegacyScriptWrite seq) []
  = LegacyScriptRead 32 64 stale (str "END") []
    ++ LegacyScriptRead 32 64 stale
         (LegacyScriptWrite_commands seq (Commands seq)) [].
Proof.
  intros seq.
  apply (LegacyScriptWrite_name_line_break 32 64 stale seq (str "demo")
           (str "END") []); reflexivity.
Defined.

(** ** Loading and saving *)

Lemma GetSaves_zip_loop_elem p zip name count : ∀ i,
  name ∈ GetSaves_zip_loop p zip i count
  ↔ ∃ j, (i <= j < i + count)%nat ∧ GetFileName zip j = name
         ∧ GetSaves_zip_test (Platform.GetExtension p name) = true.
Proof.
  induction count as [|count IH]; intros i; cbn [GetSaves_zip_loop].
  - split; [by intros ?%elem_of_nil | intros (j & ? & _); lia].
  - rewrite elem_of_app, IH.
    destruct (GetSaves_zip_test (Platform.GetExtension p (GetFileName zip i)))
      eqn:E.
    + rewrite list_elem_of_singleton. split.
      * intros [->|(j & Hj & Hn & Ht)];
          [exists i | exists j]; (split; [lia | done]).
      * intros (j & Hj & Hn & Ht).
        destruct (decide (j = i)) as [->|Hne]; [by left | right].
        exists j. split; [lia | done].
    + rewrite elem_of_nil. split.
      * intros [[]|(j & Hj & Hn & Ht)]. exists j. split; [lia | done].
      * intros (j & Hj & Hn & Ht). right.
        destruct (decide (j = i)) as [->|Hne].
        { rewrite <- Hn in Ht. congruence. }
        exists j. split; [lia | done].
Qed.

Lemma GetSaves_zip_loop_sublist p zip count : ∀ i,
  GetSaves_zip_loop p zip i count
  `sublist_of` (GetFileName zip <$> seq i count).
Proof.
  induction count as [|count IH]; intros i; cbn [GetSaves_zip_loop seq fmap
    list_fmap]; [done|].
  destruct (GetSaves_zip_test _); cbn [app].
  - apply sublist_skip, IH.
  - apply sublist_cons, IH.
Qed.

(** X22: the saves that [GetSaves] lists for an archive are the names of
    its files whose extension is [.sv6], [.sc6] or [.park] without regard to
    case, in the order of the archive; the extensions [.sv4] and [.sc4] of
    the pattern for a directory are not among them. *)
Theorem GetSaves_zip_names (p : Platform.t) (zip : IZipArchive) :
  (∀ name,
     name ∈ GetSaves_zip p zip
     ↔ ∃ i, (i < GetNumFiles zip)%nat ∧ GetFileName zip i = name
            ∧ map tolower (Platform.GetExtension p name)
              ∈ [str ".sv6"; str ".sc6"; str ".park"])
  ∧ GetSaves_zip p zip
    `sublist_of` (GetFileName zip <$> seq 0 (GetNumFiles zip)).
Proof.
  split; [|apply GetSaves_zip_loop_sublist].
  intros name. unfold GetSaves_zip. rewrite GetSaves_zip_loop_elem.
  assert (Ht : GetSaves_zip_test (Platform.GetExtension p name) = true
               ↔ map tolower (Platform.GetExtension p name)
                 ∈ [str ".sv6"; str ".sc6"; str ".park"]).
  { unfold GetSaves_zip_test.
    rewrite !orb_true_iff, !String_Equals_ignoreCase_spec.
    rewrite !elem_of_cons, elem_of_nil.
    change (map tolower (str ".sv6")) with (str ".sv6").
    change (map tolower (str ".sc6")) with (str ".sc6").
    change (map tolower (str ".park")) with (str ".park").
    tauto. }
  split; intros (i & Hi & Hn & H); exists i;
    (split; [lia | split; [done | by apply Ht]]).
Qed.

Section LoadProofs.

Variable USER_STRING_MAX_LENGTH : nat.
Variable TITLE_COMMAND_SCENARIO_LENGTH : nat.
Variable TITLE_SEQUENCE_EXTENSION : list ascii.

Abbreviation Read :=
  (LegacyScriptRead USER_STRING_MAX_LENGTH TITLE_COMMAND_SCENARIO_LENGTH).
Abbreviation Decoded :=
  (decoded USER_STRING_MAX_LENGTH TITLE_COMMAND_SCENARIO_LENGTH).
Abbreviation Load :=
  (LoadTitleSequence USER_STRING_MAX_LENGTH TITLE_COMMAND_SCENARIO_LENGTH
     TITLE_SEQUENCE_EXTENSION).
Abbreviation Serves := (serves TITLE_SEQUENCE_EXTENSION).

(** What a call of [LoadTitleSequence] that returns a sequence has read. *)
Lemma LoadTitleSequence_Some p uninitialised path seq :
  Load p uninitialised path = Some seq ->
  ∃ script,
    script ≠ []
    ∧ seq = mkTitleSequence (Platform.GetFileNameWithoutExtension p path)
              path (Read uninitialised script (Saves seq)) (Saves seq)
              (String_Equals (Platform.GetExtension p path)
                 TITLE_SEQUENCE_EXTENSION)
    ∧ (if IsZip seq
       then ∃ zip, Platform.Zip_TryOpen p path = Some zip
                   ∧ GetFileData zip (str "script.txt") = script
                   ∧ Saves seq = GetSaves_zip p zip
       else ReadScriptFile p (Platform.Combine p path (str "script.txt"))
            = script
            ∧ Saves seq = GetSaves_directory p path).
Proof.
  unfold LoadTitleSequence.
  destruct (String_Equals _ _).
  - destruct (Platform.Zip_TryOpen p path) as [zip|]; [|done].
    destruct (GetFileData zip (str "script.txt")) as [|c script] eqn:E;
      [done|].
    intros [= <-]. exists (c :: script). cbn. split; [done|].
    split; [done|]. by exists zip.
  - destruct (ReadScriptFile p _) as [|c script] eqn:E; [done|].
    intros [= <-]. exists (c :: script). cbn. by split.
Qed.

(** X23: a sequence that [LoadTitleSequence] returns is well formed,
    whatever the platform holds: its path is the one given, its name comes
    from the path and not from the script, every command is such as the
    reader makes, and the save index of every [Load] command is the
    sentinel or a position of its list of saves. *)
Theorem LoadTitleSequence_well_formed
    (p : Platform.t) (uninitialised : buffer) (path : list ascii)
    (seq : TitleSequence) :
  Load p uninitialised path = Some seq ->
  Path seq = path
  ∧ Name seq = Platform.GetFileNameWithoutExtension p path
  ∧ Forall (read_command_ok USER_STRING_MAX_LENGTH
              TITLE_COMMAND_SCENARIO_LENGTH) (Commands seq)
  ∧ load_indices_ok seq = true.
Proof.
  intros (script & _ & Hseq & _)%LoadTitleSequence_Some.
  pose proof (LegacyScriptRead_decoded USER_STRING_MAX_LENGTH
                TITLE_COMMAND_SCENARIO_LENGTH uninitialised script
                (Saves seq)) as Hd.
  assert (Hc : Commands seq = Read uninitialised script (Saves seq))
    by (by rewrite Hseq at 1).
  split; [by rewrite Hseq|]. split; [by rewrite Hseq|].
  unfold load_indices_ok. rewrite Hc. split.
  - eapply Forall_impl; [exact Hd|].
    intros c H. by apply (decoded_read_command_ok _ _ (Saves seq)).
  - apply forallb_forall. intros c Hin. rewrite Forall_forall in Hd.
    apply list_elem_of_In in Hin.
    by apply (decoded_read_command_ok _ _ (Saves seq) c (Hd c Hin)).
Qed.

(** X24: [LoadTitleSequence] takes a script without a byte for a script
    that cannot be read: when the script of a directory is an empty file, or
    the archive has an empty [script.txt], no sequence is returned. *)
Theorem LoadTitleSequence_empty_script
    (p : Platform.t) (uninitialised : buffer) (path : list ascii) :
  (if String_Equals (Platform.GetExtension p path) TITLE_SEQUENCE_EXTENSION
   then ∀ zip, Platform.Zip_TryOpen p path = Some zip ->
               GetFileData zip (str "script.txt") = []
   else Platform.FileStream p (Platform.Combine p path (str "script.txt"))
        = Some []) ->
  Load p uninitialised path = None.
Proof.
  unfold LoadTitleSequence, ReadScriptFile.
  destruct (String_Equals _ _).
  - intros H. destruct (Platform.Zip_TryOpen p path) as [zip|]; [|done].
    by rewrite (H zip eq_refl).
  - by intros ->.
Qed.

(** X25: what [TitleSequenceSave] writes, [LoadTitleSequence] reads back:
    after a save that returns [true], on a platform that serves what was
    written and lists the saves of the sequence, loading the path of the
    sequence returns a sequence with the same path, backend flag and saves,
    and with the commands of the sequence without those of the types
    [Undefined], [Loop] and [EndLoop]; its name is the one of the path. The
    sequence is to be such as the reader makes: at most 255 saves, none of
    them the placeholder of the writer, a name without a line end, and
    commands that the reader makes from its saves, every [LoadSc] with the
    name of a scenario. *)
Theorem TitleSequenceSave_Load
    (p : Platform.t) (io : SaveBackend) (uninitialised : buffer)
    (seq : TitleSequence) (written : Written) :
  TitleSequenceSave p io seq = (true, Some written) ->
  Serves p seq written ->
  no_line_end (c_str (Name seq)) = true ->
  (length (Saves seq) <= 255)%nat ->
  lowest_match (str "<No save file>") (Saves seq) = None ->
  Forall (fun c => inert c = true
                   ∨ Decoded (Saves seq) c ∧ scenario_named c = true)
    (Commands seq) ->
  Load p uninitialised (Path seq)
  = Some (mkTitleSequence
            (Platform.GetFileNameWithoutExtension p (Path seq)) (Path seq)
            (filter (fun c => inert c = false) (Commands seq)) (Saves seq)
            (IsZip seq)).
Proof.
  intros Hsave Hserves Hname Hlen Hplace Hc.
  pose proof (Read_Write_inert USER_STRING_MAX_LENGTH
                TITLE_COMMAND_SCENARIO_LENGTH seq uninitialised Hname
                (decoded_or_inert_reads_back USER_STRING_MAX_LENGTH
                   TITLE_COMMAND_SCENARIO_LENGTH seq (Commands seq) Hlen
                   Hplace Hc)) as Hread.
  assert (Hne : LegacyScriptWrite seq ≠ []).
  { by rewrite LegacyScriptWrite_text. }
  unfold TitleSequenceSave in Hsave. unfold LoadTitleSequence.
  destruct (IsZip seq) eqn:Hz.
  - destruct (Zip_Open io), (SetFileData io); try done.
    injection Hsave as <-. destruct Hserves as (-> & zip & -> & Hd & Hs).
    change (GetFileData zip (str "script.txt") = LegacyScriptWrite seq) in Hd.
    rewrite Hd, Hs.
    destruct (LegacyScriptWrite seq) as [|c script] eqn:E; [done|].
    rewrite Hread.
    by cbn [set_Name set_Path set_Saves set_Commands set_IsZip
            CreateTitleSequence Name Path Commands Saves IsZip].
  - destruct (File_WriteAllBytes io); try done.
    injection Hsave as <-. destruct Hserves as (-> & Hf & Hs).
    change (Platform.FileStream p
              (Platform.Combine p (Path seq) (str "script.txt"))
            = Some (LegacyScriptWrite seq)) in Hf.
    unfold ReadScriptFile. rewrite Hf, Hs.
    destruct (LegacyScriptWrite seq) as [|c script] eqn:E; [done|].
    rewrite Hread.
    by cbn [set_Name set_Path set_Saves set_Commands set_IsZip
            CreateTitleSequence Name Path Commands Saves IsZip].
Qed.

End LoadProofs.

Lemma LoadTitleSequence_well_formed_witness :
  let seq :=
    mkTitleSequence (str "demo") (str "/seq/demo")
      [Load_command 0; Load_command 1; Load_command 2; End_command]
      [str "a.sv6"; str "b.sv6"; str "c.sv6"] false in
  Path seq = str "/seq/demo"
  ∧ Name seq
    = Platform.GetFileNameWithoutExtension example_platform (str "/seq/demo")
  ∧ Forall (read_command_ok 32 64) (Commands seq)
  ∧ load_indices_ok seq = true.
Proof.
  intros seq.
  apply (LoadTitleSequence_well_formed 32 64 (str ".parkseq")
           example_platform stale (str "/seq/demo") seq).
  reflexivity.
Defined.

Lemma LoadTitleSequence_empty_script_witness :
  LoadTitleSequence 32 64 (str ".parkseq")
    (Platform.mk (fun _ => []) (fun _ => str "demo")
       (fun a b => a ++ "/"%char :: b) (fun _ => None) (fun _ => Some [])
       (fun _ _ => []))
    stale (str "/seq/demo")
  = None.
Proof.
  apply (LoadTitleSequence_empty_script 32 64 (str ".parkseq")).
  reflexivity.
Defined.

Lemma TitleSequenceSave_Load_witness :
  LoadTitleSequence 32 64 (str ".parkseq") example_platform stale
    (Path example_seq)
  = Some (mkTitleSequence
            (Platform.GetFileNameWithoutExtension example_platform
               (Path example_seq)) (Path example_seq)
            (filter (fun c => inert c = false) (Commands example_seq))
            (Saves example_seq) (IsZip example_seq)).
Proof.
  apply (TitleSequenceSave_Load 32 64 (str ".parkseq") example_platform
           (mkSaveBackend true true true) stale example_seq
           (FileBytes (str "/seq/demo/script.txt")
              (LegacyScriptWrite example_seq))).
  - reflexivity.
  - repeat split.
  - reflexivity.
  - simpl; lia.
  - reflexivity.
  - apply Forall_cons. split.
    { right. split; [|reflexivity].
      apply (decoded_Load 32 64 (Saves example_seq) (str "a.sv6"));
        [reflexivity | simpl; lia]. }
    apply Forall_cons. split.
    { right. split; [|reflexivity].
      apply (decoded_Load 32 64 (Saves example_seq) (str "b.sv6"));
        [reflexivity | simpl; lia]. }
    apply Forall_cons. split.
    { right. split; [|reflexivity].
      apply (decoded_Load 32 64 (Saves example_seq) (str "c.sv6"));
        [reflexivity | simpl; lia]. }
    apply Forall_cons. split.
    { right. split; [|reflexivity]. apply decoded_End. }
    apply Forall_nil. done.
Defined.

(** ** The modes of the tokenizer and the decoder *)

Lemma stricmp_zero_lower a b :
  Forall (fun c => c ≠ NUL) a -> Forall (fun c => c ≠ NUL) b ->
  _stricmp a b = 0 -> map tolower a = map tolower b.
Proof.
  intros Ha Hb H.
  destruct (decide (map tolower a = map tolower b)) as [E|E]; [done|].
  by destruct (stricmp_lower_ne a b Ha Hb E).
Qed.

Lemma load_flag_inv token :
  Forall (fun c => c ≠ NUL) token ->
  load_flag token = true ->
  map tolower token = map tolower (str "LOAD")
  ∨ map tolower token = map tolower (str "LOADSC").
Proof.
  intros Hn. unfold load_flag, _strnicmp.
  assert (Hc : c_str token = token).
  { apply c_str_no_NUL_id. unfold no_NUL. apply forallb_forall.
    intros c Hin. rewrite Forall_forall in Hn.
    apply list_elem_of_In, Hn in Hin.
    apply negb_true_iff. by apply Ascii.eqb_neq. }
  rewrite Hc.
  intros [[Hl H]%andb_true_iff|[Hl H]%andb_true_iff]%orb_true_iff;
    apply Nat.eqb_eq in Hl; apply Z.eqb_eq in H;
    rewrite take_ge in H by lia; [left | right];
    (apply stricmp_zero_lower; [done | by repeat constructor | done]).
Qed.

Lemma sprite_flag_inv token :
  Forall (fun c => c ≠ NUL) token ->
  sprite_flag token = true ->
  map tolower token = map tolower (str "FOLLOW").
Proof.
  intros Hn. unfold sprite_flag, _strnicmp.
  assert (Hc : c_str token = token).
  { apply c_str_no_NUL_id. unfold no_NUL. apply forallb_forall.
    intros c Hin. rewrite Forall_forall in Hn.
    apply list_elem_of_In, Hn in Hin.
    apply negb_true_iff. by apply Ascii.eqb_neq. }
  rewrite Hc.
  intros [[_ Hl]%andb_true_iff H]%andb_true_iff.
  apply Nat.eqb_eq in Hl; apply Z.eqb_eq in H.
  rewrite take_ge in H by lia.
  apply stricmp_zero_lower; [done | by repeat constructor | done].
Qed.

Section Modes.

Variable USER_STRING_MAX_LENGTH : nat.
Variable TITLE_COMMAND_SCENARIO_LENGTH : nat.

Abbreviation Read :=
  (LegacyScriptRead USER_STRING_MAX_LENGTH TITLE_COMMAND_SCENARIO_LENGTH).
Abbreviation Read_loop :=
  (LegacyScriptRead_loop USER_STRING_MAX_LENGTH
     TITLE_COMMAND_SCENARIO_LENGTH).
Abbreviation Read_command :=
  (LegacyScriptRead_command USER_STRING_MAX_LENGTH
     TITLE_COMMAND_SCENARIO_LENGTH).

(** The flags of the tokenizer, as predicates of the first field, agree
    with the decoder. *)
Lemma Read_command_modes
    (token part1 part2 : list ascii) (saves : list (list ascii)) :
  Forall (fun c => c ≠ NUL) token ->
  TitleSequenceIsLoadCommand (Read_command token part1 part2 saves)
  = load_flag token
  ∧ TitleScript.eqb (Type_ (Read_command token part1 part2 saves))
      TitleScript.Follow
    = sprite_flag token.
Proof.
  intros Hn.
  destruct (load_flag token) eqn:Hload.
  - assert (Hs : sprite_flag token = false)
      by (unfold sprite_flag; by rewrite Hload).
    rewrite Hs.
    destruct (load_flag_inv token Hn Hload) as [H|H];
      by rewrite (Read_command_lower _ _ token _ part1 part2 saves H).
  - destruct (sprite_flag token) eqn:Hsprite.
    + pose proof (sprite_flag_inv token Hn Hsprite) as H.
      by rewrite (Read_command_lower _ _ token _ part1 part2 saves H).
    + assert (H1 : _stricmp token (str "LOAD") ≠ 0).
      { intros H.
        apply stricmp_zero_lower in H; [|done | by repeat constructor].
        destruct (load_flag_lower token (or_introl H)) as (_ & _ & _ & E).
        congruence. }
      assert (H2 : _stricmp token (str "LOADSC") ≠ 0).
      { intros H.
        apply stricmp_zero_lower in H; [|done | by repeat constructor].
        destruct (load_flag_lower token (or_intror H)) as (_ & _ & _ & E).
        congruence. }
      assert (H3 : _stricmp token (str "FOLLOW") ≠ 0).
      { intros H.
        apply stricmp_zero_lower in H; [|done | by repeat constructor].
        destruct (sprite_flag_lower token H) as (_ & _ & _ & _ & E).
        congruence. }
      apply Z.eqb_neq in H1, H2, H3.
      unfold LegacyScriptRead_command. destruct token as [|t token]; [done|].
      rewrite H1, H2, H3.
      by repeat match goal with
                | |- context [if ?b then _ else _] => destruct b
                end.
Qed.

(** X27: the result of [LegacyScriptRead] does not depend on what its
    buffer holds before the first line is read, although the buffer is not
    initialised. *)
Theorem LegacyScriptRead_buffer_independent
    (uninitialised uninitialised' : buffer) (script : list ascii)
    (saves : list (list ascii)) :
  Read uninitialised script saves = Read uninitialised' script saves.
Proof.
  unfold LegacyScriptRead.
  apply (LegacyScriptRead_loop_fuel USER_STRING_MAX_LENGTH
           TITLE_COMMAND_SCENARIO_LENGTH); lia.
Qed.

End Modes.

Lemma TitleScript_eqb_eq a b : TitleScript.eqb a b = true ↔ a = b.
Proof. by destruct a, b. Qed.

Lemma word_text_not_NUL s :
  word_text s = true -> Forall (fun c => c ≠ NUL) s.
Proof.
  intros H%word_text_line_text. rewrite <- (c_str_line_text s H).
  apply c_str_no_NUL.
Qed.

Lemma line_text_words a b :
  line_text a = true -> line_text b = true ->
  line_text (a ++ " "%char :: b) = true.
Proof.
  intros Ha Hb. unfold line_text in *. rewrite forallb_app, Ha. simpl.
  exact Hb.
Qed.

Lemma mem_c_str_no_NUL m n : ∀ off,
  Forall (fun c => c ≠ NUL) (mem_c_str m off n).
Proof.
  induction n as [|n IH]; intros off; cbn [mem_c_str]; [by constructor|].
  destruct (m off =? NUL)%char eqn:E; [by constructor|].
  constructor; [|apply IH]. intros H. by rewrite H, Ascii.eqb_refl in E.
Qed.

Ltac fields_differ :=
  let H := fresh in
  intros H; injection H; intros;
  repeat match goal with
         | E : _ = _ :> list ascii |- _ =>
             apply (f_equal length) in E;
             rewrite ?length_app in E; simpl in E;
             rewrite ?length_app in E; simpl in E;
             revert E
         end;
  intros; lia.

Section ModesAgree.

Variable USER_STRING_MAX_LENGTH : nat.
Variable TITLE_COMMAND_SCENARIO_LENGTH : nat.

Abbreviation Read_command :=
  (LegacyScriptRead_command USER_STRING_MAX_LENGTH
     TITLE_COMMAND_SCENARIO_LENGTH).

(** X26: the modes of [LegacyScriptGetLine] agree with the decoder. On a
    line of a first word and three more words, the second field that
    [LegacyScriptGetLine] returns is the rest of the line with its spaces
    exactly when the command that [LegacyScriptRead] makes of the three
    fields satisfies [TitleSequenceIsLoadCommand]; the third field is the
    rest of the line after the second word exactly when that command is a
    [Follow]; and otherwise the fields are the three words, and the fourth
    word is left in the stream. *)
Theorem LegacyScriptGetLine_modes_agree
    (parts : buffer) (kw a b c rest : list ascii)
    (saves : list (list ascii)) :
  kw ≠ [] -> word_text kw = true -> (length kw <= 127)%nat ->
  word_text a = true -> word_text b = true -> word_text c = true ->
  (length a + length b + length c + 2 <= 127)%nat ->
  let stream :=
    kw ++ " "%char :: a ++ " "%char :: b ++ " "%char :: c ++ LF :: rest in
  let result := LegacyScriptGetLine stream parts in
  let command :=
    Read_command (field result.1 0) (field result.1 1) (field result.1 2)
      saves in
  (TitleSequenceIsLoadCommand command = true
   ↔ line_fields stream parts
     = (kw, a ++ " "%char :: b ++ " "%char :: c, [], rest))
  ∧ (Type_ command = TitleScript.Follow
     ↔ line_fields stream parts = (kw, a, b ++ " "%char :: c, rest))
  ∧ (TitleSequenceIsLoadCommand command = false
     ∧ Type_ command ≠ TitleScript.Follow
     ↔ line_fields stream parts = (kw, a, b, c ++ LF :: rest)).
Proof.
  intros Hne Hw Hl Ha Hb Hc Hlen stream result command.
  pose proof (word_text_line_text kw Hw) as Hkw.
  pose proof (word_text_line_text a Ha) as Hta.
  pose proof (word_text_line_text b Hb) as Htb.
  pose proof (word_text_line_text c Hc) as Htc.
  pose proof (line_text_words b c Htb Htc) as Hbc.
  pose proof (line_text_words a _ Hta Hbc) as Habc.
  assert (Hfields : line_fields stream parts
                    = (field result.1 0, field result.1 1, field result.1 2,
                       result.2)) by reflexivity.
  destruct (Read_command_modes USER_STRING_MAX_LENGTH
              TITLE_COMMAND_SCENARIO_LENGTH (field result.1 0)
              (field result.1 1) (field result.1 2) saves) as [Hload Hsprite].
  { apply mem_c_str_no_NUL. }
  fold command in Hload, Hsprite.
  assert (Hfollow : Type_ command = TitleScript.Follow
                    ↔ sprite_flag (field result.1 0) = true).
  { rewrite <- Hsprite. symmetry. apply TitleScript_eqb_eq. }
  rewrite Hfollow, Hload. clear Hfollow Hload Hsprite.
  destruct (load_flag kw) eqn:Eload.
  - assert (Hs : sprite_flag kw = false)
      by (unfold sprite_flag; by rewrite Eload).
    assert (E : line_fields stream parts
                = (kw, a ++ " "%char :: b ++ " "%char :: c, [], rest)).
    { apply line_fields_tokenize; try done.
      right. split; [done|]. left.
      replace stream
        with (kw ++ " "%char
              :: (a ++ " "%char :: b ++ " "%char :: c) ++ LF :: rest).
      - apply tokenize_load_mode; try done.
        rewrite !length_app. simpl. rewrite length_app. simpl. lia.
      - subst stream. repeat (rewrite <- app_assoc; simpl). done. }
    rewrite E in Hfields |- *. injection Hfields as <- _ _ _.
    rewrite Eload, Hs.
    split; [done|]. split.
    + split; [done | fields_differ].
    + split; [by intros [? _] | fields_differ].
  - destruct (sprite_flag kw) eqn:Esprite.
    + assert (E : line_fields stream parts
                  = (kw, a, b ++ " "%char :: c, rest)).
      { apply line_fields_tokenize; try done. left.
        replace stream
          with (kw ++ " "%char :: a ++ " "%char
                :: (b ++ " "%char :: c) ++ LF :: rest).
        - apply tokenize_sprite_mode; try done; try lia.
          rewrite length_app. simpl. lia.
        - subst stream. repeat (rewrite <- app_assoc; simpl). done. }
      rewrite E in Hfields |- *. injection Hfields as <- _ _ _.
      rewrite Eload, Esprite. split.
      * split; [done | fields_differ].
      * split; [done|].
        split; [by intros [_ ?] | fields_differ].
    + assert (E : line_fields stream parts = (kw, a, b, c ++ LF :: rest)).
      { apply line_fields_tokenize; try done. left.
        apply tokenize_fourth_word; try done; lia. }
      rewrite E in Hfields |- *. injection Hfields as <- _ _ _.
      rewrite Eload, Esprite. split.
      * split; [done | fields_differ].
      * split; [|done].
        split; [done | fields_differ].
Qed.

End ModesAgree.

Lemma LegacyScriptGetLine_modes_agree_witness :
  let stream := str "LOADSC Forest Frontiers 2
END" in
  let result := LegacyScriptGetLine stream stale in
  let command :=
    LegacyScriptRead_command 32 64 (field result.1 0) (field result.1 1)
      (field result.1 2) [] in
  (TitleSequenceIsLoadCommand command = true
   ↔ line_fields stream stale
     = (str "LOADSC", str "Forest Frontiers 2", [], str "END"))
  ∧ (Type_ command = TitleScript.Follow
     ↔ line_fields stream stale
       = (str "LOADSC", str "Forest", str "Frontiers 2", str "END"))
  ∧ (TitleSequenceIsLoadCommand command = false
     ∧ Type_ command ≠ TitleScript.Follow
     ↔ line_fields stream stale
       = (str "LOADSC", str "Forest", str "Frontiers", str "2
END")).
Proof.
  apply (LegacyScriptGetLine_modes_agree 32 64 stale (str "LOADSC")
           (str "Forest") (str "Frontiers") (str "2") (str "END") []);
    try reflexivity; try done; simpl; lia.
Defined.

(** X28: the removal of a save keeps the invariant of the [Load] commands
    when it holds before and no [Load] command holds the sentinel. *)
Theorem TitleSequenceRemovePark_keeps_invariant
    (io : Backend) (seq seq' : TitleSequence) (index : nat) :
  load_indices_ok seq = true ->
  Forall (fun c => 0 <= SaveIndex c < 256) (Commands seq) ->
  Forall (fun c => Type_ c = TitleScript.Load ->
                   SaveIndex c ≠ SAVE_INDEX_INVALID) (Commands seq) ->
  TitleSequenceRemovePark io seq index = Some (true, seq') ->
  load_indices_ok seq' = true.
Proof.
  intros Hok Hrange Hsent Hrem.
  apply (TitleSequenceRemovePark_keeps_valid io seq index seq');
    [|done | done].
  unfold load_indices_ok in Hok. rewrite forallb_forall in Hok.
  rewrite Forall_forall in Hsent |- *. intros c Hin Hty.
  specialize (Hsent c Hin Hty).
  apply list_elem_of_In, Hok in Hin. unfold load_index_ok in Hin.
  rewrite Hty in Hin. cbn in Hin.
  apply orb_true_iff in Hin as [Hin|Hin].
  - by apply Z.eqb_eq in Hin.
  - apply andb_true_iff in Hin as [H1 H2].
    apply Z.leb_le in H1. apply Z.ltb_lt in H2. lia.
Qed.

Lemma TitleSequenceRemovePark_keeps_invariant_witness :
  load_indices_ok
    (set_Commands (set_Saves example_seq [str "a.sv6"; str "c.sv6"])
       [Load_command 0; Load_command SAVE_INDEX_INVALID; Load_command 1;
        End_command]) = true.
Proof.
  apply (TitleSequenceRemovePark_keeps_invariant io_ok example_seq _ 1).
  - reflexivity.
  - repeat constructor; simpl; lia.
  - repeat constructor; simpl; intros _; done.
  - reflexivity.
Defined.
